(** * DyNAThetaLinear: the neuromodulated linear layer of [dyna/dyna_theta_linear.py]

    A shallow embedding of [DyNAThetaLinear.__init__] and
    [DyNAThetaLinear.forward] and of the tensor operations they call.

    Scalars are real numbers: the development is about the shapes and the
    index algebra of the pipeline (broadcasting, permutations, reshapes,
    contractions), in exact arithmetic.  A tensor is a shape together with
    the function giving the entry at a multi-index; every tensor operation
    returns a [result], with [Err] where the tensor library raises.

    The last part embeds the functions of
    [experiments/aedw/train_decoder.py] that edit the weights of a model
    between optimizer steps, and the two methods of its [DecoderOnlyModel]
    that rescale and quantize activations. *)

From Stdlib Require Import List ZArith Lia Bool Arith PeanoNat.
From Stdlib Require Import Reals Lra Zfloor.
From Stdlib Require String Ascii.
Import ListNotations.
Import String.StringSyntax.

(* ================================================================= *)
(** ** Results *)

Inductive error : Type :=
| RuntimeError        (* shape mismatch raised by the tensor library *)
| IndexError          (* dimension out of range *)
| ZeroDivisionError.  (* raised by Python arithmetic in the initializers *)

Inductive result (A : Type) : Type :=
| Ok (a : A)
| Err (e : error).

Arguments Ok {A} a.
Arguments Err {A} e.

Definition rbind {A B} (r : result A) (f : A -> result B) : result B :=
  match r with
  | Ok a => f a
  | Err e => Err e
  end.

Declare Scope res_scope.
Delimit Scope res_scope with res.
Notation "x <~ r ; k" := (rbind r (fun x => k))
  (at level 61, r at next level, right associativity) : res_scope.

Definition is_ok {A} (r : result A) : bool :=
  match r with Ok _ => true | Err _ => false end.

Fixpoint mapM {A B} (f : A -> result B) (l : list A) : result (list B) :=
  match l with
  | [] => Ok []
  | a :: l' => (b <~ f a ; bs <~ mapM f l' ; Ok (b :: bs))%res
  end.

(* ================================================================= *)
(** ** Tensors *)

Record tensor : Type := mkTensor {
  shape : list nat;
  entry : list nat -> R
}.

Definition rank (t : tensor) : nat := length (shape t).

(** [idx] addresses an element of a tensor of shape [s]. *)
Definition valid_index (s idx : list nat) : Prop := Forall2 lt idx s.

Fixpoint shape_eqb (s1 s2 : list nat) : bool :=
  match s1, s2 with
  | [], [] => true
  | a :: s1', b :: s2' => (a =? b) && shape_eqb s1' s2'
  | _, _ => false
  end.

Definition numel (s : list nat) : nat := fold_right Nat.mul 1 s.

(** Finite sum [f 0 + ... + f (n-1)]. *)
Fixpoint sum_upto (n : nat) (f : nat -> R) : R :=
  match n with
  | O => 0%R
  | S k => (sum_upto k f + f k)%R
  end.

Definition sum_list (l : list R) : R := fold_right Rplus 0%R l.

(** All multi-indices of a shape, in row-major order. *)
Fixpoint all_indices (s : list nat) : list (list nat) :=
  match s with
  | [] => [[]]
  | d :: s' => flat_map (fun i => map (cons i) (all_indices s')) (seq 0 d)
  end.

(** Row-major position of a multi-index, and its inverse. *)
Definition ravel (s idx : list nat) : nat :=
  fold_left (fun acc p => acc * fst p + snd p) (combine s idx) 0.

Fixpoint unravel_rev (rs : list nat) (n : nat) : list nat :=
  match rs with
  | [] => []
  | d :: rs' => (n mod d) :: unravel_rev rs' (n / d)
  end.

Definition unravel (s : list nat) (n : nat) : list nat :=
  rev (unravel_rev (rev s) n).

(** A tensor with the same entry everywhere. *)
Definition full (s : list nat) (v : R) : tensor :=
  {| shape := s; entry := fun _ => v |}.

(* ----------------------------------------------------------------- *)
(** *** Dimension arguments *)

(** A dimension argument [d] against [r] axes: [0 <= d < r] or
    [-r <= d < 0], the latter counting from the end. *)
Definition wrap_dim (r : nat) (d : Z) : result nat :=
  let r' := Z.of_nat r in
  if ((0 <=? d) && (d <? r'))%Z then Ok (Z.to_nat d)
  else if ((- r' <=? d) && (d <? 0))%Z then Ok (Z.to_nat (d + r'))
  else Err IndexError.

(* ----------------------------------------------------------------- *)
(** *** Broadcasting *)

(** Two sizes of one axis are compatible when equal or when one is 1. *)
Definition bdim (a b : nat) : result nat :=
  if a =? b then Ok a
  else if a =? 1 then Ok b
  else if b =? 1 then Ok a
  else Err RuntimeError.

(** Index along an axis of size [d] for position [i] of the broadcast
    result: an axis of size 1 is read at 0. *)
Definition clamp (d i : nat) : nat := if d =? 1 then 0 else i.

(** Shapes are aligned on their last axes; both lists are reversed. *)
Fixpoint broadcast_rev (s1 s2 : list nat) : result (list nat) :=
  match s1, s2 with
  | [], _ => Ok s2
  | _, [] => Ok s1
  | a :: s1', b :: s2' =>
      (d <~ bdim a b ; r <~ broadcast_rev s1' s2' ; Ok (d :: r))%res
  end.

Definition broadcast_shapes (s1 s2 : list nat) : result (list nat) :=
  (r <~ broadcast_rev (rev s1) (rev s2) ; Ok (rev r))%res.

Fixpoint bidx_rev (s idx : list nat) : list nat :=
  match s, idx with
  | d :: s', i :: idx' => clamp d i :: bidx_rev s' idx'
  | _, _ => []
  end.

(** The index into an operand of shape [s] for index [idx] of the
    broadcast result. *)
Definition bidx (s idx : list nat) : list nat :=
  rev (bidx_rev (rev s) (rev idx)).

Definition broadcast2 (f : R -> R -> R) (a b : tensor) : result tensor :=
  (s <~ broadcast_shapes (shape a) (shape b) ;
   Ok {| shape := s;
         entry := fun idx =>
           f (entry a (bidx (shape a) idx)) (entry b (bidx (shape b) idx)) |})%res.

(** [a * b] and [a + b] on tensors. *)
Definition mul : tensor -> tensor -> result tensor := broadcast2 Rmult.
Definition add : tensor -> tensor -> result tensor := broadcast2 Rplus.

(* ----------------------------------------------------------------- *)
(** *** permute, unsqueeze, squeeze, sum *)

Fixpoint index_of (a : nat) (l : list nat) : nat :=
  match l with
  | [] => 0
  | x :: l' => if x =? a then 0 else S (index_of a l')
  end.

(** [ds] lists every axis below [r] exactly once. *)
Definition is_perm (r : nat) (ds : list nat) : bool :=
  (length ds =? r) && forallb (fun a => existsb (Nat.eqb a) ds) (seq 0 r).

(** [t.permute(dims)]: axis [j] of the result is axis [dims[j]] of [t]. *)
Definition permute (t : tensor) (dims : list Z) : result tensor :=
  let r := rank t in
  (ds <~ mapM (wrap_dim r) dims ;
   if is_perm r ds then
     Ok {| shape := map (fun d => nth d (shape t) 0) ds;
           entry := fun idx =>
             entry t (map (fun a => nth (index_of a ds) idx 0) (seq 0 r)) |}
   else Err RuntimeError)%res.

(** [t.unsqueeze(dim)]: a new axis of size 1 at position [dim], which
    ranges over [-(rank+1) .. rank]. *)
Definition unsqueeze (t : tensor) (dim : Z) : result tensor :=
  (p <~ wrap_dim (S (rank t)) dim ;
   Ok {| shape := firstn p (shape t) ++ 1 :: skipn p (shape t);
         entry := fun idx => entry t (firstn p idx ++ skipn (S p) idx) |})%res.

(** [t.squeeze(-1)]: the last axis is dropped when its size is 1. *)
Definition squeeze_last (t : tensor) : result tensor :=
  match rev (shape t) with
  | 1 :: rs => Ok {| shape := rev rs; entry := fun idx => entry t (idx ++ [0]) |}
  | _ => Ok t
  end.

(** [torch.sum(t, dim=dim)]: the axis is summed out. *)
Definition sum (t : tensor) (dim : Z) : result tensor :=
  (p <~ wrap_dim (rank t) dim ;
   Ok {| shape := firstn p (shape t) ++ skipn (S p) (shape t);
         entry := fun idx =>
           sum_upto (nth p (shape t) 0)
                    (fun j => entry t (firstn p idx ++ j :: skipn p idx)) |})%res.

(* ----------------------------------------------------------------- *)
(** *** reshape *)

Definition count_infer (s : list Z) : nat :=
  length (filter (fun d => (d =? -1)%Z) s).

Definition known_size (s : list Z) : nat :=
  fold_right (fun d acc => if (d =? -1)%Z then acc else Z.to_nat d * acc) 1 s.

(** The target shape of a reshape of [n] elements.  At most one size may
    be [-1]; it is inferred, which needs the product of the other sizes to
    be positive and to divide [n]: a tensor without elements cannot be
    reshaped through an inferred size. *)
Definition infer_size (n : nat) (s : list Z) : result (list nat) :=
  if existsb (fun d => (d <? -1)%Z) s then Err RuntimeError
  else
    let newsize := known_size s in
    match count_infer s with
    | 0 => if n =? newsize then Ok (map Z.to_nat s) else Err RuntimeError
    | 1 => if (0 <? newsize) && (n mod newsize =? 0)
           then Ok (map (fun d => if (d =? -1)%Z then n / newsize else Z.to_nat d) s)
           else Err RuntimeError
    | _ => Err RuntimeError
    end.

(** [t.reshape(s)]: same elements in row-major order. *)
Definition reshape (t : tensor) (s : list Z) : result tensor :=
  (s' <~ infer_size (numel (shape t)) s ;
   Ok {| shape := s';
         entry := fun idx => entry t (unravel (shape t) (ravel s' idx)) |})%res.

(* ----------------------------------------------------------------- *)
(** *** einsum, linear, layer normalisation *)

(** [torch.einsum("...ij,ijk -> ...ik", a, b)].  The sizes a letter has in
    the two operands must be equal or 1. *)
Definition einsum_bij_ijk_bik (a b : tensor) : result tensor :=
  match rev (shape a), shape b with
  | j1 :: i1 :: rpre, [i2; j2; k] =>
      (i <~ bdim i1 i2 ;
       j <~ bdim j1 j2 ;
       Ok {| shape := rev rpre ++ [i; k];
             entry := fun idx =>
               match rev idx with
               | kk :: ii :: ridx =>
                   sum_upto j (fun jj =>
                     entry a (rev ridx ++ [clamp i1 ii; clamp j1 jj])
                     * entry b [clamp i2 ii; clamp j2 jj; kk])%R
               | _ => 0%R
               end |})%res
  | _, _ => Err RuntimeError
  end.

(** [torch.einsum("...ij,ij -> ...ij", a, b)]. *)
Definition einsum_bij_ij_bij (a b : tensor) : result tensor :=
  match rev (shape a), shape b with
  | j1 :: i1 :: rpre, [i2; j2] =>
      (i <~ bdim i1 i2 ;
       j <~ bdim j1 j2 ;
       Ok {| shape := rev rpre ++ [i; j];
             entry := fun idx =>
               match rev idx with
               | jj :: ii :: ridx =>
                   (entry a (rev ridx ++ [clamp i1 ii; clamp j1 jj])
                    * entry b [clamp i2 ii; clamp j2 jj])%R
               | _ => 0%R
               end |})%res
  | _, _ => Err RuntimeError
  end.

(** [F.linear(input, weight, bias)]: [input @ weight.T + bias]. *)
Definition linear (input weight : tensor) (bias : option tensor) : result tensor :=
  match shape weight, rev (shape input) with
  | [o; i], i' :: rpre =>
      if (i =? i') &&
         match bias with Some b => shape_eqb (shape b) [o]
                    | None => true end
      then
        Ok {| shape := rev rpre ++ [o];
              entry := fun idx =>
                let pre := removelast idx in
                let oo := last idx 0 in
                (sum_upto i (fun ii => entry input (pre ++ [ii]) * entry weight [oo; ii])
                 + match bias with Some b => entry b [oo] | None => 0 end)%R |}
      else Err RuntimeError
  | _, _ => Err RuntimeError
  end.

Definition mean (l : list R) : R := (sum_list l / INR (length l))%R.

(** [nn.LayerNorm(normalized_shape)] with its elementwise affine
    parameters: each slice over the last [length normalized_shape] axes is
    centred, divided by [sqrt (var + eps)] (biased variance), multiplied by
    [ln_weight] and shifted by [ln_bias]. *)
Definition layer_norm (normalized_shape : list nat) (eps : R)
    (ln_weight ln_bias : tensor) (t : tensor) : result tensor :=
  let n := length normalized_shape in
  let r := rank t in
  if (n <=? r) &&
     shape_eqb (skipn (r - n) (shape t)) normalized_shape
  then
    Ok {| shape := shape t;
          entry := fun idx =>
            let pre := firstn (r - n) idx in
            let tail := skipn (r - n) idx in
            let xs := map (fun j => entry t (pre ++ j)) (all_indices normalized_shape) in
            let mu := mean xs in
            let var := mean (map (fun v => (v - mu) * (v - mu))%R xs) in
            ((entry t idx - mu) / sqrt (var + eps) * entry ln_weight tail
             + entry ln_bias tail)%R |}
  else Err RuntimeError.

(* ================================================================= *)
(** ** The layer *)

(** [self.norm_env_input] and [self.norm_env_output] are either
    [nn.LayerNorm(shape)] or [nn.Identity()]. *)
Inductive norm_module : Type :=
| Identity
| LayerNorm (normalized_shape : list nat) (eps : R) (ln_weight ln_bias : tensor).

Definition apply_norm (n : norm_module) (t : tensor) : result tensor :=
  match n with
  | Identity => Ok t
  | LayerNorm ns eps w b => layer_norm ns eps w b t
  end.

(** The attributes of a [DyNAThetaLinear] instance.  [weight] and [bias]
    are inherited from [nn.Linear]; [bias] is [None] when the layer is
    built with [bias=False]. *)
Record DyNAThetaLinear : Type := mkLayer {
  in_features : nat;
  out_features : nat;
  theta_modes_in : nat;
  theta_modes_out : nat;
  theta_quad_out : nat;
  theta_feautures : nat;
  theta_normalize_env_input : bool;
  theta_normalize_env_output : bool;
  weight : tensor;
  bias : option tensor;
  individual_sensetivity : tensor;
  env_sensetivity : tensor;
  env_bias : tensor;
  norm_env_input : norm_module;
  norm_env_output : norm_module;
  perception : tensor;
  perceptual_bias : tensor;
  emission : tensor;
  emission_scale : tensor;
  emission_bias : tensor
}.

(** The random draws of the initializers, one sampling function per
    parameter. *)
Record draws : Type := mkDraws {
  draw_weight : list nat -> R;
  draw_bias : list nat -> R;
  draw_individual : list nat -> R;
  draw_env_sensetivity : list nat -> R;
  draw_env_bias : list nat -> R;
  draw_perception : list nat -> R;
  draw_perceptual_bias : list nat -> R;
  draw_emission : list nat -> R
}.

Section Initializers.

Variables in_features_ theta_modes_in_ : nat.

(** [bound = self.theta_modes_in / self.in_features] *)
Definition _initializer_env (s : list nat) (d : list nat -> R) : result tensor :=
  if in_features_ =? 0 then Err ZeroDivisionError
  else Ok {| shape := s; entry := d |}.

(** [std = math.sqrt(1 / self.theta_modes_in)] *)
Definition _initializer_perception (s : list nat) (d : list nat -> R) : result tensor :=
  if theta_modes_in_ =? 0 then Err ZeroDivisionError
  else Ok {| shape := s; entry := d |}.

Definition _initializer_individual (s : list nat) (d : list nat -> R) : result tensor :=
  Ok {| shape := s; entry := d |}.

(** [fan] is the fan-in of a tensor of at least two axes: the size of
    axis 1 times the sizes of the axes from 2 on;
    [bound = math.sqrt(3.0 / fan)]. *)
Definition _initializer_emission (s : list nat) (d : list nat -> R) : result tensor :=
  match s with
  | _ :: n_in :: receptive =>
      if n_in * numel receptive =? 0 then Err ZeroDivisionError
      else Ok {| shape := s; entry := d |}
  | _ => Err RuntimeError
  end.

End Initializers.

Definition default_eps : R := (1 / 100000)%R.

(** [nn.LayerNorm(shape)]: weight ones, bias zeros, [eps = 1e-5]. *)
Definition new_LayerNorm (s : list nat) : norm_module :=
  LayerNorm s default_eps (full s 1%R) (full s 0%R).

(** [DyNAThetaLinear.__init__]; [with_bias] is the [bias] keyword that
    [**kwargs] hands to [nn.Linear]. *)
Definition __init__ (in_features out_features theta_modes_in theta_modes_out : nat)
    (theta_full_features theta_normalize_env_input theta_normalize_env_output : bool)
    (with_bias : bool) (d : draws) : result DyNAThetaLinear :=
  let weight := {| shape := [out_features; in_features]; entry := draw_weight d |} in
  let bias := if with_bias
              then Some {| shape := [out_features]; entry := draw_bias d |}
              else None in
  let theta_quad_out := theta_modes_out * 4 in
  let theta_feautures := if theta_full_features then out_features else 1 in
  (individual_sensetivity <~
     _initializer_individual [out_features; in_features; 1] (draw_individual d) ;
   env_sensetivity <~
     _initializer_env in_features [in_features; theta_modes_in] (draw_env_sensetivity d) ;
   env_bias <~
     _initializer_env in_features [in_features; theta_modes_in] (draw_env_bias d) ;
   let norm_env_input :=
     if theta_normalize_env_input
     then new_LayerNorm [in_features; theta_modes_in] else Identity in
   let norm_env_output :=
     if theta_normalize_env_output
     then new_LayerNorm [out_features; theta_modes_in] else Identity in
   perception <~
     _initializer_perception theta_modes_in [in_features; theta_modes_in; 1]
       (draw_perception d) ;
   perceptual_bias <~
     _initializer_perception theta_modes_in [in_features] (draw_perceptual_bias d) ;
   emission <~
     _initializer_emission [theta_feautures; theta_modes_in; theta_quad_out]
       (draw_emission d) ;
   let emission_scale := full [out_features; theta_quad_out] 1%R in
   let emission_bias := full [out_features; theta_quad_out] 0%R in
   Ok (mkLayer in_features out_features theta_modes_in theta_modes_out
         theta_quad_out theta_feautures
         theta_normalize_env_input theta_normalize_env_output
         weight bias individual_sensetivity env_sensetivity env_bias
         norm_env_input norm_env_output perception perceptual_bias
         emission emission_scale emission_bias))%res.

(** What the constructor establishes and an optimizer step keeps: the
    sizes, the shapes of the parameters and the choice of the two
    normalisation modules.  The values of the parameters are free. *)
Definition wf_norm (flag : bool) (s : list nat) (n : norm_module) : Prop :=
  match n with
  | Identity => flag = false
  | LayerNorm ns _ w b => flag = true /\ ns = s /\ shape w = s /\ shape b = s
  end.

Record wf_layer (L : DyNAThetaLinear) : Prop := mkWf {
  wf_in : 0 < in_features L;
  wf_modes_in : 0 < theta_modes_in L;
  wf_modes_out : 0 < theta_modes_out L;
  wf_quad : theta_quad_out L = theta_modes_out L * 4;
  wf_features : theta_feautures L = out_features L \/ theta_feautures L = 1;
  wf_weight : shape (weight L) = [out_features L; in_features L];
  wf_bias : forall b, bias L = Some b -> shape b = [out_features L];
  wf_individual :
    shape (individual_sensetivity L) = [out_features L; in_features L; 1];
  wf_env_sensetivity :
    shape (env_sensetivity L) = [in_features L; theta_modes_in L];
  wf_env_bias : shape (env_bias L) = [in_features L; theta_modes_in L];
  wf_norm_in :
    wf_norm (theta_normalize_env_input L)
            [in_features L; theta_modes_in L] (norm_env_input L);
  wf_norm_out :
    wf_norm (theta_normalize_env_output L)
            [out_features L; theta_modes_in L] (norm_env_output L);
  wf_perception :
    shape (perception L) = [in_features L; theta_modes_in L; 1];
  wf_perceptual_bias : shape (perceptual_bias L) = [in_features L];
  wf_emission :
    shape (emission L) = [theta_feautures L; theta_modes_in L; theta_quad_out L];
  wf_emission_scale :
    shape (emission_scale L) = [out_features L; theta_quad_out L];
  wf_emission_bias :
    shape (emission_bias L) = [out_features L; theta_quad_out L]
}.

(* ================================================================= *)
(** ** The monad of methods *)

(** A method runs against the instance [self]; it returns a result, or
    raises, and the instance as the call leaves it. *)
Definition M (A : Type) : Type :=
  DyNAThetaLinear -> result A * DyNAThetaLinear.

Definition ret {A} (a : A) : M A := fun self => (Ok a, self).

Definition bind {A B} (m : M A) (f : A -> M B) : M B :=
  fun self =>
    match m self with
    | (Ok a, self') => f a self'
    | (Err e, self') => (Err e, self')
    end.

(** A call into the tensor library. *)
Definition lift {A} (r : result A) : M A := fun self => (r, self).

(** Reading [self.f]. *)
Definition attr {A} (f : DyNAThetaLinear -> A) : M A :=
  fun self => (Ok (f self), self).

(** Writing attributes: [self.f = v]. *)
Definition set_attr (upd : DyNAThetaLinear -> DyNAThetaLinear) : M unit :=
  fun self => (Ok tt, upd self).

Declare Scope method_scope.
Delimit Scope method_scope with method.
Notation "x <- m ;; k" := (bind m (fun x => k))
  (at level 61, m at next level, right associativity) : method_scope.

(** The value a method returns from [self]. *)
Definition run {A} (m : M A) (self : DyNAThetaLinear) : result A := fst (m self).

(** The instance after the call. *)
Definition after {A} (m : M A) (self : DyNAThetaLinear) : DyNAThetaLinear :=
  snd (m self).

(* ================================================================= *)
(** ** forward *)

(** Each local variable of [forward] is a definition, in the order of the
    source; a local is computed from the ones before it. *)
Section Forward.

Variables (x components : tensor).

Local Open Scope method_scope.
Local Open Scope Z_scope.

(** [len(components.shape[0:-2])] *)
Definition batch_rank : nat := (rank components - 2)%nat.

Definition extra_dims : list nat := repeat 1%nat batch_rank.

Definition components_per_input : M tensor :=
  t <- lift (permute components
               (map Z.of_nat (seq 0 batch_rank) ++ [-1; -2])) ;;
  lift (unsqueeze t (-3)).

(** The local [individual_sensetivity]: the attribute of that name,
    reshaped, times [components_per_input]. *)
Definition individual_sensetivity_weighted : M tensor :=
  cpi <- components_per_input ;;
  w <- attr individual_sensetivity ;;
  r <- lift (reshape w (map Z.of_nat (repeat 1%nat batch_rank ++ shape w))) ;;
  lift (mul r cpi).

Definition cumulative_env_inputs : M tensor :=
  isw <- individual_sensetivity_weighted ;;
  lift (sum isw (-3)).

Definition env_sensed : M tensor :=
  cei <- cumulative_env_inputs ;;
  w <- attr env_sensetivity ;;
  r <- lift (reshape w (map Z.of_nat (extra_dims ++ shape w))) ;;
  lift (mul cei r).

Definition env_biased : M tensor :=
  es <- env_sensed ;;
  w <- attr env_bias ;;
  r <- lift (reshape w (map Z.of_nat (extra_dims ++ shape w))) ;;
  lift (add es r).

Definition env_normalized : M tensor :=
  eb <- env_biased ;;
  norm <- attr norm_env_input ;;
  lift (apply_norm norm eb).

(** The four assignments to [perceptual_x]. *)
Definition perceptual_x : M tensor :=
  en <- env_normalized ;;
  xu <- lift (unsqueeze x (-1)) ;;
  p <- lift (mul xu en) ;;
  w <- attr perception ;;
  p <- lift (einsum_bij_ijk_bik p w) ;;
  p <- lift (squeeze_last p) ;;
  b <- attr perceptual_bias ;;
  lift (add p b).

(** [super().forward(perceptual_x)] *)
Definition transformed_x : M tensor :=
  px <- perceptual_x ;;
  w <- attr weight ;;
  b <- attr bias ;;
  lift (linear px w b).

Definition cumulative_env_outputs : M tensor :=
  isw <- individual_sensetivity_weighted ;;
  lift (sum isw (-2)).

(** [modulated_env] before the output normalisation. *)
Definition modulated_env_gated : M tensor :=
  tx <- transformed_x ;;
  ceo <- cumulative_env_outputs ;;
  txu <- lift (unsqueeze tx (-1)) ;;
  lift (mul ceo txu).

Definition modulated_env : M tensor :=
  me <- modulated_env_gated ;;
  norm <- attr norm_env_output ;;
  lift (apply_norm norm me).

Definition emission_raw : M tensor :=
  me <- modulated_env ;;
  w <- attr emission ;;
  lift (einsum_bij_ijk_bik me w).

Definition emission_scaled : M tensor :=
  er <- emission_raw ;;
  w <- attr emission_scale ;;
  lift (einsum_bij_ij_bij er w).

Definition emission_biased : M tensor :=
  es <- emission_scaled ;;
  w <- attr emission_bias ;;
  r <- lift (reshape w (map Z.of_nat
               (repeat 1%nat (rank es - 2) ++ shape w))) ;;
  lift (add es r).

(** The reshape splits the last axis into [theta_modes_out] groups; the
    permutation puts the features last. *)
Definition param_quads : M tensor :=
  eb <- emission_biased ;;
  n <- attr theta_modes_out ;;
  p <- lift (reshape eb
               (map Z.of_nat (removelast (shape eb)) ++ [Z.of_nat n; -1])) ;;
  lift (permute p (map Z.of_nat (seq 0 (rank p - 3)) ++ [-2; -1; -3])).

Definition forward : M (tensor * tensor) :=
  tx <- transformed_x ;;
  pq <- param_quads ;;
  ret (tx, pq).

End Forward.

(** The entry of a computed tensor, when the computation succeeds. *)
Definition rentry (r : result tensor) (idx : list nat) : result R :=
  (t <~ r ; Ok (entry t idx))%res.

Definition rshape (r : result tensor) : result (list nat) :=
  (t <~ r ; Ok (shape t))%res.

(** The shapes of the pair [forward] returns. *)
Definition rshapes (r : result (tensor * tensor)) : result (list nat * list nat) :=
  (p <~ r ; Ok (shape (fst p), shape (snd p)))%res.

(** An entry of the [param_quads] that [forward] returns. *)
Definition param_quads_entry (r : result (tensor * tensor)) (idx : list nat) : result R :=
  (p <~ r ; Ok (entry (snd p) idx))%res.

(** The bias of the affine map at output [o]; nothing is added when the
    layer has no bias. *)
Definition bias_term (bias : option tensor) (o : nat) : R :=
  match bias with Some b => entry b [o] | None => 0%R end.

(** [m] returns [a] from [self] and leaves [self] as it was. *)
Definition returns {A} (m : M A) (self : DyNAThetaLinear) (a : A) : Prop :=
  m self = (Ok a, self).

(** A method that never writes to [self]. *)
Definition read_only {A} (m : M A) : Prop :=
  forall self, after m self = self.

(** All entries of [t] are zero. *)
Definition all_zero (t : tensor) : Prop :=
  forall idx, valid_index (shape t) idx -> entry t idx = 0%R.

(** The layer with other emission parameters. *)
Definition with_emission (L : DyNAThetaLinear) (e s b : tensor) : DyNAThetaLinear :=
  mkLayer (in_features L) (out_features L) (theta_modes_in L) (theta_modes_out L)
    (theta_quad_out L) (theta_feautures L)
    (theta_normalize_env_input L) (theta_normalize_env_output L)
    (weight L) (bias L) (individual_sensetivity L) (env_sensetivity L)
    (env_bias L) (norm_env_input L) (norm_env_output L) (perception L)
    (perceptual_bias L) e s b.

(** A method whose result does not depend on the emission parameters. *)
Definition emission_blind {A} (m : M A) : Prop :=
  forall L e s b,
    run m (with_emission L e s b) = run m L /\
    after m (with_emission L e s b) = with_emission (after m L) e s b.

(** What a normalisation module makes of a tensor of zeros, at position
    [[o; m]] of a slice: [nn.Identity] leaves 0, [nn.LayerNorm] leaves
    its bias. *)
Definition norm_of_zero (n : norm_module) (o m : nat) : R :=
  match n with
  | Identity => 0%R
  | LayerNorm _ _ _ lb => entry lb [o; m]
  end.

(** The layer with another output normalisation module. *)
Definition with_norm_env_output (L : DyNAThetaLinear) (n : norm_module) : DyNAThetaLinear :=
  mkLayer (in_features L) (out_features L) (theta_modes_in L) (theta_modes_out L)
    (theta_quad_out L) (theta_feautures L)
    (theta_normalize_env_input L) (theta_normalize_env_output L)
    (weight L) (bias L) (individual_sensetivity L) (env_sensetivity L)
    (env_bias L) (norm_env_input L) n (perception L)
    (perceptual_bias L) (emission L) (emission_scale L) (emission_bias L).

(* ================================================================= *)
(** ** The pipeline without the normalisation steps *)

(** Steps 1 to 10 of the specification with the normalisations of steps 4
    and 8 left out: the perceptual signal is computed from [env_biased]
    and the emission from the gated environment
    [cumulative_env_outputs * transformed_x]. *)
Module NoNorm.
Section Forward.

Variables (x components : tensor).

Local Open Scope method_scope.
Local Open Scope Z_scope.

Definition perceptual_x : M tensor :=
  eb <- env_biased components ;;
  xu <- lift (unsqueeze x (-1)) ;;
  p <- lift (mul xu eb) ;;
  w <- attr perception ;;
  p <- lift (einsum_bij_ijk_bik p w) ;;
  p <- lift (squeeze_last p) ;;
  b <- attr perceptual_bias ;;
  lift (add p b).

Definition transformed_x : M tensor :=
  px <- perceptual_x ;;
  w <- attr weight ;;
  b <- attr bias ;;
  lift (linear px w b).

Definition modulated_env : M tensor :=
  tx <- transformed_x ;;
  ceo <- cumulative_env_outputs components ;;
  txu <- lift (unsqueeze tx (-1)) ;;
  lift (mul ceo txu).

Definition emission_raw : M tensor :=
  me <- modulated_env ;;
  w <- attr emission ;;
  lift (einsum_bij_ijk_bik me w).

Definition emission_scaled : M tensor :=
  er <- emission_raw ;;
  w <- attr emission_scale ;;
  lift (einsum_bij_ij_bij er w).

Definition emission_biased : M tensor :=
  es <- emission_scaled ;;
  w <- attr emission_bias ;;
  r <- lift (reshape w (map Z.of_nat
               (repeat 1%nat (rank es - 2) ++ shape w))) ;;
  lift (add es r).

Definition param_quads : M tensor :=
  eb <- emission_biased ;;
  n <- attr theta_modes_out ;;
  p <- lift (reshape eb
               (map Z.of_nat (removelast (shape eb)) ++ [Z.of_nat n; -1])) ;;
  lift (permute p (map Z.of_nat (seq 0 (rank p - 3)) ++ [-2; -1; -3])).

Definition forward : M (tensor * tensor) :=
  tx <- transformed_x ;;
  pq <- param_quads ;;
  ret (tx, pq).

End Forward.
End NoNorm.

(* ================================================================= *)
(** ** Concrete layers and inputs *)

(** The layer [__init__] builds from the given sizes, flags and draws. *)
Definition demo (I O Mi No : nat) (theta_full_features nin nout : bool) (d : draws) : DyNAThetaLinear :=
  mkLayer I O Mi No (No * 4) (if theta_full_features then O else 1) nin nout
    {| shape := [O; I]; entry := draw_weight d |}
    (Some {| shape := [O]; entry := draw_bias d |})
    {| shape := [O; I; 1]; entry := draw_individual d |}
    {| shape := [I; Mi]; entry := draw_env_sensetivity d |}
    {| shape := [I; Mi]; entry := draw_env_bias d |}
    (if nin then new_LayerNorm [I; Mi] else Identity)
    (if nout then new_LayerNorm [O; Mi] else Identity)
    {| shape := [I; Mi; 1]; entry := draw_perception d |}
    {| shape := [I]; entry := draw_perceptual_bias d |}
    {| shape := [if theta_full_features then O else 1; Mi; No * 4]; entry := draw_emission d |}
    (full [O; No * 4] 1%R)
    (full [O; No * 4] 0%R).

(** Every draw is 1. *)
Definition ones : draws :=
  mkDraws (fun _ => 1%R) (fun _ => 1%R) (fun _ => 1%R) (fun _ => 1%R)
          (fun _ => 1%R) (fun _ => 1%R) (fun _ => 1%R) (fun _ => 1%R).

(** Every draw is 1, [individual_sensetivity] is 0. *)
Definition ones_insensitive : draws :=
  mkDraws (fun _ => 1%R) (fun _ => 1%R) (fun _ => 0%R) (fun _ => 1%R)
          (fun _ => 1%R) (fun _ => 1%R) (fun _ => 1%R) (fun _ => 1%R).

(** Every draw is 1, the sensitivity of output neuron [o] is [o + 1]. *)
Definition ones_graded : draws :=
  mkDraws (fun _ => 1%R) (fun _ => 1%R) (fun idx => INR (S (hd 0 idx)))
          (fun _ => 1%R) (fun _ => 1%R) (fun _ => 1%R) (fun _ => 1%R)
          (fun _ => 1%R).

(** A layer with no individual sensitivity and no normalisation. *)
Definition demo_insensitive : DyNAThetaLinear :=
  demo 4 3 2 2 true false false ones_insensitive.

(** A layer with no individual sensitivity whose output normalisation has
    been trained to a bias of 1. *)
Definition demo_insensitive_normed : DyNAThetaLinear :=
  with_norm_env_output (demo 4 3 2 2 true false true ones_insensitive)
    (LayerNorm [3; 2] default_eps (full [3; 2] 1%R) (full [3; 2] 1%R)).

(** Two output neurons of sensitivities 1 and 2 sharing their emission
    weights, and the same layer with the emission weights set to 0. *)
Definition demo_graded : DyNAThetaLinear :=
  demo 1 2 1 1 false false false ones_graded.

Definition demo_graded_perturbed : DyNAThetaLinear :=
  with_emission demo_graded (full [1; 1; 4] 0%R)
    (emission_scale demo_graded) (emission_bias demo_graded).

Definition unit_x : tensor := full [1; 1] 1%R.
Definition unit_components : tensor := full [1; 1; 1] 1%R.

(** The scenario of the specification: [I = 4], [O = 3], [M = 2], a batch
    of 2. *)
Definition demo_x : tensor := full [2; 4] 1%R.
Definition demo_components : tensor := full [2; 2; 4] 1%R.

(** A signal and components that are those of [demo_x] and
    [demo_components] at batch index 0 and differ from them at batch
    index 1. *)
Definition demo_x_other : tensor :=
  {| shape := [2; 4]; entry := fun idx => INR (S (hd 0 idx)) |}.

Definition demo_components_other : tensor :=
  {| shape := [2; 2; 4]; entry := fun idx => INR (S (hd 0 idx)) |}.

(** A method whose result does not depend on the output normalisation
    module. *)
Definition norm_output_blind {A} (m : M A) : Prop :=
  forall L n,
    run m (with_norm_env_output L n) = run m L /\
    after m (with_norm_env_output L n) = with_norm_env_output (after m L) n.

(** The sum of the sensitivities of all output neurons to input neuron
    [i]. *)
Definition sensitivity_column_sum (L : DyNAThetaLinear) (i : nat) : R :=
  sum_upto (out_features L) (fun o => entry (individual_sensetivity L) [o; i; 0]).

(* ================================================================= *)
(** ** The weight utilities of [experiments/aedw/train_decoder.py]

    The training script keeps its model in a [DecoderOnlyModel] and edits
    the weights between optimizer steps with a family of functions that
    loop over [model.named_parameters()].  A parameter is modelled by its
    tensor of values and its [requires_grad] flag, the model by the list
    of its named parameters in registration order.  The functions mutate
    the parameters in place and print; here they return the parameters as
    they leave them, together with the lines printed. *)

Module TrainDecoder.

Local Open Scope R_scope.
Local Open Scope string_scope.

Record parameter : Type := mkParameter {
  data : tensor;
  requires_grad : bool
}.

Definition named_parameters : Type := list (String.string * parameter).

Definition set_data (param : parameter) (t : tensor) : parameter :=
  {| data := t; requires_grad := requires_grad param |}.

Definition set_requires_grad (param : parameter) (flag : bool) : parameter :=
  {| data := data param; requires_grad := flag |}.

(** Python's [s.startswith(sub)] and [sub in s] on strings. *)
Fixpoint startswith (sub s : String.string) : bool :=
  match sub, s with
  | String.EmptyString, _ => true
  | String.String a sub', String.String b s' => Ascii.eqb a b && startswith sub' s'
  | String.String _ _, String.EmptyString => false
  end.

Fixpoint contains (sub s : String.string) : bool :=
  startswith sub s ||
  match s with
  | String.EmptyString => false
  | String.String _ s' => contains sub s'
  end.

(** Comparison of scalars as a boolean. *)
Definition ltb (a b : R) : bool := if Rlt_dec a b then true else false.

(** An elementwise operation. *)
Definition map_entries (f : R -> R) (t : tensor) : tensor :=
  {| shape := shape t; entry := fun idx => f (entry t idx) |}.

(** The elements of a tensor, in row-major order. *)
Definition entries (t : tensor) : list R := map (entry t) (all_indices (shape t)).

(** [t.sum()]. *)
Definition sum_entries (t : tensor) : R := sum_list (entries t).

(** [t.abs().max()]; the reduction raises on a tensor without elements. *)
Definition abs_max (t : tensor) : result R :=
  match entries t with
  | [] => Err RuntimeError
  | v :: l => Ok (fold_left Rmax (map Rabs l) (Rabs v))
  end.

(** [v.clamp(lo, hi)]; where [lo > hi] the result is [hi]. *)
Definition tclamp (lo hi v : R) : R := Rmin (Rmax v lo) hi.

(** [v // 1.0]. *)
Definition floor (v : R) : R := IZR (Zfloor (v / 1)).

(** The lines printed by a call. *)
Definition output : Type := list String.string.

(** [for name, param in model.named_parameters(): body], for a body that
    does not raise: the body gives the parameter as it leaves it and the
    lines it prints. *)
Fixpoint for_each (body : String.string -> parameter -> parameter * output)
  (model : named_parameters) : named_parameters * output :=
  match model with
  | [] => ([], [])
  | (name, param) :: rest =>
      let (param', lines) := body name param in
      let (rest', lines') := for_each body rest in
      ((name, param') :: rest', lines ++ lines')
  end.

(** The same loop for a body that may raise: the loop stops at the first
    exception, and the parameters changed so far stay changed. *)
Fixpoint for_each_raising (body : String.string -> parameter -> result (parameter * output))
  (model : named_parameters) : result unit * named_parameters * output :=
  match model with
  | [] => (Ok tt, [], [])
  | (name, param) :: rest =>
      match body name param with
      | Err e => (Err e, model, [])
      | Ok (param', lines) =>
          let '(r, rest', lines') := for_each_raising body rest in
          (r, (name, param') :: rest', lines ++ lines')
      end
  end.

(* ----------------------------------------------------------------- *)
(** *** The regularisation terms *)

Definition get_regularization_term_model (model : named_parameters) (alpha : R) : R :=
  let sum :=
    fold_left (fun sum (np : String.string * parameter) =>
                 let (name, param) := np in
                 if contains "data_cache" name then sum
                 else sum + sum_entries (map_entries (fun v => v ^ 2) (data param)))
              model 0 in
  alpha * sum.

Definition get_regularization_term_low_weights_model_alpha
  (model : named_parameters) (bound alpha : R) : R :=
  let sum :=
    fold_left (fun sum (np : String.string * parameter) =>
                 let (name, param) := np in
                 if contains "data_cache" name
                    || contains "weights_lib.mod_i" name
                    || contains "weights_lib.mod_j" name
                 then sum
                 else
                   let vars :=
                     map_entries (fun v => Rabs (tclamp 0 bound (Rabs v) - bound))
                                 (data param) in
                   sum + sum_entries vars)
              model 0 in
  alpha * sum.

(** [1.0 / bound] is Python arithmetic: it raises on [bound = 0.0], in the
    first parameter the loop does not skip. *)
Definition get_regularization_term_low_weights_model_beta
  (model : named_parameters) (bound alpha : R) : result R :=
  (sum <~
     fold_left (fun (acc : result R) (np : String.string * parameter) =>
                  let (name, param) := np in
                  sum <~ acc ;
                  if contains "data_cache" name
                     || contains "weights_lib.mod_i" name
                     || contains "weights_lib.mod_j" name
                  then Ok sum
                  else
                    let vars :=
                      map_entries (fun v => Rabs (tclamp 0 bound (Rabs v) - bound))
                                  (data param) in
                    if Req_dec_T bound 0 then Err ZeroDivisionError
                    else
                      let varsum :=
                        map_entries (fun v => sqrt (v * (1 / bound))) vars in
                      let positive := filter (ltb 0) (entries varsum) in
                      let varsum :=
                        map_entries (fun v => v / (INR (length positive) + 1)) varsum in
                      let varsum := sum_entries varsum in
                      Ok (sum + varsum))
               model (Ok 0) ;
   Ok (alpha * sum))%res.

(* ----------------------------------------------------------------- *)
(** *** The hysteresis loop around zero *)

(** One element of [param] through the two masked assignments.  Both masks
    are computed before the first assignment; the second assignment reads
    the element as the first one left it.  The guards [if cond.any()] skip
    an assignment only when its mask selects nothing. *)
Definition hysteresis_element (bound jump v : R) : R :=
  let cond_to_neg := ltb (- 0) v && ltb v bound in
  let cond_to_pos := ltb v 0 && ltb (- bound) v in
  let v1 := if cond_to_neg then v - jump else v in
  if cond_to_pos then v1 + jump else v1.

Definition weights_hysteresis_loop_zero (model : named_parameters) (bound jump : R)
  : named_parameters :=
  fst (for_each (fun name param =>
                   if contains "data_cache" name then (param, [])
                   else (set_data param
                           (map_entries (hysteresis_element bound jump) (data param)),
                         []))
                model).

(* ----------------------------------------------------------------- *)
(** *** Freezing and unfreezing *)

Definition freeze_model (model : named_parameters) : named_parameters * output :=
  for_each (fun name param =>
              if contains "data_cache" name then (param, [])
              else (set_requires_grad param false, [String.append "freeze_model: " name]))
           model.

Definition unfreeze_model (model : named_parameters) : named_parameters * output :=
  for_each (fun name param =>
              if contains "data_cache" name then (param, [])
              else (set_requires_grad param true, [String.append "unfreeze_model: " name]))
           model.

Definition freeze_latents (model : named_parameters) : named_parameters * output :=
  for_each (fun name param =>
              if contains "data_cache_latents" name
              then (set_requires_grad param false, [String.append "freeze_latents: " name])
              else (param, []))
           model.

Definition unfreeze_latents (model : named_parameters) : named_parameters * output :=
  for_each (fun name param =>
              if contains "data_cache_latents" name
              then (set_requires_grad param true, [String.append "unfreeze_latents: " name])
              else (param, []))
           model.

Definition freeze_ctx (model : named_parameters) : named_parameters * output :=
  for_each (fun name param =>
              if contains "data_cache_ctx" name
              then (set_requires_grad param false, [String.append "freeze_ctx: " name])
              else (param, []))
           model.

Definition unfreeze_ctx (model : named_parameters) : named_parameters * output :=
  for_each (fun name param =>
              if contains "data_cache_ctx" name
              then (set_requires_grad param true, [String.append "unfreeze_ctx: " name])
              else (param, []))
           model.

(* ----------------------------------------------------------------- *)
(** *** Quantizing and downscaling the weights *)

(** One element of [param.data] through [quantize_weights], given the
    largest magnitude [d_max] of the parameter. *)
Definition quantize_element (d_max v : R) : R :=
  let levels := 2 ^ 8 in
  let offset := 1 / (levels * 2) in
  let scale := 15 / 10 in
  let sign := if ltb 0 v then 1 else - 1 in
  let d_s := floor (v / d_max * (levels - 1)) in
  (d_s / levels + offset) * sign * scale.

(** In floating point an all-zero parameter gives [d_max = 0] and
    not-a-number everywhere; the statements about [quantize_weights] are
    for parameters with a non-zero element. *)
Definition quantize_weights (model : named_parameters)
  : result unit * named_parameters * output :=
  for_each_raising
    (fun name param =>
       if contains "data_cache" name then Ok (param, [])
       else
         (d_max <~ abs_max (data param) ;
          Ok (set_data param (map_entries (quantize_element d_max) (data param)),
              [String.append "quantize_weights: "
                 (String.append name "; levels=256; offset=0.001953125; scale=1.5")]))%res)
    model.

(** With a negative [lim] an all-zero parameter is divided by its maximum
    0, which gives not-a-number in floating point; the statements about
    [downscale_weights] are for [lim >= 0]. *)
Definition downscale_weights (model : named_parameters) (lim : R)
  : result unit * named_parameters * output :=
  for_each_raising
    (fun name param =>
       (pmax <~ abs_max (data param) ;
        if ltb lim pmax
        then Ok (set_data param (map_entries (fun v => v / pmax) (data param)),
                 [String.append "weights_clamp: " name])
        else Ok (param, []))%res)
    model.

(* ----------------------------------------------------------------- *)
(** *** The methods of [DecoderOnlyModel] on activations *)

(** The hyperparameters the methods below read from [self]. *)
Record DecoderOnlyModel : Type := mkDecoder {
  eps : R;
  q_levels : Z;
  q_scale : R
}.

(** The values [DecoderOnlyModel.__init__] gives them. *)
Definition new_DecoderOnlyModel : DecoderOnlyModel :=
  {| eps := 1 / 1000; q_levels := 16; q_scale := exp 1 |}.

Definition quantizer (self : DecoderOnlyModel) (x : tensor) : tensor :=
  let l := IZR (q_levels self) in
  let s := q_scale self in
  let shift := 1 / (l * 2) in
  map_entries (fun v =>
                 let x_q := v / s in
                 let x_q := tclamp (- l) l (x_q * l) in
                 let x_q := floor x_q in
                 let x_q := x_q / l + shift in
                 let x_q := x_q * s in
                 v + (x_q - v)) x.

Inductive exception : Type :=
| AssertionError
| TorchError (e : error).

Inductive outcome (A : Type) : Type :=
| Returns (a : A)
| Raises (e : exception).

Arguments Returns {A} a.
Arguments Raises {A} e.

(** The elements of sample [i] of a batch, as [x.flatten(1)[i]]. *)
Definition sample (x : tensor) (i : nat) : list R :=
  map (fun j => entry x (i :: j)) (all_indices (tl (shape x))).

Definition list_min (l : list R) : R :=
  match l with
  | [] => 0
  | v :: l' => fold_left Rmin l' v
  end.

Definition list_max (l : list R) : R :=
  match l with
  | [] => 0
  | v :: l' => fold_left Rmax l' v
  end.

(** [flatten(1)] needs two axes, and [min(1)] and [max(1)] raise when the
    flattened axis has size 0. *)
Definition rescale (self : DecoderOnlyModel) (x : tensor) (min max : R) : outcome tensor :=
  if negb (ltb min max) then Raises AssertionError
  else
    let scaling_range := max - min in
    match shape x with
    | _ :: _ :: _ =>
        if (numel (tl (shape x)) =? 0)%nat then Raises (TorchError IndexError)
        else
          Returns
            {| shape := shape x;
               entry := fun idx =>
                 let x_min := list_min (sample x (hd 0%nat idx)) in
                 let x_max := list_max (sample x (hd 0%nat idx)) in
                 (entry x idx - x_min + eps self) / (x_max - x_min + eps self * 2)
                 * scaling_range + min |}
    | _ => Raises (TorchError IndexError)
    end.

(* ----------------------------------------------------------------- *)
(** *** A small model *)

(** The tensor with one axis that holds the given values. *)
Definition of_list (l : list R) : tensor :=
  {| shape := [length l]; entry := fun idx => nth (hd 0%nat idx) l 0 |}.

Definition demo_weight : parameter :=
  mkParameter (of_list [1 / 2000; - (1 / 2000); 3; - 2]) true.

Definition demo_bias : parameter :=
  mkParameter (of_list [1 / 2; - (1 / 4)]) true.

(** A weight, a bias and the two caches of [DecoderOnlyModel]. *)
Definition demo_model : named_parameters :=
  [ ("conv.weight", demo_weight);
    ("conv.bias", demo_bias);
    ("data_cache_ctx", mkParameter (of_list [1 / 2000; 5]) true);
    ("data_cache_latents", mkParameter (of_list [0; 1 / 3000]) false) ].

(** A parameter without elements. *)
Definition demo_empty : parameter := mkParameter (of_list []) true.

(** [demo_weight] after the hysteresis loop of the training script. *)
Definition demo_weight_moved : parameter :=
  set_data demo_weight
    (map_entries (hysteresis_element (1 / 1000) (2 / 1000)) (data demo_weight)).

End TrainDecoder.

(* ================================================================= *)
(** ** Lists, indices and dimension arguments *)

Lemma wrap_dim_nat (r k : nat) :
  k < r -> wrap_dim r (Z.of_nat k) = Ok k.
Proof.
  intros H. unfold wrap_dim.
  replace ((0 <=? Z.of_nat k)%Z && (Z.of_nat k <? Z.of_nat r)%Z) with true.
  - now rewrite Nat2Z.id.
  - symmetry. apply andb_true_iff. split.
    + apply Z.leb_le. lia.
    + apply Z.ltb_lt. lia.
Qed.

Lemma wrap_dim_neg (r : nat) (d : Z) :
  (- Z.of_nat r <= d < 0)%Z ->
  wrap_dim r d = Ok (Z.to_nat (d + Z.of_nat r)).
Proof.
  intros H. unfold wrap_dim.
  replace ((0 <=? d)%Z && (d <? Z.of_nat r)%Z) with false.
  - replace ((- Z.of_nat r <=? d)%Z && (d <? 0)%Z) with true; [reflexivity|].
    symmetry. apply andb_true_iff. split.
    + apply Z.leb_le. lia.
    + apply Z.ltb_lt. lia.
  - symmetry. apply andb_false_iff. left. apply Z.leb_gt. lia.
Qed.

(** [wrap_dim] at the negative literals of [forward]. *)
Lemma wrap_dim_back (r j : nat) :
  0 < j -> j <= r -> wrap_dim r (- Z.of_nat j) = Ok (r - j).
Proof.
  intros H0 H1. rewrite wrap_dim_neg by lia. f_equal. lia.
Qed.

Lemma mapM_app {A B} (f : A -> result B) (l1 l2 : list A) :
  mapM f (l1 ++ l2) =
  (a <~ mapM f l1 ; b <~ mapM f l2 ; Ok (a ++ b))%res.
Proof.
  induction l1 as [|a l1 IH]; simpl.
  - destruct (mapM f l2); reflexivity.
  - destruct (f a); simpl; [|reflexivity].
    rewrite IH. destruct (mapM f l1); simpl; [|reflexivity].
    destruct (mapM f l2); reflexivity.
Qed.

Lemma mapM_wrap_seq (r s k : nat) :
  s + k <= r ->
  mapM (wrap_dim r) (map Z.of_nat (seq s k)) = Ok (seq s k).
Proof.
  revert s. induction k as [|k IH]; intros s H; simpl; [reflexivity|].
  rewrite wrap_dim_nat by lia. simpl.
  rewrite IH by lia. reflexivity.
Qed.

Lemma seq_plus (k p : nat) : seq k p = map (Nat.add k) (seq 0 p).
Proof.
  revert k. induction p as [|p IH]; intros k; [reflexivity|].
  rewrite !seq_S, map_app, IH. simpl. reflexivity.
Qed.

Lemma map_nth_seq (B l : list nat) :
  map (fun d => nth d (B ++ l) 0) (seq 0 (length B)) = B.
Proof.
  revert l. induction B as [|b B IH] using rev_ind; intros l; [reflexivity|].
  rewrite length_app. simpl. rewrite Nat.add_1_r, seq_S, map_app. simpl.
  f_equal.
  - rewrite <- (IH ([b] ++ l)) at 2. apply map_ext_in. intros a Ha.
    rewrite <- !app_assoc. reflexivity.
  - rewrite <- app_assoc. rewrite app_nth2 by lia.
    rewrite Nat.sub_diag. reflexivity.
Qed.

Lemma index_of_seq (a s k : nat) (tl : list nat) :
  s <= a < s + k -> index_of a (seq s k ++ tl) = a - s.
Proof.
  revert s. induction k as [|k IH]; intros s H; [lia|].
  simpl. destruct (Nat.eqb_spec s a) as [->|Hne].
  - lia.
  - rewrite IH by lia. lia.
Qed.

Lemma index_of_skip_seq (a s k : nat) (tl : list nat) :
  s + k <= a -> index_of a (seq s k ++ tl) = k + index_of a tl.
Proof.
  revert s. induction k as [|k IH]; intros s H; [reflexivity|].
  simpl. destruct (Nat.eqb_spec s a) as [->|Hne]; [lia|].
  rewrite IH by lia. reflexivity.
Qed.

Lemma index_of_shift (k a : nat) (l : list nat) :
  index_of (k + a) (map (Nat.add k) l) = index_of a l.
Proof.
  induction l as [|b l IH]; [reflexivity|]. simpl.
  destruct (Nat.eqb_spec b a) as [->|Hne].
  - now rewrite Nat.eqb_refl.
  - destruct (Nat.eqb_spec (k + b) (k + a)); [lia|]. now rewrite IH.
Qed.

Lemma existsb_shift (k a : nat) (l : list nat) :
  existsb (Nat.eqb (k + a)) (map (Nat.add k) l) = existsb (Nat.eqb a) l.
Proof.
  induction l as [|b l IH]; [reflexivity|]. simpl. rewrite IH. f_equal.
  destruct (Nat.eqb_spec a b), (Nat.eqb_spec (k + a) (k + b)); try reflexivity; lia.
Qed.

Lemma is_perm_tail (k p : nat) (sigma : list nat) :
  is_perm p sigma = true ->
  is_perm (k + p) (seq 0 k ++ map (Nat.add k) sigma) = true.
Proof.
  unfold is_perm. intros H. apply andb_true_iff in H. destruct H as [Hl Hf].
  apply Nat.eqb_eq in Hl. apply andb_true_iff. split.
  - apply Nat.eqb_eq. rewrite length_app, length_seq, length_map. lia.
  - rewrite forallb_forall in *. intros a Ha. apply in_seq in Ha.
    rewrite existsb_app. apply orb_true_iff.
    destruct (Nat.lt_ge_cases a k) as [Hlt|Hge].
    + left. apply existsb_exists. exists a. split.
      * apply in_seq. lia.
      * apply Nat.eqb_refl.
    + right. replace a with (k + (a - k)) by lia.
      rewrite existsb_shift. apply Hf. apply in_seq. lia.
Qed.

(* ================================================================= *)
(** ** permute *)

(** A permutation that keeps the batch axes and permutes the trailing
    axes by [sigma]. *)
Lemma permute_tail (t : tensor) (B S : list nat) (dims : list Z) (sigma : list nat) :
  shape t = B ++ S ->
  mapM (wrap_dim (length B + length S)) dims = Ok (map (Nat.add (length B)) sigma) ->
  is_perm (length S) sigma = true ->
  exists t',
    permute t (map Z.of_nat (seq 0 (length B)) ++ dims) = Ok t' /\
    shape t' = B ++ map (fun d => nth d S 0) sigma /\
    forall bi si, length bi = length B -> length si = length S ->
      entry t' (bi ++ si) =
      entry t (bi ++ map (fun a => nth (index_of a sigma) si 0) (seq 0 (length S))).
Proof.
  intros Hs Hd Hp. unfold permute, rank. rewrite Hs, length_app.
  rewrite mapM_app, mapM_wrap_seq by lia. simpl. rewrite Hd. simpl.
  rewrite is_perm_tail by assumption.
  eexists. split; [reflexivity|]. simpl. split.
  - rewrite map_app, map_nth_seq. f_equal.
    rewrite map_map. apply map_ext. intros a.
    rewrite app_nth2 by lia. f_equal. lia.
  - intros bi si Hbi Hsi. f_equal.
    rewrite seq_app, map_app. simpl. f_equal.
    + etransitivity; [|apply (map_nth_seq bi si)]. rewrite Hbi.
      apply map_ext_in. intros a Ha. apply in_seq in Ha.
      rewrite index_of_seq by lia. f_equal. lia.
    + rewrite (seq_plus (length B)), map_map. apply map_ext. intros a.
      rewrite index_of_skip_seq by lia. rewrite index_of_shift.
      rewrite app_nth2 by lia. f_equal. lia.
Qed.

Lemma wrap_dim_m1 (r : nat) : 1 <= r -> wrap_dim r (-1) = Ok (r - 1).
Proof. intros H. apply (@wrap_dim_back r 1); lia. Qed.

Lemma wrap_dim_m2 (r : nat) : 2 <= r -> wrap_dim r (-2) = Ok (r - 2).
Proof. intros H. apply (@wrap_dim_back r 2); lia. Qed.

Lemma wrap_dim_m3 (r : nat) : 3 <= r -> wrap_dim r (-3) = Ok (r - 3).
Proof. intros H. apply (@wrap_dim_back r 3); lia. Qed.

(** [permute([*range(k), -1, -2])] swaps the last two axes. *)
Lemma permute_swap_last (t : tensor) (B : list nat) (a b : nat) :
  shape t = B ++ [a; b] ->
  exists t',
    permute t (map Z.of_nat (seq 0 (length B)) ++ [-1; -2]%Z) = Ok t' /\
    shape t' = B ++ [b; a] /\
    forall bi j i, length bi = length B ->
      entry t' (bi ++ [j; i]) = entry t (bi ++ [i; j]).
Proof.
  intros Hs.
  destruct (@permute_tail t B [a; b] [-1; -2]%Z [1; 0] Hs) as (t' & Hp & Hsh & He).
  - cbn [mapM length]. rewrite wrap_dim_m1, wrap_dim_m2 by lia.
    simpl. repeat first [lia | f_equal].
  - reflexivity.
  - exists t'. split; [exact Hp|]. split; [exact Hsh|].
    intros bi j i Hbi. rewrite He by (auto; reflexivity). reflexivity.
Qed.

(** [permute([*range(k), -2, -1, -3])] moves the third axis from the end
    to the last place. *)
Lemma permute_features_last (t : tensor) (B : list nat) (a b c : nat) :
  shape t = B ++ [a; b; c] ->
  exists t',
    permute t (map Z.of_nat (seq 0 (length B)) ++ [-2; -1; -3]%Z) = Ok t' /\
    shape t' = B ++ [b; c; a] /\
    forall bi j k i, length bi = length B ->
      entry t' (bi ++ [j; k; i]) = entry t (bi ++ [i; j; k]).
Proof.
  intros Hs.
  destruct (@permute_tail t B [a; b; c] [-2; -1; -3]%Z [1; 2; 0] Hs)
    as (t' & Hp & Hsh & He).
  - cbn [mapM length]. rewrite wrap_dim_m1, wrap_dim_m2, wrap_dim_m3 by lia.
    simpl. repeat first [lia | f_equal].
  - reflexivity.
  - exists t'. split; [exact Hp|]. split; [exact Hsh|].
    intros bi j k i Hbi. rewrite He by (auto; reflexivity). reflexivity.
Qed.

(* ================================================================= *)
(** ** unsqueeze, squeeze, sum *)

Lemma sum_upto_ext (n : nat) (f g : nat -> R) :
  (forall j, j < n -> f j = g j) -> sum_upto n f = sum_upto n g.
Proof.
  induction n as [|n IH]; intros H; [reflexivity|]. simpl.
  rewrite IH by (intros; apply H; lia). rewrite H by lia. reflexivity.
Qed.

Lemma sum_upto_zero (n : nat) (f : nat -> R) :
  (forall j, j < n -> f j = 0%R) -> sum_upto n f = 0%R.
Proof.
  induction n as [|n IH]; intros H; [reflexivity|]. simpl.
  rewrite IH by (intros; apply H; lia). rewrite H by lia. lra.
Qed.

Lemma firstn_exact {A} (l1 l2 : list A) (n : nat) :
  n = length l1 -> firstn n (l1 ++ l2) = l1.
Proof.
  intros ->. rewrite firstn_app, Nat.sub_diag, firstn_all. simpl.
  apply app_nil_r.
Qed.

Lemma skipn_exact {A} (l1 l2 : list A) (n : nat) :
  n = length l1 -> skipn n (l1 ++ l2) = l2.
Proof.
  intros ->. rewrite skipn_app, Nat.sub_diag, skipn_all. reflexivity.
Qed.

Lemma skipn_exact_S {A} (l1 l2 : list A) (a : A) (n : nat) :
  n = length l1 -> skipn (S n) (l1 ++ a :: l2) = l2.
Proof.
  intros ->. replace (l1 ++ a :: l2) with ((l1 ++ [a]) ++ l2)
    by (rewrite <- app_assoc; reflexivity).
  apply skipn_exact. rewrite length_app. simpl. lia.
Qed.

Lemma nth_exact {A} (l1 l2 : list A) (a d : A) (n : nat) :
  n = length l1 -> nth n (l1 ++ a :: l2) d = a.
Proof.
  intros ->. rewrite app_nth2 by lia. rewrite Nat.sub_diag. reflexivity.
Qed.

Lemma unsqueeze_at (t : tensor) (P Q : list nat) (dim : Z) :
  shape t = P ++ Q ->
  wrap_dim (S (length P + length Q)) dim = Ok (length P) ->
  exists t',
    unsqueeze t dim = Ok t' /\
    shape t' = P ++ 1 :: Q /\
    forall p z q, length p = length P ->
      entry t' (p ++ z :: q) = entry t (p ++ q).
Proof.
  intros Hs Hd. unfold unsqueeze, rank. rewrite Hs, length_app, Hd.
  cbn [rbind].
  eexists. split; [reflexivity|]. cbn [shape entry]. split.
  - rewrite firstn_exact, skipn_exact by reflexivity. reflexivity.
  - intros p z q Hp.
    rewrite firstn_exact, skipn_exact_S by (symmetry; exact Hp). reflexivity.
Qed.

(** [unsqueeze(-3)] on a tensor of shape [B ++ [p; q]]. *)
Lemma unsqueeze_m3 (t : tensor) (B : list nat) (p q : nat) :
  shape t = B ++ [p; q] ->
  exists t',
    unsqueeze t (-3) = Ok t' /\
    shape t' = B ++ [1; p; q] /\
    forall bi z i j, length bi = length B ->
      entry t' (bi ++ [z; i; j]) = entry t (bi ++ [i; j]).
Proof.
  intros Hs.
  destruct (@unsqueeze_at t B [p; q] (-3)%Z Hs) as (t' & H1 & H2 & H3).
  - rewrite wrap_dim_m3 by (simpl; lia). f_equal. simpl. lia.
  - exists t'. split; [exact H1|]. split; [exact H2|].
    intros bi z i j Hb. exact (H3 bi z [i; j] Hb).
Qed.

(** [unsqueeze(-1)] adds a last axis. *)
Lemma unsqueeze_m1 (t : tensor) (S0 : list nat) :
  shape t = S0 ->
  exists t',
    unsqueeze t (-1) = Ok t' /\
    shape t' = S0 ++ [1] /\
    forall idx z, length idx = length S0 ->
      entry t' (idx ++ [z]) = entry t idx.
Proof.
  intros Hs.
  destruct (@unsqueeze_at t S0 [] (-1)%Z) as (t' & H1 & H2 & H3).
  - rewrite app_nil_r. exact Hs.
  - rewrite wrap_dim_m1 by (simpl; lia). f_equal. simpl. lia.
  - exists t'. split; [exact H1|]. split; [exact H2|].
    intros idx z Hb. rewrite (H3 idx z [] Hb), app_nil_r. reflexivity.
Qed.

Lemma sum_at (t : tensor) (P Q : list nat) (d : nat) (dim : Z) :
  shape t = P ++ d :: Q ->
  wrap_dim (length P + S (length Q)) dim = Ok (length P) ->
  exists t',
    sum t dim = Ok t' /\
    shape t' = P ++ Q /\
    forall p q, length p = length P ->
      entry t' (p ++ q) = sum_upto d (fun j => entry t (p ++ j :: q)).
Proof.
  intros Hs Hd. unfold sum, rank. rewrite Hs, length_app. simpl length.
  rewrite Hd. cbn [rbind].
  eexists. split; [reflexivity|]. cbn [shape entry]. split.
  - rewrite firstn_exact, skipn_exact_S by reflexivity. reflexivity.
  - intros p q Hp. rewrite nth_exact by reflexivity.
    rewrite firstn_exact, skipn_exact by (symmetry; exact Hp). reflexivity.
Qed.

(** [torch.sum(t, dim=-3)] on a tensor of shape [B ++ [a; b; c]]. *)
Lemma sum_m3 (t : tensor) (B : list nat) (a b c : nat) :
  shape t = B ++ [a; b; c] ->
  exists t',
    sum t (-3) = Ok t' /\
    shape t' = B ++ [b; c] /\
    forall bi j k, length bi = length B ->
      entry t' (bi ++ [j; k]) = sum_upto a (fun i => entry t (bi ++ [i; j; k])).
Proof.
  intros Hs.
  destruct (@sum_at t B [b; c] a (-3)%Z Hs) as (t' & H1 & H2 & H3).
  - rewrite wrap_dim_m3 by (simpl; lia). f_equal. simpl. lia.
  - exists t'. split; [exact H1|]. split; [exact H2|].
    intros bi j k Hb. exact (H3 bi [j; k] Hb).
Qed.

(** [torch.sum(t, dim=-2)] on a tensor of shape [B ++ [a; b; c]]. *)
Lemma sum_m2 (t : tensor) (B : list nat) (a b c : nat) :
  shape t = B ++ [a; b; c] ->
  exists t',
    sum t (-2) = Ok t' /\
    shape t' = B ++ [a; c] /\
    forall bi i k, length bi = length B ->
      entry t' (bi ++ [i; k]) = sum_upto b (fun j => entry t (bi ++ [i; j; k])).
Proof.
  intros Hs.
  destruct (@sum_at t (B ++ [a]) [c] b (-2)%Z) as (t' & H1 & H2 & H3).
  - rewrite <- app_assoc. exact Hs.
  - rewrite wrap_dim_m2 by (rewrite length_app; simpl; lia).
    f_equal. rewrite length_app. simpl. lia.
  - exists t'. split; [exact H1|]. split.
    + rewrite H2, <- app_assoc. reflexivity.
    + intros bi i k Hb.
      change (bi ++ [i; k]) with (bi ++ [i] ++ [k]). rewrite app_assoc.
      rewrite H3 by (rewrite !length_app; simpl; lia).
      apply sum_upto_ext. intros j _. rewrite <- app_assoc. reflexivity.
Qed.

Lemma squeeze_last_one (t : tensor) (S0 : list nat) :
  shape t = S0 ++ [1] ->
  exists t',
    squeeze_last t = Ok t' /\
    shape t' = S0 /\
    forall idx, entry t' idx = entry t (idx ++ [0]).
Proof.
  intros Hs. unfold squeeze_last. rewrite Hs, rev_app_distr. simpl.
  eexists. split; [reflexivity|]. simpl. split.
  - apply rev_involutive.
  - reflexivity.
Qed.

(* ================================================================= *)
(** ** Broadcasting *)

Lemma bdim_refl (a : nat) : bdim a a = Ok a.
Proof. unfold bdim. now rewrite Nat.eqb_refl. Qed.

Lemma bdim_1_l (b : nat) : bdim 1 b = Ok b.
Proof. unfold bdim. destruct (Nat.eqb_spec 1 b) as [<-|]; reflexivity. Qed.

Lemma bdim_1_r (a : nat) : bdim a 1 = Ok a.
Proof.
  unfold bdim. destruct (Nat.eqb_spec a 1) as [->|]; [reflexivity|].
  reflexivity.
Qed.

Lemma bdim_err (a b : nat) :
  a <> b -> a <> 1 -> b <> 1 -> bdim a b = Err RuntimeError.
Proof.
  intros H1 H2 H3. unfold bdim.
  destruct (Nat.eqb_spec a b); [contradiction|].
  destruct (Nat.eqb_spec a 1); [contradiction|].
  destruct (Nat.eqb_spec b 1); [contradiction|]. reflexivity.
Qed.

Lemma clamp_lt (d i : nat) : i < d -> clamp d i = i.
Proof. unfold clamp. destruct (Nat.eqb_spec d 1); lia. Qed.

Lemma broadcast_rev_app (a1 a2 b1 b2 : list nat) :
  length a1 = length a2 ->
  broadcast_rev (a1 ++ b1) (a2 ++ b2) =
  (u <~ broadcast_rev a1 a2 ; v <~ broadcast_rev b1 b2 ; Ok (u ++ v))%res.
Proof.
  revert a2. induction a1 as [|x a1 IH]; intros [|y a2] H; try discriminate.
  - simpl. destruct (broadcast_rev b1 b2); reflexivity.
  - simpl. destruct (bdim x y); simpl; [|reflexivity].
    rewrite IH by (simpl in H; lia).
    destruct (broadcast_rev a1 a2); simpl; [|reflexivity].
    destruct (broadcast_rev b1 b2); reflexivity.
Qed.

Lemma broadcast_shapes_ok_rev (s1 s2 s : list nat) :
  broadcast_shapes s1 s2 = Ok s ->
  broadcast_rev (rev s1) (rev s2) = Ok (rev s).
Proof.
  unfold broadcast_shapes. destruct (broadcast_rev (rev s1) (rev s2)); simpl.
  - intros H. injection H as <-. now rewrite rev_involutive.
  - discriminate.
Qed.

Lemma broadcast_shapes_app (A1 A2 A S1 S2 S0 : list nat) :
  length S1 = length S2 ->
  broadcast_shapes A1 A2 = Ok A ->
  broadcast_shapes S1 S2 = Ok S0 ->
  broadcast_shapes (A1 ++ S1) (A2 ++ S2) = Ok (A ++ S0).
Proof.
  intros Hl HA HS. apply broadcast_shapes_ok_rev in HA, HS.
  unfold broadcast_shapes. rewrite !rev_app_distr.
  rewrite broadcast_rev_app by (rewrite !length_rev; exact Hl).
  rewrite HS, HA. simpl. rewrite rev_app_distr, !rev_involutive. reflexivity.
Qed.

Lemma broadcast_shapes_app_err (A1 A2 S1 S2 : list nat) (e : error) :
  length S1 = length S2 ->
  broadcast_shapes S1 S2 = Err e ->
  broadcast_shapes (A1 ++ S1) (A2 ++ S2) = Err e.
Proof.
  intros Hl HS. unfold broadcast_shapes in *. rewrite !rev_app_distr.
  rewrite broadcast_rev_app by (rewrite !length_rev; exact Hl).
  destruct (broadcast_rev (rev S1) (rev S2)); simpl in *; [discriminate|].
  exact HS.
Qed.

Lemma broadcast_rev_ones (B : list nat) :
  broadcast_rev (repeat 1 (length B)) B = Ok B.
Proof.
  induction B as [|b B IH]; [reflexivity|]. simpl.
  rewrite bdim_1_l. simpl. rewrite IH. reflexivity.
Qed.

Lemma broadcast_rev_refl (B : list nat) : broadcast_rev B B = Ok B.
Proof.
  induction B as [|b B IH]; [reflexivity|]. simpl.
  rewrite bdim_refl. simpl. rewrite IH. reflexivity.
Qed.

Lemma broadcast_rev_nil_r (B : list nat) : broadcast_rev B [] = Ok B.
Proof. destruct B; reflexivity. Qed.

Lemma broadcast_shapes_ones (B : list nat) (k : nat) :
  k = length B -> broadcast_shapes (repeat 1 k) B = Ok B.
Proof.
  intros ->. unfold broadcast_shapes. rewrite rev_repeat.
  rewrite <- (length_rev B), broadcast_rev_ones. simpl.
  now rewrite rev_involutive.
Qed.

Lemma broadcast_shapes_ones_r (B : list nat) (k : nat) :
  k = length B -> broadcast_shapes B (repeat 1 k) = Ok B.
Proof.
  intros ->. unfold broadcast_shapes. rewrite rev_repeat.
  rewrite <- (length_rev B).
  assert (H : forall l, broadcast_rev l (repeat 1 (length l)) = Ok l).
  { induction l as [|b l IH]; [reflexivity|]. simpl.
    rewrite bdim_1_r. simpl. rewrite IH. reflexivity. }
  rewrite H. simpl. now rewrite rev_involutive.
Qed.

Lemma broadcast_shapes_refl (B : list nat) : broadcast_shapes B B = Ok B.
Proof.
  unfold broadcast_shapes. rewrite broadcast_rev_refl. simpl.
  now rewrite rev_involutive.
Qed.

Lemma broadcast_shapes_nil_r (B : list nat) : broadcast_shapes B [] = Ok B.
Proof.
  unfold broadcast_shapes. simpl. rewrite broadcast_rev_nil_r. simpl.
  now rewrite rev_involutive.
Qed.

Lemma bidx_rev_app (s1 s2 i1 i2 : list nat) :
  length s1 = length i1 ->
  bidx_rev (s1 ++ s2) (i1 ++ i2) = bidx_rev s1 i1 ++ bidx_rev s2 i2.
Proof.
  revert i1. induction s1 as [|d s1 IH]; intros [|i i1] H; try discriminate.
  - reflexivity.
  - simpl. rewrite IH by (simpl in H; lia). reflexivity.
Qed.

Lemma bidx_app (s1 s2 i1 i2 : list nat) :
  length s2 = length i2 ->
  bidx (s1 ++ s2) (i1 ++ i2) = bidx s1 i1 ++ bidx s2 i2.
Proof.
  intros H. unfold bidx. rewrite !rev_app_distr.
  rewrite bidx_rev_app by (rewrite !length_rev; exact H).
  apply rev_app_distr.
Qed.

Lemma bidx_nil (idx : list nat) : bidx [] idx = [].
Proof. reflexivity. Qed.

Lemma bidx_rev_ones (idx : list nat) :
  bidx_rev (repeat 1 (length idx)) idx = repeat 0 (length idx).
Proof.
  induction idx as [|i idx IH]; [reflexivity|]. simpl. now rewrite IH.
Qed.

Lemma bidx_ones (k : nat) (idx : list nat) :
  length idx = k -> bidx (repeat 1 k) idx = repeat 0 k.
Proof.
  intros <-. unfold bidx. rewrite rev_repeat, <- (length_rev idx).
  rewrite bidx_rev_ones, rev_repeat. reflexivity.
Qed.

Lemma valid_index_length (s idx : list nat) :
  valid_index s idx -> length idx = length s.
Proof. apply Forall2_length. Qed.

Lemma valid_index_rev (s idx : list nat) :
  valid_index s idx -> valid_index (rev s) (rev idx).
Proof.
  unfold valid_index. induction 1 as [|i d idx s Hlt _ IH]; simpl.
  - constructor.
  - apply Forall2_app; [exact IH|]. constructor; [exact Hlt|constructor].
Qed.

Lemma valid_index_app (s1 s2 i1 i2 : list nat) :
  valid_index s1 i1 -> valid_index s2 i2 -> valid_index (s1 ++ s2) (i1 ++ i2).
Proof. apply Forall2_app. Qed.

Lemma bidx_rev_valid (s idx : list nat) :
  valid_index s idx -> bidx_rev s idx = idx.
Proof.
  unfold valid_index. induction 1 as [|i d idx s Hlt _ IH]; simpl.
  - reflexivity.
  - rewrite clamp_lt by exact Hlt. now rewrite IH.
Qed.

Lemma bidx_valid (s idx : list nat) :
  valid_index s idx -> bidx s idx = idx.
Proof.
  intros H. unfold bidx.
  rewrite bidx_rev_valid by (apply valid_index_rev; exact H).
  apply rev_involutive.
Qed.

(** The broadcast operation on two tensors whose shapes end in [S1] and
    [S2] of equal length. *)
Lemma broadcast2_app (f : R -> R -> R) (a b : tensor)
    (A1 A2 A S1 S2 S0 : list nat) :
  shape a = A1 ++ S1 -> shape b = A2 ++ S2 ->
  length S1 = length S2 ->
  broadcast_shapes A1 A2 = Ok A ->
  broadcast_shapes S1 S2 = Ok S0 ->
  exists t,
    broadcast2 f a b = Ok t /\
    shape t = A ++ S0 /\
    forall ai si, length si = length S1 ->
      entry t (ai ++ si) =
      f (entry a (bidx A1 ai ++ bidx S1 si)) (entry b (bidx A2 ai ++ bidx S2 si)).
Proof.
  intros Ha Hb Hl HA HS. unfold broadcast2. rewrite Ha, Hb.
  rewrite (broadcast_shapes_app A1 A2 A S1 S2 S0 Hl HA HS). cbn [rbind].
  eexists. split; [reflexivity|]. simpl. split; [reflexivity|].
  intros ai si Hsi. rewrite !bidx_app by congruence. reflexivity.
Qed.

(* ================================================================= *)
(** ** reshape *)

Lemma combine_snoc (s idx : list nat) (d i : nat) :
  length s = length idx ->
  combine (s ++ [d]) (idx ++ [i]) = combine s idx ++ [(d, i)].
Proof.
  revert idx. induction s as [|a s IH]; intros [|b idx] H; try discriminate.
  - reflexivity.
  - simpl. rewrite IH by (simpl in H; lia). reflexivity.
Qed.

Lemma ravel_snoc (s idx : list nat) (d i : nat) :
  length s = length idx ->
  ravel (s ++ [d]) (idx ++ [i]) = ravel s idx * d + i.
Proof.
  intros H. unfold ravel.
  rewrite combine_snoc by exact H. rewrite fold_left_app. reflexivity.
Qed.

Lemma unravel_snoc (s : list nat) (d n : nat) :
  unravel (s ++ [d]) n = unravel s (n / d) ++ [n mod d].
Proof. unfold unravel. rewrite rev_app_distr. reflexivity. Qed.

Lemma unravel_ravel (s idx : list nat) :
  valid_index s idx -> unravel s (ravel s idx) = idx.
Proof.
  revert idx. induction s as [|d s IH] using rev_ind; intros idx H.
  - inversion H. reflexivity.
  - apply Forall2_app_inv_r in H. destruct H as (i1 & i2 & H1 & H2 & ->).
    inversion H2 as [|i d' l l' Hlt Hnil]; subst. inversion Hnil; subst.
    rewrite ravel_snoc by (symmetry; apply (Forall2_length H1)).
    rewrite unravel_snoc.
    rewrite Nat.div_add_l by lia. rewrite Nat.div_small by exact Hlt.
    rewrite Nat.add_0_r. rewrite IH by exact H1.
    f_equal. f_equal.
    rewrite Nat.add_comm, Nat.Div0.mod_add. apply Nat.mod_small. exact Hlt.
Qed.

Lemma ravel_ones (k : nat) (s idx : list nat) :
  ravel (repeat 1 k ++ s) (repeat 0 k ++ idx) = ravel s idx.
Proof.
  unfold ravel. induction k as [|k IH]; [reflexivity|]. simpl. exact IH.
Qed.

Lemma numel_app (s1 s2 : list nat) : numel (s1 ++ s2) = numel s1 * numel s2.
Proof.
  unfold numel. induction s1 as [|d s1 IH]; simpl; [lia|].
  rewrite IH. lia.
Qed.

Lemma numel_ones (k : nat) : numel (repeat 1 k) = 1.
Proof. unfold numel. induction k as [|k IH]; [reflexivity|]. simpl. lia. Qed.

Lemma numel_pos (s : list nat) : Forall (lt 0) s -> 0 < numel s.
Proof.
  unfold numel. induction 1 as [|d s Hd _ IH]; simpl; [lia|]. nia.
Qed.

Lemma existsb_neg_of_nat (s : list nat) (f : Z -> bool) :
  (forall n : nat, f (Z.of_nat n) = false) ->
  existsb f (map Z.of_nat s) = false.
Proof.
  intros H. induction s as [|d s IH]; [reflexivity|]. simpl.
  now rewrite H, IH.
Qed.

Lemma ltb_m1_of_nat (n : nat) : (Z.of_nat n <? -1)%Z = false.
Proof. apply Z.ltb_ge. lia. Qed.

Lemma eqb_m1_of_nat (n : nat) : (Z.of_nat n =? -1)%Z = false.
Proof. apply Z.eqb_neq. lia. Qed.

Lemma count_infer_of_nat (s : list nat) (tl : list Z) :
  count_infer (map Z.of_nat s ++ tl) = count_infer tl.
Proof.
  unfold count_infer. induction s as [|d s IH]; [reflexivity|]. simpl.
  now rewrite eqb_m1_of_nat.
Qed.

Lemma known_size_of_nat (s : list nat) (tl : list Z) :
  known_size (map Z.of_nat s ++ tl) = numel s * known_size tl.
Proof.
  induction s as [|d s IH]; simpl.
  - lia.
  - rewrite eqb_m1_of_nat, Nat2Z.id.
    change (fold_right
              (fun (d0 : Z) (acc : nat) =>
                 if (d0 =? -1)%Z then acc else Z.to_nat d0 * acc) 1
              (map Z.of_nat s ++ tl)) with (known_size (map Z.of_nat s ++ tl)).
    rewrite IH. unfold numel. lia.
Qed.

Lemma to_nat_of_nat (s : list nat) : map Z.to_nat (map Z.of_nat s) = s.
Proof.
  induction s as [|d s IH]; [reflexivity|]. simpl. now rewrite Nat2Z.id, IH.
Qed.

(** A target shape given without [-1]. *)
Lemma infer_size_nat (n : nat) (s : list nat) :
  n = numel s -> infer_size n (map Z.of_nat s) = Ok s.
Proof.
  intros ->. unfold infer_size.
  rewrite existsb_neg_of_nat by apply ltb_m1_of_nat.
  assert (Hc : count_infer (map Z.of_nat s) = 0).
  { rewrite <- (app_nil_r (map Z.of_nat s)). apply count_infer_of_nat. }
  assert (Hk : known_size (map Z.of_nat s) = numel s).
  { rewrite <- (app_nil_r (map Z.of_nat s)), known_size_of_nat. simpl. lia. }
  rewrite Hc, Hk, Nat.eqb_refl, to_nat_of_nat. reflexivity.
Qed.

(** The target shape [[*s, n, -1]] for a tensor of shape [s ++ [n * q]]. *)
Lemma infer_size_split (s : list nat) (n q : nat) :
  0 < numel s * n ->
  infer_size (numel (s ++ [n * q])) (map Z.of_nat s ++ [Z.of_nat n; (-1)%Z]) =
  Ok (s ++ [n; q]).
Proof.
  intros Hpos. unfold infer_size.
  rewrite existsb_app, existsb_neg_of_nat by apply ltb_m1_of_nat.
  cbn [existsb orb]. rewrite ltb_m1_of_nat. cbn [Z.ltb Z.compare orb].
  rewrite count_infer_of_nat, known_size_of_nat.
  unfold count_infer. cbn [filter known_size fold_right].
  rewrite eqb_m1_of_nat. cbn [Z.eqb length].
  rewrite Nat2Z.id, Nat.mul_1_r.
  rewrite numel_app. cbn [numel fold_right]. rewrite Nat.mul_1_r.
  assert (Hn : numel s * (n * q) = q * (numel s * n)) by lia.
  rewrite Hn, Nat.Div0.mod_mul, Nat.div_mul by lia.
  replace (0 <? numel s * n) with true by (symmetry; apply Nat.ltb_lt; exact Hpos).
  change ((-1 <? -1)%Z) with false. change ((1 =? 1)%positive) with true.
  cbn [andb orb length]. rewrite Nat.eqb_refl. f_equal.
  rewrite map_app, map_map. f_equal.
  - etransitivity; [|apply map_id].
    apply map_ext. intros a. now rewrite eqb_m1_of_nat, Nat2Z.id.
  - cbn [map]. rewrite eqb_m1_of_nat, Nat2Z.id. reflexivity.
Qed.

(** The target shape [[*s, n, -1]] cannot be inferred for a tensor
    without elements, or when [n] is 0. *)
Lemma infer_size_split_err (m : nat) (s : list nat) (n : nat) :
  numel s * n = 0 ->
  infer_size m (map Z.of_nat s ++ [Z.of_nat n; (-1)%Z]) = Err RuntimeError.
Proof.
  intros H0. unfold infer_size.
  destruct (existsb _ _); [reflexivity|].
  rewrite count_infer_of_nat, known_size_of_nat.
  unfold count_infer. cbn [filter known_size fold_right].
  rewrite eqb_m1_of_nat. change ((-1 =? -1)%Z) with true. cbn [length].
  rewrite Nat2Z.id, Nat.mul_1_r, H0. reflexivity.
Qed.

(** [w.reshape([1, ..., 1, *w.shape])] *)
Lemma reshape_ones (w : tensor) (k : nat) (s : list nat) :
  shape w = s ->
  exists t,
    reshape w (map Z.of_nat (repeat 1 k ++ s)) = Ok t /\
    shape t = repeat 1 k ++ s /\
    forall idx, valid_index s idx ->
      entry t (repeat 0 k ++ idx) = entry w idx.
Proof.
  intros Hs. unfold reshape. rewrite Hs.
  rewrite infer_size_nat by (rewrite numel_app, numel_ones; lia).
  cbn [rbind]. eexists. split; [reflexivity|]. cbn [shape entry].
  split; [reflexivity|].
  intros idx Hv. rewrite ravel_ones, unravel_ravel by exact Hv. reflexivity.
Qed.

(** [t.reshape([*t.shape[:-1], n, -1])] on a tensor of shape
    [s ++ [n * q]] with elements. *)
Lemma reshape_split (t : tensor) (s : list nat) (n q : nat) :
  shape t = s ++ [n * q] ->
  0 < numel s * n ->
  exists t',
    reshape t (map Z.of_nat (removelast (shape t)) ++ [Z.of_nat n; (-1)%Z]) = Ok t' /\
    shape t' = s ++ [n; q] /\
    forall si i j, valid_index s si -> i < n -> j < q ->
      entry t' (si ++ [i; j]) = entry t (si ++ [i * q + j]).
Proof.
  intros Hs Hpos. unfold reshape. rewrite Hs, removelast_last.
  rewrite infer_size_split by exact Hpos.
  cbn [rbind]. eexists. split; [reflexivity|]. cbn [shape entry].
  split; [reflexivity|].
  intros si i j Hv Hi Hj.
  assert (Hlen : length s = length si) by (symmetry; apply (Forall2_length Hv)).
  replace (ravel (s ++ [n; q]) (si ++ [i; j]))
    with (ravel (s ++ [n * q]) (si ++ [i * q + j])).
  - apply f_equal. apply unravel_ravel. apply valid_index_app; [exact Hv|].
    constructor; [nia|constructor].
  - rewrite ravel_snoc by exact Hlen.
    change (s ++ [n; q]) with (s ++ [n] ++ [q]).
    change (si ++ [i; j]) with (si ++ [i] ++ [j]).
    rewrite !app_assoc.
    rewrite ravel_snoc by (rewrite !length_app; simpl; lia).
    rewrite ravel_snoc by exact Hlen. lia.
Qed.

(* ================================================================= *)
(** ** einsum, linear, layer normalisation *)

Lemma einsum_bij_ijk_bik_ok (a b : tensor) (B : list nat) (i1 j1 i2 j2 k i j : nat) :
  shape a = B ++ [i1; j1] -> shape b = [i2; j2; k] ->
  bdim i1 i2 = Ok i -> bdim j1 j2 = Ok j ->
  exists t,
    einsum_bij_ijk_bik a b = Ok t /\
    shape t = B ++ [i; k] /\
    forall bi ii kk,
      entry t (bi ++ [ii; kk]) =
      sum_upto j (fun jj =>
        entry a (bi ++ [clamp i1 ii; clamp j1 jj])
        * entry b [clamp i2 ii; clamp j2 jj; kk])%R.
Proof.
  intros Ha Hb Hi Hj. unfold einsum_bij_ijk_bik.
  rewrite Ha, Hb, rev_app_distr. cbn [rev app]. rewrite Hi, Hj. cbn [rbind].
  eexists. split; [reflexivity|]. cbn [shape entry]. split.
  - now rewrite rev_involutive.
  - intros bi ii kk. rewrite rev_app_distr. cbn [rev app].
    now rewrite rev_involutive.
Qed.

Lemma einsum_bij_ij_bij_ok (a b : tensor) (B : list nat) (i1 j1 i2 j2 i j : nat) :
  shape a = B ++ [i1; j1] -> shape b = [i2; j2] ->
  bdim i1 i2 = Ok i -> bdim j1 j2 = Ok j ->
  exists t,
    einsum_bij_ij_bij a b = Ok t /\
    shape t = B ++ [i; j] /\
    forall bi ii jj,
      entry t (bi ++ [ii; jj]) =
      (entry a (bi ++ [clamp i1 ii; clamp j1 jj])
       * entry b [clamp i2 ii; clamp j2 jj])%R.
Proof.
  intros Ha Hb Hi Hj. unfold einsum_bij_ij_bij.
  rewrite Ha, Hb, rev_app_distr. cbn [rev app]. rewrite Hi, Hj. cbn [rbind].
  eexists. split; [reflexivity|]. cbn [shape entry]. split.
  - now rewrite rev_involutive.
  - intros bi ii jj. rewrite rev_app_distr. cbn [rev app].
    now rewrite rev_involutive.
Qed.

Lemma shape_eqb_refl (s : list nat) : shape_eqb s s = true.
Proof.
  induction s as [|d s IH]; [reflexivity|]. simpl.
  now rewrite Nat.eqb_refl, IH.
Qed.

Lemma shape_eqb_eq (s1 s2 : list nat) : shape_eqb s1 s2 = true -> s1 = s2.
Proof.
  revert s2. induction s1 as [|a s1 IH]; intros [|b s2] H; try discriminate.
  - reflexivity.
  - simpl in H. apply andb_true_iff in H. destruct H as [H1 H2].
    apply Nat.eqb_eq in H1. subst. f_equal. now apply IH.
Qed.

Lemma linear_ok (input w : tensor) (bias : option tensor) (B : list nat) (o i : nat) :
  shape input = B ++ [i] -> shape w = [o; i] ->
  (forall b, bias = Some b -> shape b = [o]) ->
  exists t,
    linear input w bias = Ok t /\
    shape t = B ++ [o] /\
    forall bi oo,
      entry t (bi ++ [oo]) =
      (sum_upto i (fun ii => entry input (bi ++ [ii]) * entry w [oo; ii])
       + bias_term bias oo)%R.
Proof.
  intros Hi Hw Hb. unfold linear.
  rewrite Hi, Hw, rev_app_distr. cbn [rev app]. rewrite Nat.eqb_refl.
  assert (Hbias : match bias with
                  | Some b => shape_eqb (shape b) [o]
                  | None => true
                  end = true).
  { destruct bias as [b|]; [|reflexivity].
    rewrite (Hb b eq_refl). apply shape_eqb_refl. }
  rewrite Hbias. cbn [andb].
  eexists. split; [reflexivity|]. cbn [shape entry]. split.
  - now rewrite rev_involutive.
  - intros bi oo. rewrite removelast_last, last_last. reflexivity.
Qed.

Lemma layer_norm_ok (ns : list nat) (eps : R) (w b t : tensor) (B : list nat) :
  shape t = B ++ ns ->
  exists t',
    layer_norm ns eps w b t = Ok t' /\
    shape t' = B ++ ns /\
    forall bi ni, length bi = length B ->
      entry t' (bi ++ ni) =
      (let xs := map (fun j => entry t (bi ++ j)) (all_indices ns) in
       let mu := mean xs in
       let var := mean (map (fun v => (v - mu) * (v - mu))%R xs) in
       (entry t (bi ++ ni) - mu) / sqrt (var + eps) * entry w ni + entry b ni)%R.
Proof.
  intros Hs. unfold layer_norm, rank. rewrite Hs, length_app.
  replace (length B + length ns - length ns) with (length B) by lia.
  replace (length ns <=? length B + length ns) with true
    by (symmetry; apply Nat.leb_le; lia).
  rewrite skipn_exact by reflexivity. rewrite shape_eqb_refl. cbn [andb].
  eexists. split; [reflexivity|]. cbn [shape entry]. split; [reflexivity|].
  intros bi ni Hb. cbv zeta.
  rewrite firstn_exact, skipn_exact by (symmetry; exact Hb). reflexivity.
Qed.

(* ================================================================= *)
(** ** The monad *)

Lemma returns_run {A} (m : M A) (self : DyNAThetaLinear) (a : A) :
  returns m self a -> run m self = Ok a.
Proof. unfold returns, run. now intros ->. Qed.

Lemma bind_returns {A B} (m : M A) (f : A -> M B) (self : DyNAThetaLinear) (a : A) :
  returns m self a -> bind m f self = f a self.
Proof. unfold returns, bind. now intros ->. Qed.

Lemma bind_attr {A B} (g : DyNAThetaLinear -> A) (f : A -> M B) (self : DyNAThetaLinear) :
  bind (attr g) f self = f (g self) self.
Proof. reflexivity. Qed.

Lemma bind_lift_ok {A B} (r : result A) (f : A -> M B) (self : DyNAThetaLinear) (a : A) :
  r = Ok a -> bind (lift r) f self = f a self.
Proof. now intros ->. Qed.

(** Writing an attribute is not read-only. *)
Lemma set_attr_writes :
  ~ read_only (set_attr (fun self =>
       with_emission self (full [] 0%R) (full [] 0%R) (full [] 0%R))).
Proof.
  intros H. specialize (H (demo 1 1 1 1 true false false ones)).
  apply (f_equal (fun L => shape (emission L))) in H. discriminate H.
Qed.

Lemma read_only_ret {A} (a : A) : read_only (ret a).
Proof. intros self. reflexivity. Qed.

Lemma read_only_lift {A} (r : result A) : read_only (lift r).
Proof. intros self. reflexivity. Qed.

Lemma read_only_attr {A} (g : DyNAThetaLinear -> A) : read_only (attr g).
Proof. intros self. reflexivity. Qed.

Lemma read_only_bind {A B} (m : M A) (f : A -> M B) :
  read_only m -> (forall a, read_only (f a)) -> read_only (bind m f).
Proof.
  intros Hm Hf self. unfold after, bind.
  specialize (Hm self). unfold after in Hm.
  destruct (m self) as [[a|e] self']; simpl in Hm; subst self'.
  - apply Hf.
  - reflexivity.
Qed.

Create HintDb frame.
#[export] Hint Resolve read_only_ret read_only_lift read_only_attr : frame.
#[export] Hint Extern 2 (read_only (bind _ _)) =>
  apply read_only_bind; [ | intro ] : frame.

Lemma returns_lift {A} (r : result A) (self : DyNAThetaLinear) (a : A) :
  r = Ok a -> returns (lift r) self a.
Proof. now intros ->. Qed.

Lemma returns_inj {A} (m : M A) (self : DyNAThetaLinear) (a a' : A) :
  returns m self a -> returns m self a' -> a = a'.
Proof. unfold returns. intros H H'. rewrite H in H'. now injection H'. Qed.

(** Evaluation of a broadcast of two shapes with as many axes, by the
    rules for one axis. *)
Ltac solve_bshape :=
  unfold broadcast_shapes; cbn [rev app broadcast_rev];
  repeat (rewrite ?bdim_1_l, ?bdim_1_r, ?bdim_refl; cbn [rbind]);
  reflexivity.

Ltac bind_ok H := try unfold returns; rewrite (bind_returns _ _ _ _ H).
Ltac lift_ok H := try unfold returns; rewrite (bind_lift_ok _ _ _ _ H).

(* ================================================================= *)
(** ** The locals of forward on conformant inputs *)

Section Conformant.

Variables (L : DyNAThetaLinear) (x components : tensor) (B : list nat).

Hypothesis Hwf : wf_layer L.
Hypothesis Hc : shape components = B ++ [theta_modes_in L; in_features L].

Local Abbreviation I := (in_features L).
Local Abbreviation O := (out_features L).
Local Abbreviation Mi := (theta_modes_in L).

Lemma batch_rank_conformant : batch_rank components = length B.
Proof. unfold batch_rank, rank. rewrite Hc, length_app. simpl. lia. Qed.

Lemma components_per_input_ok :
  exists t,
    returns (components_per_input components) L t /\
    shape t = B ++ [1; I; Mi] /\
    forall bi z i m, length bi = length B ->
      entry t (bi ++ [z; i; m]) = entry components (bi ++ [m; i]).
Proof.
  destruct (permute_swap_last components B Mi I Hc) as (t1 & P1 & S1 & E1).
  destruct (unsqueeze_m3 t1 B I Mi S1) as (t2 & P2 & S2 & E2).
  exists t2. split; [|split].
  - unfold components_per_input. rewrite batch_rank_conformant.
    lift_ok P1. apply returns_lift. exact P2.
  - exact S2.
  - intros bi z i m Hb. rewrite E2, E1 by exact Hb. reflexivity.
Qed.

Lemma individual_sensetivity_weighted_ok :
  exists t,
    returns (individual_sensetivity_weighted components) L t /\
    shape t = B ++ [O; I; Mi] /\
    forall bi o i m, valid_index B bi -> o < O -> i < I -> m < Mi ->
      entry t (bi ++ [o; i; m]) =
      (entry (individual_sensetivity L) [o; i; 0%nat]
       * entry components (bi ++ [m; i]))%R.
Proof.
  destruct components_per_input_ok as (cpi & R1 & S1 & E1).
  destruct (reshape_ones (individual_sensetivity L) (length B) [O; I; 1]
              (wf_individual L Hwf)) as (r & P2 & S2 & E2).
  destruct (broadcast2_app Rmult r cpi (repeat 1 (length B)) B B
              [O; I; 1] [1; I; Mi] [O; I; Mi] S2 S1 eq_refl
              (broadcast_shapes_ones B (length B) eq_refl))
    as (t & P3 & S3 & E3); [solve_bshape|].
  exists t. split; [|split].
  - unfold individual_sensetivity_weighted. bind_ok R1. rewrite bind_attr.
    rewrite batch_rank_conformant, (wf_individual L Hwf).
    lift_ok P2. apply returns_lift. exact P3.
  - exact S3.
  - intros bi o i m Hv Ho Hi Hm.
    pose proof (valid_index_length B bi Hv) as Hlen.
    rewrite E3 by reflexivity.
    rewrite (bidx_ones (length B) bi Hlen), (bidx_valid B bi Hv).
    unfold bidx. cbn [rev app bidx_rev].
    change (clamp 1 m) with 0. change (clamp 1 o) with 0.
    rewrite ?(clamp_lt O o Ho), ?(clamp_lt I i Hi), ?(clamp_lt Mi m Hm).
    rewrite E2 by (repeat constructor; assumption).
    rewrite E1 by exact Hlen. reflexivity.
Qed.

Lemma cumulative_env_inputs_ok :
  forall w, returns (individual_sensetivity_weighted components) L w ->
  exists t,
    returns (cumulative_env_inputs components) L t /\
    shape t = B ++ [I; Mi] /\
    forall bi i m, length bi = length B ->
      entry t (bi ++ [i; m]) =
      sum_upto O (fun o => entry w (bi ++ [o; i; m])).
Proof.
  intros w Rw.
  destruct individual_sensetivity_weighted_ok as (w' & R1 & S1 & _).
  rewrite (returns_inj _ _ _ _ Rw R1) in *. clear Rw.
  destruct (sum_m3 w' B O I Mi S1) as (t & P & S2 & E).
  exists t. split; [|split; assumption].
  unfold cumulative_env_inputs. bind_ok R1. apply returns_lift. exact P.
Qed.

Lemma cumulative_env_outputs_ok :
  forall w, returns (individual_sensetivity_weighted components) L w ->
  exists t,
    returns (cumulative_env_outputs components) L t /\
    shape t = B ++ [O; Mi] /\
    forall bi o m, length bi = length B ->
      entry t (bi ++ [o; m]) =
      sum_upto I (fun i => entry w (bi ++ [o; i; m])).
Proof.
  intros w Rw.
  destruct individual_sensetivity_weighted_ok as (w' & R1 & S1 & _).
  rewrite (returns_inj _ _ _ _ Rw R1) in *. clear Rw.
  destruct (sum_m2 w' B O I Mi S1) as (t & P & S2 & E).
  exists t. split; [|split; assumption].
  unfold cumulative_env_outputs. bind_ok R1. apply returns_lift. exact P.
Qed.

Lemma env_sensed_ok :
  forall cei, returns (cumulative_env_inputs components) L cei ->
  exists t,
    returns (env_sensed components) L t /\
    shape t = B ++ [I; Mi] /\
    forall bi i m, valid_index B bi -> i < I -> m < Mi ->
      entry t (bi ++ [i; m]) =
      (entry cei (bi ++ [i; m]) * entry (env_sensetivity L) [i; m])%R.
Proof.
  intros cei Rc.
  destruct individual_sensetivity_weighted_ok as (w & Rw & _).
  destruct (cumulative_env_inputs_ok w Rw) as (cei' & R1 & S1 & _).
  rewrite (returns_inj _ _ _ _ Rc R1) in *. clear Rc.
  destruct (reshape_ones (env_sensetivity L) (length B) [I; Mi]
              (wf_env_sensetivity L Hwf)) as (r & P2 & S2 & E2).
  destruct (broadcast2_app Rmult cei' r B (repeat 1 (length B)) B
              [I; Mi] [I; Mi] [I; Mi] S1 S2 eq_refl
              (broadcast_shapes_ones_r B (length B) eq_refl))
    as (t & P3 & S3 & E3); [solve_bshape|].
  exists t. split; [|split].
  - unfold env_sensed, extra_dims. bind_ok R1. rewrite bind_attr.
    rewrite batch_rank_conformant, (wf_env_sensetivity L Hwf).
    lift_ok P2. apply returns_lift. exact P3.
  - exact S3.
  - intros bi i m Hv Hi Hm.
    pose proof (valid_index_length B bi Hv) as Hlen.
    rewrite E3 by reflexivity.
    rewrite (bidx_ones (length B) bi Hlen), (bidx_valid B bi Hv).
    unfold bidx. cbn [rev app bidx_rev].
    rewrite !clamp_lt by assumption.
    rewrite E2 by (repeat constructor; assumption). reflexivity.
Qed.

Lemma env_biased_ok :
  forall es, returns (env_sensed components) L es ->
  exists t,
    returns (env_biased components) L t /\
    shape t = B ++ [I; Mi] /\
    forall bi i m, valid_index B bi -> i < I -> m < Mi ->
      entry t (bi ++ [i; m]) =
      (entry es (bi ++ [i; m]) + entry (env_bias L) [i; m])%R.
Proof.
  intros es Rc.
  destruct individual_sensetivity_weighted_ok as (w & Rw & _).
  destruct (cumulative_env_inputs_ok w Rw) as (cei & Rcei & _).
  destruct (env_sensed_ok cei Rcei) as (es' & R1 & S1 & _).
  rewrite (returns_inj _ _ _ _ Rc R1) in *. clear Rc.
  destruct (reshape_ones (env_bias L) (length B) [I; Mi]
              (wf_env_bias L Hwf)) as (r & P2 & S2 & E2).
  destruct (broadcast2_app Rplus es' r B (repeat 1 (length B)) B
              [I; Mi] [I; Mi] [I; Mi] S1 S2 eq_refl
              (broadcast_shapes_ones_r B (length B) eq_refl))
    as (t & P3 & S3 & E3); [solve_bshape|].
  exists t. split; [|split].
  - unfold env_biased, extra_dims. bind_ok R1. rewrite bind_attr.
    rewrite batch_rank_conformant, (wf_env_bias L Hwf).
    lift_ok P2. apply returns_lift. exact P3.
  - exact S3.
  - intros bi i m Hv Hi Hm.
    pose proof (valid_index_length B bi Hv) as Hlen.
    rewrite E3 by reflexivity.
    rewrite (bidx_ones (length B) bi Hlen), (bidx_valid B bi Hv).
    unfold bidx. cbn [rev app bidx_rev].
    rewrite !clamp_lt by assumption.
    rewrite E2 by (repeat constructor; assumption). reflexivity.
Qed.

Lemma apply_norm_ok (flag : bool) (s : list nat) (n : norm_module) (t : tensor) :
  wf_norm flag s n -> shape t = B ++ s ->
  exists t',
    apply_norm n t = Ok t' /\ shape t' = B ++ s /\ (n = Identity -> t' = t).
Proof.
  intros Hn Hs. destruct n as [|ns eps w b]; simpl in *.
  - exists t. auto.
  - destruct Hn as (_ & -> & _ & _).
    destruct (layer_norm_ok s eps w b t B Hs) as (t' & P & S' & _).
    exists t'. repeat split; [exact P|exact S'|discriminate].
Qed.

Lemma env_normalized_ok :
  forall eb, returns (env_biased components) L eb ->
  exists t,
    returns (env_normalized components) L t /\
    shape t = B ++ [I; Mi] /\
    apply_norm (norm_env_input L) eb = Ok t.
Proof.
  intros eb Rb.
  destruct individual_sensetivity_weighted_ok as (w & Rw & _).
  destruct (cumulative_env_inputs_ok w Rw) as (cei & Rcei & _).
  destruct (env_sensed_ok cei Rcei) as (es & Res & _).
  destruct (env_biased_ok es Res) as (eb' & R1 & S1 & _).
  rewrite (returns_inj _ _ _ _ Rb R1) in *. clear Rb.
  destruct (apply_norm_ok _ _ _ eb' (wf_norm_in L Hwf) S1) as (t & P & S2 & _).
  exists t. split; [|split; assumption].
  unfold env_normalized. bind_ok R1. rewrite bind_attr.
  apply returns_lift. exact P.
Qed.

(** Every local up to [env_normalized] is computed. *)
Lemma env_chain :
  exists w cei es eb en,
    returns (individual_sensetivity_weighted components) L w /\
    returns (cumulative_env_inputs components) L cei /\
    returns (env_sensed components) L es /\
    returns (env_biased components) L eb /\
    returns (env_normalized components) L en.
Proof.
  destruct individual_sensetivity_weighted_ok as (w & Rw & _).
  destruct (cumulative_env_inputs_ok w Rw) as (cei & Rcei & _).
  destruct (env_sensed_ok cei Rcei) as (es & Res & _).
  destruct (env_biased_ok es Res) as (eb & Reb & _).
  destruct (env_normalized_ok eb Reb) as (en & Ren & _).
  exists w, cei, es, eb, en. auto.
Qed.

Hypothesis Hx : shape x = B ++ [in_features L].

Lemma perceptual_x_ok :
  forall en, returns (env_normalized components) L en ->
  exists t,
    returns (perceptual_x x components) L t /\
    shape t = B ++ [I] /\
    forall bi i, valid_index B bi -> i < I ->
      entry t (bi ++ [i]) =
      (sum_upto Mi (fun m =>
         entry x (bi ++ [i]) * entry en (bi ++ [i; m])
         * entry (perception L) [i; m; 0%nat])
       + entry (perceptual_bias L) [i])%R.
Proof.
  intros en Rn.
  destruct env_chain as (w & cei & es & eb & en' & _ & _ & _ & Reb & Ren).
  rewrite (returns_inj _ _ _ _ Rn Ren) in *. clear Rn.
  destruct (env_normalized_ok eb Reb) as (en'' & Ren' & S0 & _).
  rewrite <- (returns_inj _ _ _ _ Ren Ren') in *. clear Ren'.
  destruct (unsqueeze_m1 x (B ++ [I]) Hx) as (xu & P1 & S1 & E1).
  rewrite <- app_assoc in S1. cbn [app] in S1.
  destruct (broadcast2_app Rmult xu en' B B B [I; 1] [I; Mi] [I; Mi]
              S1 S0 eq_refl (broadcast_shapes_refl B))
    as (p1 & P2 & S2 & E2); [solve_bshape|].
  destruct (einsum_bij_ijk_bik_ok p1 (perception L) B I Mi I Mi 1 I Mi
              S2 (wf_perception L Hwf) (bdim_refl I) (bdim_refl Mi))
    as (p2 & P3 & S3 & E3).
  destruct (squeeze_last_one p2 (B ++ [I])) as (p3 & P4 & S4 & E4).
  { rewrite S3, <- app_assoc. reflexivity. }
  destruct (broadcast2_app Rplus p3 (perceptual_bias L) B [] B [I] [I] [I]
              S4 (wf_perceptual_bias L Hwf) eq_refl (broadcast_shapes_nil_r B))
    as (px & P5 & S5 & E5); [solve_bshape|].
  exists px. split; [|split].
  - unfold perceptual_x. bind_ok Ren. lift_ok P1. lift_ok P2.
    rewrite bind_attr. lift_ok P3. lift_ok P4. rewrite bind_attr.
    apply returns_lift. exact P5.
  - exact S5.
  - intros bi i Hv Hi.
    pose proof (valid_index_length B bi Hv) as Hlen.
    rewrite E5 by reflexivity.
    rewrite (bidx_valid B bi Hv), bidx_nil.
    unfold bidx. cbn [rev app bidx_rev]. rewrite (clamp_lt I i Hi).
    f_equal. rewrite E4, <- app_assoc. cbn [app]. rewrite E3.
    apply sum_upto_ext. intros m Hm.
    rewrite (clamp_lt I i Hi), (clamp_lt Mi m Hm).
    f_equal. rewrite E2 by reflexivity.
    rewrite (bidx_valid B bi Hv).
    unfold bidx. cbn [rev app bidx_rev].
    rewrite (clamp_lt I i Hi), (clamp_lt Mi m Hm).
    change (clamp 1 m) with 0. f_equal.
    change (bi ++ [i; 0]) with (bi ++ [i] ++ [0]). rewrite app_assoc.
    apply E1. rewrite !length_app. simpl. lia.
Qed.

Lemma transformed_x_ok :
  forall px, returns (perceptual_x x components) L px ->
  exists t,
    returns (transformed_x x components) L t /\
    shape t = B ++ [O] /\
    forall bi o,
      entry t (bi ++ [o]) =
      (sum_upto I (fun i => entry px (bi ++ [i]) * entry (weight L) [o; i])
       + bias_term (bias L) o)%R.
Proof.
  intros px Rp.
  destruct env_chain as (w & cei & es & eb & en & _ & _ & _ & _ & Ren).
  destruct (perceptual_x_ok en Ren) as (px' & R1 & S1 & _).
  rewrite (returns_inj _ _ _ _ Rp R1) in *. clear Rp.
  destruct (linear_ok px' (weight L) (bias L) B O I S1
              (wf_weight L Hwf) (wf_bias L Hwf)) as (t & P & S2 & E).
  exists t. split; [|split; assumption].
  unfold transformed_x. bind_ok R1. rewrite !bind_attr.
  apply returns_lift. exact P.
Qed.

(** Every local up to [transformed_x] is computed. *)
Lemma signal_chain :
  exists en px tx,
    returns (env_normalized components) L en /\
    returns (perceptual_x x components) L px /\
    returns (transformed_x x components) L tx /\
    shape tx = B ++ [O].
Proof.
  destruct env_chain as (w & cei & es & eb & en & _ & _ & _ & _ & Ren).
  destruct (perceptual_x_ok en Ren) as (px & Rpx & _).
  destruct (transformed_x_ok px Rpx) as (tx & Rtx & Stx & _).
  exists en, px, tx. auto.
Qed.

Local Abbreviation No := (theta_modes_out L).
Local Abbreviation Fe := (theta_feautures L).

Lemma modulated_env_gated_ok :
  forall tx ceo,
    returns (transformed_x x components) L tx ->
    returns (cumulative_env_outputs components) L ceo ->
  exists t,
    returns (modulated_env_gated x components) L t /\
    shape t = B ++ [O; Mi] /\
    forall bi o m, valid_index B bi -> o < O -> m < Mi ->
      entry t (bi ++ [o; m]) =
      (entry ceo (bi ++ [o; m]) * entry tx (bi ++ [o]))%R.
Proof.
  intros tx ceo Rt Rc.
  destruct signal_chain as (en & px & tx' & _ & _ & Rtx & Stx).
  rewrite (returns_inj _ _ _ _ Rt Rtx) in *. clear Rt.
  destruct individual_sensetivity_weighted_ok as (w & Rw & _).
  destruct (cumulative_env_outputs_ok w Rw) as (ceo' & Rceo & Sceo & _).
  rewrite (returns_inj _ _ _ _ Rc Rceo) in *. clear Rc.
  destruct (unsqueeze_m1 tx' (B ++ [O]) Stx) as (txu & P1 & S1 & E1).
  rewrite <- app_assoc in S1. cbn [app] in S1.
  destruct (broadcast2_app Rmult ceo' txu B B B [O; Mi] [O; 1] [O; Mi]
              Sceo S1 eq_refl (broadcast_shapes_refl B))
    as (t & P2 & S2 & E2); [solve_bshape|].
  exists t. split; [|split].
  - unfold modulated_env_gated. bind_ok Rtx. bind_ok Rceo.
    lift_ok P1. apply returns_lift. exact P2.
  - exact S2.
  - intros bi o m Hv Ho Hm.
    pose proof (valid_index_length B bi Hv) as Hlen.
    rewrite E2 by reflexivity. rewrite (bidx_valid B bi Hv).
    unfold bidx. cbn [rev app bidx_rev].
    rewrite (clamp_lt O o Ho), (clamp_lt Mi m Hm).
    change (clamp 1 m) with 0. f_equal.
    change (bi ++ [o; 0]) with (bi ++ [o] ++ [0]). rewrite app_assoc.
    apply E1. rewrite !length_app. simpl. lia.
Qed.

Lemma gated_chain :
  exists w ceo tx meg,
    returns (individual_sensetivity_weighted components) L w /\
    returns (cumulative_env_outputs components) L ceo /\
    returns (transformed_x x components) L tx /\
    returns (modulated_env_gated x components) L meg /\
    shape meg = B ++ [O; Mi].
Proof.
  destruct signal_chain as (en & px & tx & _ & _ & Rtx & _).
  destruct individual_sensetivity_weighted_ok as (w & Rw & _).
  destruct (cumulative_env_outputs_ok w Rw) as (ceo & Rceo & _).
  destruct (modulated_env_gated_ok tx ceo Rtx Rceo) as (meg & Rm & Sm & _).
  exists w, ceo, tx, meg. auto.
Qed.

Lemma modulated_env_ok :
  forall meg, returns (modulated_env_gated x components) L meg ->
  exists t,
    returns (modulated_env x components) L t /\
    shape t = B ++ [O; Mi] /\
    apply_norm (norm_env_output L) meg = Ok t.
Proof.
  intros meg Rm.
  destruct gated_chain as (w & ceo & tx & meg' & _ & _ & _ & R1 & S1).
  rewrite (returns_inj _ _ _ _ Rm R1) in *. clear Rm.
  destruct (apply_norm_ok _ _ _ meg' (wf_norm_out L Hwf) S1) as (t & P & S2 & _).
  exists t. split; [|split; assumption].
  unfold modulated_env. bind_ok R1. rewrite bind_attr.
  apply returns_lift. exact P.
Qed.

Lemma bdim_features : bdim O Fe = Ok O.
Proof.
  destruct (wf_features L Hwf) as [-> | ->]; [apply bdim_refl|apply bdim_1_r].
Qed.

Lemma emission_raw_ok :
  forall me, returns (modulated_env x components) L me ->
  exists t,
    returns (emission_raw x components) L t /\
    shape t = B ++ [O; No * 4] /\
    forall bi o k, o < O ->
      entry t (bi ++ [o; k]) =
      sum_upto Mi (fun m =>
        entry me (bi ++ [o; m]) * entry (emission L) [clamp Fe o; m; k])%R.
Proof.
  intros me Rm.
  destruct gated_chain as (w & ceo & tx & meg & _ & _ & _ & Rg & _).
  destruct (modulated_env_ok meg Rg) as (me' & R1 & S1 & _).
  rewrite (returns_inj _ _ _ _ Rm R1) in *. clear Rm.
  pose proof (wf_emission L Hwf) as Se. rewrite (wf_quad L Hwf) in Se.
  destruct (einsum_bij_ijk_bik_ok me' (emission L) B O Mi Fe Mi (No * 4) O Mi
              S1 Se bdim_features (bdim_refl Mi)) as (t & P & S2 & E).
  exists t. split; [|split].
  - unfold emission_raw. bind_ok R1. rewrite bind_attr.
    apply returns_lift. exact P.
  - exact S2.
  - intros bi o k Ho. rewrite E. apply sum_upto_ext. intros m Hm.
    rewrite (clamp_lt O o Ho), (clamp_lt Mi m Hm). reflexivity.
Qed.

Lemma emission_scaled_ok :
  forall er, returns (emission_raw x components) L er ->
  exists t,
    returns (emission_scaled x components) L t /\
    shape t = B ++ [O; No * 4] /\
    forall bi o k, o < O -> k < No * 4 ->
      entry t (bi ++ [o; k]) =
      (entry er (bi ++ [o; k]) * entry (emission_scale L) [o; k])%R.
Proof.
  intros er Rr.
  destruct gated_chain as (w & ceo & tx & meg & _ & _ & _ & Rg & _).
  destruct (modulated_env_ok meg Rg) as (me & Rme & _).
  destruct (emission_raw_ok me Rme) as (er' & R1 & S1 & _).
  rewrite (returns_inj _ _ _ _ Rr R1) in *. clear Rr.
  pose proof (wf_emission_scale L Hwf) as Se. rewrite (wf_quad L Hwf) in Se.
  destruct (einsum_bij_ij_bij_ok er' (emission_scale L) B O (No * 4) O (No * 4)
              O (No * 4) S1 Se (bdim_refl O) (bdim_refl (No * 4)))
    as (t & P & S2 & E).
  exists t. split; [|split].
  - unfold emission_scaled. bind_ok R1. rewrite bind_attr.
    apply returns_lift. exact P.
  - exact S2.
  - intros bi o k Ho Hk. rewrite E.
    rewrite (clamp_lt O o Ho), (clamp_lt (No * 4) k Hk). reflexivity.
Qed.

Lemma emission_biased_ok :
  forall es, returns (emission_scaled x components) L es ->
  exists t,
    returns (emission_biased x components) L t /\
    shape t = B ++ [O; No * 4] /\
    forall bi o k, valid_index B bi -> o < O -> k < No * 4 ->
      entry t (bi ++ [o; k]) =
      (entry es (bi ++ [o; k]) + entry (emission_bias L) [o; k])%R.
Proof.
  intros es Rs.
  destruct gated_chain as (w & ceo & tx & meg & _ & _ & _ & Rg & _).
  destruct (modulated_env_ok meg Rg) as (me & Rme & _).
  destruct (emission_raw_ok me Rme) as (er & Rer & _).
  destruct (emission_scaled_ok er Rer) as (es' & R1 & S1 & _).
  rewrite (returns_inj _ _ _ _ Rs R1) in *. clear Rs.
  pose proof (wf_emission_bias L Hwf) as Se. rewrite (wf_quad L Hwf) in Se.
  destruct (reshape_ones (emission_bias L) (length B) [O; No * 4] Se)
    as (r & P2 & S2 & E2).
  destruct (broadcast2_app Rplus es' r B (repeat 1 (length B)) B
              [O; No * 4] [O; No * 4] [O; No * 4] S1 S2 eq_refl
              (broadcast_shapes_ones_r B (length B) eq_refl))
    as (t & P3 & S3 & E3); [solve_bshape|].
  exists t. split; [|split].
  - unfold emission_biased. bind_ok R1. rewrite bind_attr.
    unfold rank. rewrite S1, Se, length_app. cbn [length].
    replace (length B + 2 - 2) with (length B) by lia.
    lift_ok P2. apply returns_lift. exact P3.
  - exact S3.
  - intros bi o k Hv Ho Hk.
    pose proof (valid_index_length B bi Hv) as Hlen.
    rewrite E3 by reflexivity.
    rewrite (bidx_ones (length B) bi Hlen), (bidx_valid B bi Hv).
    unfold bidx. cbn [rev app bidx_rev].
    rewrite (clamp_lt O o Ho), (clamp_lt (No * 4) k Hk).
    rewrite E2 by (repeat constructor; assumption). reflexivity.
Qed.

Lemma emission_chain :
  exists me er es eb,
    returns (modulated_env x components) L me /\
    returns (emission_raw x components) L er /\
    returns (emission_scaled x components) L es /\
    returns (emission_biased x components) L eb /\
    shape eb = B ++ [O; No * 4].
Proof.
  destruct gated_chain as (w & ceo & tx & meg & _ & _ & _ & Rg & _).
  destruct (modulated_env_ok meg Rg) as (me & Rme & _).
  destruct (emission_raw_ok me Rme) as (er & Rer & _).
  destruct (emission_scaled_ok er Rer) as (es & Res & _).
  destruct (emission_biased_ok es Res) as (eb & Reb & Seb & _).
  exists me, er, es, eb. auto.
Qed.

(** The last reshape needs a tensor with elements. *)
Hypothesis Hbatch : Forall (lt 0) B.
Hypothesis Hout : 0 < out_features L.

Lemma param_quads_ok :
  forall eb, returns (emission_biased x components) L eb ->
  exists t,
    returns (param_quads x components) L t /\
    shape t = B ++ [No; 4; O] /\
    forall bi n q o, valid_index B bi -> n < No -> q < 4 -> o < O ->
      entry t (bi ++ [n; q; o]) = entry eb (bi ++ [o; n * 4 + q]).
Proof.
  intros eb Rb.
  destruct emission_chain as (me & er & es & eb' & _ & _ & _ & R1 & S1).
  rewrite (returns_inj _ _ _ _ Rb R1) in *. clear Rb.
  assert (S1' : shape eb' = (B ++ [O]) ++ [No * 4])
    by (rewrite S1, <- app_assoc; reflexivity).
  destruct (reshape_split eb' (B ++ [O]) No 4 S1') as (p & P2 & S2 & E2).
  { rewrite numel_app. cbn [numel fold_right].
    pose proof (numel_pos B Hbatch). pose proof (wf_modes_out L Hwf). nia. }
  rewrite <- app_assoc in S2. cbn [app] in S2.
  destruct (permute_features_last p B O No 4 S2) as (t & P3 & S3 & E3).
  exists t. split; [|split].
  - unfold param_quads. bind_ok R1. rewrite bind_attr.
    lift_ok P2. unfold rank. rewrite S2, length_app. cbn [length].
    replace (length B + 3 - 3) with (length B) by lia.
    apply returns_lift. exact P3.
  - exact S3.
  - intros bi n q o Hv Hn Hq Ho.
    pose proof (valid_index_length B bi Hv) as Hlen.
    rewrite E3 by exact Hlen.
    change (bi ++ [o; n; q]) with (bi ++ [o] ++ [n; q]). rewrite app_assoc.
    rewrite E2; try assumption.
    + rewrite <- app_assoc. reflexivity.
    + apply valid_index_app; [exact Hv|]. repeat constructor. exact Ho.
Qed.

Lemma forward_ok :
  exists tx pq,
    returns (forward x components) L (tx, pq) /\
    returns (transformed_x x components) L tx /\
    returns (param_quads x components) L pq /\
    shape tx = B ++ [O] /\
    shape pq = B ++ [No; 4; O].
Proof.
  destruct signal_chain as (en & px & tx & _ & _ & Rtx & Stx).
  destruct emission_chain as (me & er & es & eb & _ & _ & _ & Reb & _).
  destruct (param_quads_ok eb Reb) as (pq & Rpq & Spq & _).
  exists tx, pq. repeat split; try assumption.
  unfold forward. bind_ok Rtx. bind_ok Rpq. reflexivity.
Qed.

End Conformant.

(* ================================================================= *)
(** ** forward writes no attribute *)

Section Frame.

Variables (x components : tensor).

Lemma components_per_input_read_only : read_only (components_per_input components).
Proof. unfold components_per_input. auto with frame. Qed.

Lemma individual_sensetivity_weighted_read_only :
  read_only (individual_sensetivity_weighted components).
Proof.
  unfold individual_sensetivity_weighted.
  pose proof components_per_input_read_only. auto 10 with frame.
Qed.

Lemma cumulative_env_inputs_read_only : read_only (cumulative_env_inputs components).
Proof.
  unfold cumulative_env_inputs.
  pose proof individual_sensetivity_weighted_read_only. auto with frame.
Qed.

Lemma env_sensed_read_only : read_only (env_sensed components).
Proof.
  unfold env_sensed. pose proof cumulative_env_inputs_read_only.
  auto 10 with frame.
Qed.

Lemma env_biased_read_only : read_only (env_biased components).
Proof.
  unfold env_biased. pose proof env_sensed_read_only. auto 10 with frame.
Qed.

Lemma env_normalized_read_only : read_only (env_normalized components).
Proof.
  unfold env_normalized. pose proof env_biased_read_only. auto 10 with frame.
Qed.

Lemma perceptual_x_read_only : read_only (perceptual_x x components).
Proof.
  unfold perceptual_x. pose proof env_normalized_read_only.
  auto 20 with frame.
Qed.

Lemma transformed_x_read_only : read_only (transformed_x x components).
Proof.
  unfold transformed_x. pose proof perceptual_x_read_only. auto 10 with frame.
Qed.

Lemma cumulative_env_outputs_read_only : read_only (cumulative_env_outputs components).
Proof.
  unfold cumulative_env_outputs.
  pose proof individual_sensetivity_weighted_read_only. auto with frame.
Qed.

Lemma modulated_env_gated_read_only : read_only (modulated_env_gated x components).
Proof.
  unfold modulated_env_gated. pose proof transformed_x_read_only.
  pose proof cumulative_env_outputs_read_only. auto 10 with frame.
Qed.

Lemma modulated_env_read_only : read_only (modulated_env x components).
Proof.
  unfold modulated_env. pose proof modulated_env_gated_read_only.
  auto 10 with frame.
Qed.

Lemma emission_raw_read_only : read_only (emission_raw x components).
Proof.
  unfold emission_raw. pose proof modulated_env_read_only. auto 10 with frame.
Qed.

Lemma emission_scaled_read_only : read_only (emission_scaled x components).
Proof.
  unfold emission_scaled. pose proof emission_raw_read_only. auto 10 with frame.
Qed.

Lemma emission_biased_read_only : read_only (emission_biased x components).
Proof.
  unfold emission_biased. pose proof emission_scaled_read_only.
  auto 10 with frame.
Qed.

Lemma param_quads_read_only : read_only (param_quads x components).
Proof.
  unfold param_quads. pose proof emission_biased_read_only. auto 10 with frame.
Qed.

Lemma forward_read_only : read_only (forward x components).
Proof.
  unfold forward. pose proof transformed_x_read_only.
  pose proof param_quads_read_only. auto 10 with frame.
Qed.

End Frame.

(* ================================================================= *)
(** ** The constructor *)

Lemma demo_wf (I O Mi No : nat) (f nin nout : bool) (d : draws) :
  0 < I -> 0 < Mi -> 0 < No -> wf_layer (demo I O Mi No f nin nout d).
Proof.
  intros HI HM HN. constructor; cbn; try assumption; try reflexivity.
  - destruct f; auto.
  - intros b Hb. injection Hb as <-. reflexivity.
  - destruct nin; cbn; auto.
  - destruct nout; cbn; auto.
Qed.

Lemma init_demo (I O Mi No : nat) (f nin nout : bool) (d : draws) :
  0 < I -> 0 < Mi -> 0 < No ->
  __init__ I O Mi No f nin nout true d = Ok (demo I O Mi No f nin nout d).
Proof.
  intros HI HM HN. unfold __init__, _initializer_individual, _initializer_env,
    _initializer_perception, _initializer_emission.
  destruct (Nat.eqb_spec I 0); [lia|].
  destruct (Nat.eqb_spec Mi 0); [lia|]. cbn [rbind].
  destruct (Nat.eqb_spec (Mi * numel [No * 4]) 0) as [E|_].
  - cbn in E. nia.
  - reflexivity.
Qed.

(** The constructor raises on a layer without input neurons, without
    input modes or without output modes. *)
Lemma init_zero (I O Mi No : nat) (f nin nout wb : bool) (d : draws) :
  I = 0 \/ Mi = 0 \/ No = 0 ->
  __init__ I O Mi No f nin nout wb d = Err ZeroDivisionError.
Proof.
  intros H. unfold __init__, _initializer_individual, _initializer_env,
    _initializer_perception, _initializer_emission. cbn [rbind].
  destruct (Nat.eqb_spec I 0); [reflexivity|]. cbn [rbind].
  destruct (Nat.eqb_spec Mi 0); [reflexivity|]. cbn [rbind].
  destruct (Nat.eqb_spec (Mi * numel [No * 4]) 0) as [_|E]; [reflexivity|].
  exfalso. apply E. destruct H as [H|[H|H]]; try contradiction.
  subst No. cbn. lia.
Qed.

(** What [__init__] returns is well formed. *)
Lemma init_wf (I O Mi No : nat) (f nin nout wb : bool) (d : draws) (L : DyNAThetaLinear) :
  __init__ I O Mi No f nin nout wb d = Ok L -> wf_layer L.
Proof.
  intros H.
  destruct (Nat.eq_dec I 0) as [HI|HI];
    [rewrite init_zero in H by auto; discriminate|].
  destruct (Nat.eq_dec Mi 0) as [HM|HM];
    [rewrite init_zero in H by auto; discriminate|].
  destruct (Nat.eq_dec No 0) as [HN|HN];
    [rewrite init_zero in H by auto; discriminate|].
  revert H. unfold __init__, _initializer_individual, _initializer_env,
    _initializer_perception, _initializer_emission.
  destruct (Nat.eqb_spec I 0); [lia|].
  destruct (Nat.eqb_spec Mi 0); [lia|]. cbn [rbind].
  destruct (Nat.eqb_spec (Mi * numel [No * 4]) 0) as [E|_];
    [cbn in E; nia|].
  intros H. injection H as <-.
  constructor; cbn; try lia; try reflexivity.
  - destruct f; auto.
  - intros b Hb. destruct wb; [|discriminate]. injection Hb as <-. reflexivity.
  - destruct nin; cbn; auto.
  - destruct nout; cbn; auto.
Qed.

(* ================================================================= *)
(** ** Output shapes *)

(** C1, amended.  For [x] of shape [[*B, in_features]] and [components] of
    shape [[*B, modes_in, in_features]] with elements (no batch axis of
    size 0, [out_features > 0]), [forward] returns [transformed_x] of shape
    [[*B, out_features]] and [param_quads] of shape
    [[*B, modes_out, 4, out_features]]: the last axis is [out_features]
    whether the emission weights are shared or not. *)
Theorem forward_output_shapes (L : DyNAThetaLinear) (x components : tensor) (B : list nat) :
  wf_layer L ->
  shape x = B ++ [in_features L] ->
  shape components = B ++ [theta_modes_in L; in_features L] ->
  Forall (lt 0) B ->
  0 < out_features L ->
  exists tx pq,
    run (forward x components) L = Ok (tx, pq) /\
    shape tx = B ++ [out_features L] /\
    shape pq = B ++ [theta_modes_out L; 4; out_features L].
Proof.
  intros Hwf Hx Hc HB HO.
  destruct (forward_ok L x components B Hwf Hc Hx HB HO)
    as (tx & pq & R & _ & _ & Stx & Spq).
  exists tx, pq. split; [apply returns_run; exact R|]. split; assumption.
Qed.

Lemma forward_output_shapes_witness :
  exists tx pq,
    run (forward demo_x demo_components) (demo 4 3 2 2 true true true ones)
      = Ok (tx, pq) /\
    shape tx = [2; 3] /\ shape pq = [2; 2; 4; 3].
Proof.
  apply (forward_output_shapes (demo 4 3 2 2 true true true ones)
           demo_x demo_components [2]).
  - apply demo_wf; lia.
  - reflexivity.
  - reflexivity.
  - repeat constructor.
  - cbn. lia.
Defined.

(** C1 as stated fails: with shared emission weights
    ([theta_full_features=False], [theta_feautures = 1]) and 3 output
    neurons the last axis of [param_quads] has size 3, not 1; and on an
    empty batch the call raises. *)
Lemma forward_output_shapes_counterexample :
  __init__ 4 3 2 2 false true true true ones
    = Ok (demo 4 3 2 2 false true true ones) /\
  theta_feautures (demo 4 3 2 2 false true true ones) = 1 /\
  rshapes (run (forward demo_x demo_components) (demo 4 3 2 2 false true true ones))
    = Ok ([2; 3], [2; 2; 4; 3]) /\
  rshapes (run (forward demo_x demo_components) (demo 4 3 2 2 false true true ones))
    <> Ok ([2; 3], [2; 2; 4; 1]) /\
  run (forward (full [0; 4] 1%R) (full [0; 2; 4] 1%R))
      (demo 4 3 2 2 false true true ones) = Err RuntimeError.
Proof.
  split; [reflexivity|]. split; [reflexivity|].
  split; [vm_compute; reflexivity|].
  split; [vm_compute; discriminate|].
  vm_compute. reflexivity.
Qed.

(* ================================================================= *)
(** ** Steps 1 and 2: the weighted components *)

(** C2, amended.  [components] of shape [[..., modes_in, in_features]] is
    rearranged to [[..., 1, in_features, modes_in]]: the input-neuron axis
    is second-to-last and the mode axis last, after a singleton
    output-neuron axis.  The product with [individual_sensetivity]
    ([[out, in, 1]]) has shape [[..., out, in, modes_in]] and its
    [(o, i, m)] entry is
    [individual_sensetivity[o, i, 0] * components[..., m, i]]. *)
Theorem weighted_components (L : DyNAThetaLinear) (components : tensor) (B : list nat) :
  wf_layer L ->
  shape components = B ++ [theta_modes_in L; in_features L] ->
  exists cpi w,
    run (components_per_input components) L = Ok cpi /\
    shape cpi = B ++ [1; in_features L; theta_modes_in L] /\
    (forall bi i m, length bi = length B ->
       entry cpi (bi ++ [0; i; m]) = entry components (bi ++ [m; i])) /\
    run (individual_sensetivity_weighted components) L = Ok w /\
    shape w = B ++ [out_features L; in_features L; theta_modes_in L] /\
    forall bi o i m,
      valid_index B bi ->
      o < out_features L -> i < in_features L -> m < theta_modes_in L ->
      entry w (bi ++ [o; i; m]) =
      (entry (individual_sensetivity L) [o; i; 0%nat]
       * entry components (bi ++ [m; i]))%R.
Proof.
  intros Hwf Hc.
  destruct (components_per_input_ok L components B Hc) as (cpi & R1 & S1 & E1).
  destruct (individual_sensetivity_weighted_ok L components B Hwf Hc)
    as (w & R2 & S2 & E2).
  exists cpi, w. repeat split; try assumption.
  - apply returns_run. exact R1.
  - intros bi i m Hb. apply E1. exact Hb.
  - apply returns_run. exact R2.
Qed.

Lemma weighted_components_witness :
  exists cpi w,
    run (components_per_input demo_components) (demo 4 3 2 2 true true true ones)
      = Ok cpi /\
    shape cpi = [2; 1; 4; 2] /\
    (forall bi i m, length bi = 1 ->
       entry cpi (bi ++ [0; i; m]) = entry demo_components (bi ++ [m; i])) /\
    run (individual_sensetivity_weighted demo_components)
        (demo 4 3 2 2 true true true ones) = Ok w /\
    shape w = [2; 3; 4; 2] /\
    forall bi o i m,
      valid_index [2] bi -> o < 3 -> i < 4 -> m < 2 ->
      entry w (bi ++ [o; i; m]) =
      (entry (individual_sensetivity (demo 4 3 2 2 true true true ones)) [o; i; 0%nat]
       * entry demo_components (bi ++ [m; i]))%R.
Proof.
  apply (weighted_components (demo 4 3 2 2 true true true ones)
           demo_components [2]).
  - apply demo_wf; lia.
  - reflexivity.
Defined.

(** C2 as stated fails: for [components] of shape [[2, 2, 4]]
    ([modes_in = 2], [in_features = 4]) the rearranged tensor has shape
    [[2, 1, 4, 2]], not [[2, 1, 2, 4]]. *)
Lemma weighted_components_counterexample :
  shape demo_components = [2; 2; 4] /\
  rshape (run (components_per_input demo_components)
              (demo 4 3 2 2 true true true ones)) = Ok [2; 1; 4; 2] /\
  rshape (run (components_per_input demo_components)
              (demo 4 3 2 2 true true true ones)) <> Ok [2; 1; 2; 4].
Proof.
  split; [reflexivity|]. split; [vm_compute; reflexivity|].
  vm_compute. discriminate.
Qed.

(* ================================================================= *)
(** ** Steps 3 and 7: the cumulative environments *)

(** C3.  The cumulative input-side environment is the sum of
    [individual_sensetivity_weighted] over the output-neuron axis, of
    shape [[..., in, modes_in]]; the cumulative output-side environment is
    the sum of the same tensor over the input-neuron axis, of shape
    [[..., out, modes_in]]. *)
Theorem cumulative_environments (L : DyNAThetaLinear) (components : tensor) (B : list nat) :
  wf_layer L ->
  shape components = B ++ [theta_modes_in L; in_features L] ->
  exists w cei ceo,
    run (individual_sensetivity_weighted components) L = Ok w /\
    run (cumulative_env_inputs components) L = Ok cei /\
    run (cumulative_env_outputs components) L = Ok ceo /\
    shape cei = B ++ [in_features L; theta_modes_in L] /\
    shape ceo = B ++ [out_features L; theta_modes_in L] /\
    (forall bi i m, length bi = length B ->
       entry cei (bi ++ [i; m]) =
       sum_upto (out_features L) (fun o => entry w (bi ++ [o; i; m]))) /\
    (forall bi o m, length bi = length B ->
       entry ceo (bi ++ [o; m]) =
       sum_upto (in_features L) (fun i => entry w (bi ++ [o; i; m]))).
Proof.
  intros Hwf Hc.
  destruct (individual_sensetivity_weighted_ok L components B Hwf Hc)
    as (w & Rw & _).
  destruct (cumulative_env_inputs_ok L components B Hwf Hc w Rw)
    as (cei & R1 & S1 & E1).
  destruct (cumulative_env_outputs_ok L components B Hwf Hc w Rw)
    as (ceo & R2 & S2 & E2).
  exists w, cei, ceo.
  repeat split; try assumption; apply returns_run; assumption.
Qed.

Lemma cumulative_environments_witness :
  exists w cei ceo,
    run (individual_sensetivity_weighted demo_components)
        (demo 4 3 2 2 true true true ones) = Ok w /\
    run (cumulative_env_inputs demo_components)
        (demo 4 3 2 2 true true true ones) = Ok cei /\
    run (cumulative_env_outputs demo_components)
        (demo 4 3 2 2 true true true ones) = Ok ceo /\
    shape cei = [2; 4; 2] /\
    shape ceo = [2; 3; 2] /\
    (forall bi i m, length bi = 1 ->
       entry cei (bi ++ [i; m]) =
       sum_upto 3 (fun o => entry w (bi ++ [o; i; m]))) /\
    (forall bi o m, length bi = 1 ->
       entry ceo (bi ++ [o; m]) =
       sum_upto 4 (fun i => entry w (bi ++ [o; i; m]))).
Proof.
  apply (cumulative_environments (demo 4 3 2 2 true true true ones)
           demo_components [2]).
  - apply demo_wf; lia.
  - reflexivity.
Defined.

(* ================================================================= *)
(** ** Steps 5 and 6: the perceptual signal and the projection *)

(** C4.  [perceptual_x[..., i]] is the sum over the modes [m] of
    [x[..., i] * env_normalized[..., i, m] * perception[i, m, 0]], plus
    [perceptual_bias[i]], of shape [[..., in_features]]; [transformed_x] is
    the affine map of [weight] and [bias] applied to it, of shape
    [[..., out_features]]. *)
Theorem perceptual_signal_and_projection
    (L : DyNAThetaLinear) (x components : tensor) (B : list nat) :
  wf_layer L ->
  shape x = B ++ [in_features L] ->
  shape components = B ++ [theta_modes_in L; in_features L] ->
  exists en px tx,
    run (env_normalized components) L = Ok en /\
    run (perceptual_x x components) L = Ok px /\
    run (transformed_x x components) L = Ok tx /\
    shape px = B ++ [in_features L] /\
    shape tx = B ++ [out_features L] /\
    (forall bi i, valid_index B bi -> i < in_features L ->
       entry px (bi ++ [i]) =
       (sum_upto (theta_modes_in L) (fun m =>
          entry x (bi ++ [i]) * entry en (bi ++ [i; m])
          * entry (perception L) [i; m; 0%nat])
        + entry (perceptual_bias L) [i])%R) /\
    (forall bi o,
       entry tx (bi ++ [o]) =
       (sum_upto (in_features L) (fun i =>
          entry px (bi ++ [i]) * entry (weight L) [o; i])
        + bias_term (bias L) o)%R).
Proof.
  intros Hwf Hx Hc.
  destruct (env_chain L components B Hwf Hc)
    as (w & cei & es & eb & en & _ & _ & _ & _ & Ren).
  destruct (perceptual_x_ok L x components B Hwf Hc Hx en Ren)
    as (px & Rpx & Spx & Epx).
  destruct (transformed_x_ok L x components B Hwf Hc Hx px Rpx)
    as (tx & Rtx & Stx & Etx).
  exists en, px, tx.
  repeat split; try assumption; apply returns_run; assumption.
Qed.

Lemma perceptual_signal_and_projection_witness :
  exists en px tx,
    run (env_normalized demo_components) (demo 4 3 2 2 true true true ones) = Ok en /\
    run (perceptual_x demo_x demo_components) (demo 4 3 2 2 true true true ones)
      = Ok px /\
    run (transformed_x demo_x demo_components) (demo 4 3 2 2 true true true ones)
      = Ok tx /\
    shape px = [2; 4] /\
    shape tx = [2; 3] /\
    (forall bi i, valid_index [2] bi -> i < 4 ->
       entry px (bi ++ [i]) =
       (sum_upto 2 (fun m =>
          entry demo_x (bi ++ [i]) * entry en (bi ++ [i; m])
          * entry (perception (demo 4 3 2 2 true true true ones)) [i; m; 0%nat])
        + entry (perceptual_bias (demo 4 3 2 2 true true true ones)) [i])%R) /\
    (forall bi o,
       entry tx (bi ++ [o]) =
       (sum_upto 4 (fun i =>
          entry px (bi ++ [i]) * entry (weight (demo 4 3 2 2 true true true ones)) [o; i])
        + bias_term (bias (demo 4 3 2 2 true true true ones)) o)%R).
Proof.
  apply (perceptual_signal_and_projection (demo 4 3 2 2 true true true ones)
           demo_x demo_components [2]).
  - apply demo_wf; lia.
  - reflexivity.
  - reflexivity.
Defined.

(* ================================================================= *)
(** ** forward leaves the layer as it was *)

(** C9.  A call to [forward] writes no attribute of the layer: whatever
    the inputs, and whether it returns or raises, the instance after the
    call is the instance before it, so every parameter and every
    configuration field is unchanged. *)
Theorem forward_mutates_nothing (x components : tensor) (L : DyNAThetaLinear) :
  after (forward x components) L = L.
Proof. apply forward_read_only. Qed.

(* ================================================================= *)
(** ** transformed_x and the emission parameters *)

Lemma emission_blind_ret {A} (a : A) : emission_blind (ret a).
Proof. intros L e s b. split; reflexivity. Qed.

Lemma emission_blind_lift {A} (r : result A) : emission_blind (lift r).
Proof. intros L e s b. split; reflexivity. Qed.

Lemma emission_blind_attr {A} (g : DyNAThetaLinear -> A) :
  (forall L e s b, g (with_emission L e s b) = g L) ->
  emission_blind (attr g).
Proof.
  intros Hg L e s b. unfold run, after, attr. cbn. rewrite Hg. split; reflexivity.
Qed.

Lemma emission_blind_bind {A B} (m : M A) (f : A -> M B) :
  emission_blind m -> (forall a, emission_blind (f a)) ->
  emission_blind (bind m f).
Proof.
  intros Hm Hf L e s b. destruct (Hm L e s b) as [Hr Ha].
  unfold run, after, bind in *.
  destruct (m L) as [r0 s0]. destruct (m (with_emission L e s b)) as [r1 s1].
  cbn in Hr, Ha. subst r1 s1.
  destruct r0 as [a|err]; [|split; reflexivity].
  apply (Hf a s0 e s b).
Qed.

Create HintDb blind.
#[export] Hint Resolve emission_blind_ret emission_blind_lift : blind.
#[export] Hint Extern 1 (emission_blind (attr _)) =>
  apply emission_blind_attr; reflexivity : blind.
#[export] Hint Extern 2 (emission_blind (bind _ _)) =>
  apply emission_blind_bind; [ | intro ] : blind.

Lemma transformed_x_emission_blind (x components : tensor) :
  emission_blind (transformed_x x components).
Proof.
  unfold transformed_x, perceptual_x, env_normalized, env_biased, env_sensed,
    cumulative_env_inputs, individual_sensetivity_weighted, components_per_input.
  auto 40 with blind.
Qed.

Lemma forward_transformed_x (x components : tensor) (L : DyNAThetaLinear)
    (tx pq : tensor) :
  run (forward x components) L = Ok (tx, pq) ->
  run (transformed_x x components) L = Ok tx.
Proof.
  unfold forward, run, bind, ret.
  destruct (transformed_x x components L) as [[tx'|e] s']; cbn; [|discriminate].
  destruct (param_quads x components s') as [[pq'|e] s'']; cbn; [|discriminate].
  intros H. injection H as -> _. reflexivity.
Qed.

Lemma with_emission_wf (L : DyNAThetaLinear) (e s b : tensor) :
  wf_layer L ->
  shape e = [theta_feautures L; theta_modes_in L; theta_quad_out L] ->
  shape s = [out_features L; theta_quad_out L] ->
  shape b = [out_features L; theta_quad_out L] ->
  wf_layer (with_emission L e s b).
Proof.
  intros [] He Hs Hb. constructor; cbn; assumption.
Qed.

(** C10.  [transformed_x] does not depend on the emission parameters:
    with [emission], [emission_scale] and [emission_bias] replaced by any
    other tensors and everything else the same, [transformed_x] is computed
    to the same result, and two calls of [forward] that return give the
    same [transformed_x]. *)
Theorem transformed_x_ignores_emission
    (L : DyNAThetaLinear) (e s b x components : tensor) :
  run (transformed_x x components) (with_emission L e s b)
    = run (transformed_x x components) L /\
  forall tx1 pq1 tx2 pq2,
    run (forward x components) L = Ok (tx1, pq1) ->
    run (forward x components) (with_emission L e s b) = Ok (tx2, pq2) ->
    tx1 = tx2.
Proof.
  assert (H : run (transformed_x x components) (with_emission L e s b)
              = run (transformed_x x components) L)
    by apply (transformed_x_emission_blind x components L e s b).
  split; [exact H|].
  intros tx1 pq1 tx2 pq2 H1 H2.
  apply forward_transformed_x in H1, H2. rewrite H, H1 in H2.
  now injection H2.
Qed.

Lemma transformed_x_ignores_emission_witness :
  exists tx1 pq1 tx2 pq2,
    run (forward demo_x demo_components) (demo 4 3 2 2 true true true ones)
      = Ok (tx1, pq1) /\
    run (forward demo_x demo_components)
        (with_emission (demo 4 3 2 2 true true true ones)
           (full [3; 2; 8] 0%R) (full [3; 8] 2%R) (full [3; 8] 1%R))
      = Ok (tx2, pq2) /\
    tx1 = tx2.
Proof.
  assert (Hwf : wf_layer (demo 4 3 2 2 true true true ones))
    by (apply demo_wf; lia).
  destruct (forward_ok (demo 4 3 2 2 true true true ones)
              demo_x demo_components [2] Hwf eq_refl eq_refl)
    as (tx1 & pq1 & R1 & _); [repeat constructor|cbn; lia|].
  destruct (forward_ok (with_emission (demo 4 3 2 2 true true true ones)
                          (full [3; 2; 8] 0%R) (full [3; 8] 2%R) (full [3; 8] 1%R))
              demo_x demo_components [2]
              (with_emission_wf (demo 4 3 2 2 true true true ones)
                 (full [3; 2; 8] 0%R) (full [3; 8] 2%R) (full [3; 8] 1%R)
                 Hwf eq_refl eq_refl eq_refl)
              eq_refl eq_refl)
    as (tx2 & pq2 & R2 & _); [repeat constructor|cbn; lia|].
  apply returns_run in R1, R2.
  exists tx1, pq1, tx2, pq2. split; [exact R1|]. split; [exact R2|].
  exact (proj2 (transformed_x_ignores_emission
                  (demo 4 3 2 2 true true true ones)
                  (full [3; 2; 8] 0%R) (full [3; 8] 2%R) (full [3; 8] 1%R)
                  demo_x demo_components) tx1 pq1 tx2 pq2 R1 R2).
Defined.

(* ================================================================= *)
(** ** Normalisation switched off *)

Lemma bind_congr {A B} (m m' : M A) (f : A -> M B) (L : DyNAThetaLinear) :
  m L = m' L -> bind m f L = bind m' f L.
Proof. unfold bind. now intros ->. Qed.

Lemma bind_congr_read_only {A B} (m m' : M A) (f f' : A -> M B) (L : DyNAThetaLinear) :
  m L = m' L -> read_only m -> (forall a, f a L = f' a L) ->
  bind m f L = bind m' f' L.
Proof.
  intros Hm Hro Hf. unfold bind. rewrite <- Hm.
  specialize (Hro L). unfold after in Hro.
  destruct (m L) as [[a|e] s']; cbn in Hro; subst s'; [apply Hf|reflexivity].
Qed.

Lemma bind_identity_norm (m : M tensor) (g : DyNAThetaLinear -> norm_module)
    (L : DyNAThetaLinear) :
  read_only m -> g L = Identity ->
  bind m (fun t => bind (attr g) (fun n => lift (apply_norm n t))) L = m L.
Proof.
  intros Hro Hg. unfold bind, attr, lift.
  specialize (Hro L). unfold after in Hro.
  destruct (m L) as [[a|e] s']; cbn in Hro; subst s'; [|reflexivity].
  rewrite Hg. reflexivity.
Qed.

Lemma wf_norm_off (s : list nat) (n : norm_module) :
  wf_norm false s n -> n = Identity.
Proof.
  destruct n as [|ns eps w b]; [reflexivity|]. cbn. intros (H & _). discriminate.
Qed.

Section NormOff.

Variables (L : DyNAThetaLinear) (x components : tensor).

Hypothesis Hin : norm_env_input L = Identity.

Lemma env_normalized_off :
  env_normalized components L = env_biased components L.
Proof.
  unfold env_normalized.
  apply (bind_identity_norm (env_biased components) norm_env_input L).
  - apply env_biased_read_only.
  - exact Hin.
Qed.

Lemma perceptual_x_off :
  perceptual_x x components L = NoNorm.perceptual_x x components L.
Proof.
  unfold perceptual_x, NoNorm.perceptual_x.
  apply bind_congr. exact env_normalized_off.
Qed.

Lemma transformed_x_off :
  transformed_x x components L = NoNorm.transformed_x x components L.
Proof.
  unfold transformed_x, NoNorm.transformed_x.
  apply bind_congr. exact perceptual_x_off.
Qed.

Lemma modulated_env_gated_off :
  modulated_env_gated x components L = NoNorm.modulated_env x components L.
Proof.
  unfold modulated_env_gated, NoNorm.modulated_env.
  apply bind_congr. exact transformed_x_off.
Qed.

Hypothesis Hout : norm_env_output L = Identity.

Lemma modulated_env_off :
  modulated_env x components L = modulated_env_gated x components L.
Proof.
  unfold modulated_env.
  apply (bind_identity_norm (modulated_env_gated x components) norm_env_output L).
  - apply modulated_env_gated_read_only.
  - exact Hout.
Qed.

Lemma emission_raw_off :
  emission_raw x components L = NoNorm.emission_raw x components L.
Proof.
  unfold emission_raw, NoNorm.emission_raw. apply bind_congr.
  rewrite modulated_env_off. exact modulated_env_gated_off.
Qed.

Lemma emission_scaled_off :
  emission_scaled x components L = NoNorm.emission_scaled x components L.
Proof.
  unfold emission_scaled, NoNorm.emission_scaled.
  apply bind_congr. exact emission_raw_off.
Qed.

Lemma emission_biased_off :
  emission_biased x components L = NoNorm.emission_biased x components L.
Proof.
  unfold emission_biased, NoNorm.emission_biased.
  apply bind_congr. exact emission_scaled_off.
Qed.

Lemma param_quads_off :
  param_quads x components L = NoNorm.param_quads x components L.
Proof.
  unfold param_quads, NoNorm.param_quads.
  apply bind_congr. exact emission_biased_off.
Qed.

Lemma forward_off :
  forward x components L = NoNorm.forward x components L.
Proof.
  unfold forward, NoNorm.forward.
  apply bind_congr_read_only.
  - exact transformed_x_off.
  - apply transformed_x_read_only.
  - intros tx. apply bind_congr. exact param_quads_off.
Qed.

End NormOff.

(** C6.  With both normalisation flags off the two normalisation steps
    are the identity: [env_normalized] is [env_biased], the gated tensor
    after the output normalisation is
    [cumulative_env_outputs * transformed_x], and [forward] computes what
    the pipeline without the two normalisation steps computes. *)
Theorem normalization_off_is_identity
    (L : DyNAThetaLinear) (x components : tensor) :
  wf_layer L ->
  theta_normalize_env_input L = false ->
  theta_normalize_env_output L = false ->
  run (env_normalized components) L = run (env_biased components) L /\
  run (modulated_env x components) L = run (modulated_env_gated x components) L /\
  run (forward x components) L = run (NoNorm.forward x components) L /\
  forall B,
    shape x = B ++ [in_features L] ->
    shape components = B ++ [theta_modes_in L; in_features L] ->
    exists ceo tx me,
      run (cumulative_env_outputs components) L = Ok ceo /\
      run (transformed_x x components) L = Ok tx /\
      run (modulated_env x components) L = Ok me /\
      forall bi o m,
        valid_index B bi -> o < out_features L -> m < theta_modes_in L ->
        entry me (bi ++ [o; m]) =
        (entry ceo (bi ++ [o; m]) * entry tx (bi ++ [o]))%R.
Proof.
  intros Hwf Hi Ho.
  assert (Hin : norm_env_input L = Identity).
  { apply (wf_norm_off [in_features L; theta_modes_in L]).
    rewrite <- Hi. apply (wf_norm_in L Hwf). }
  assert (Hout : norm_env_output L = Identity).
  { apply (wf_norm_off [out_features L; theta_modes_in L]).
    rewrite <- Ho. apply (wf_norm_out L Hwf). }
  unfold run.
  rewrite (env_normalized_off L components Hin).
  rewrite (modulated_env_off L x components Hout).
  rewrite (forward_off L x components Hin Hout).
  repeat split.
  intros B Hx Hc.
  destruct (gated_chain L x components B Hwf Hc Hx)
    as (w & ceo & tx & meg & _ & Rceo & Rtx & Rmeg & _).
  destruct (modulated_env_gated_ok L x components B Hwf Hc Hx tx ceo Rtx Rceo)
    as (meg' & Rmeg' & _ & E).
  rewrite <- (returns_inj _ _ _ _ Rmeg Rmeg') in E.
  exists ceo, tx, meg. unfold returns in *.
  rewrite Rceo, Rtx, Rmeg. repeat split. exact E.
Qed.

Lemma normalization_off_is_identity_witness :
  run (env_normalized demo_components) (demo 4 3 2 2 true false false ones)
    = run (env_biased demo_components) (demo 4 3 2 2 true false false ones) /\
  run (modulated_env demo_x demo_components) (demo 4 3 2 2 true false false ones)
    = run (modulated_env_gated demo_x demo_components)
          (demo 4 3 2 2 true false false ones) /\
  run (forward demo_x demo_components) (demo 4 3 2 2 true false false ones)
    = run (NoNorm.forward demo_x demo_components)
          (demo 4 3 2 2 true false false ones) /\
  exists ceo tx me,
    run (cumulative_env_outputs demo_components)
        (demo 4 3 2 2 true false false ones) = Ok ceo /\
    run (transformed_x demo_x demo_components)
        (demo 4 3 2 2 true false false ones) = Ok tx /\
    run (modulated_env demo_x demo_components)
        (demo 4 3 2 2 true false false ones) = Ok me /\
    forall bi o m,
      valid_index [2] bi -> o < 3 -> m < 2 ->
      entry me (bi ++ [o; m]) =
      (entry ceo (bi ++ [o; m]) * entry tx (bi ++ [o]))%R.
Proof.
  destruct (normalization_off_is_identity (demo 4 3 2 2 true false false ones)
              demo_x demo_components) as (H1 & H2 & H3 & H4).
  - apply demo_wf; lia.
  - reflexivity.
  - reflexivity.
  - repeat split; try assumption.
    exact (H4 [2] eq_refl eq_refl).
Defined.

(* ================================================================= *)
(** ** A layer without individual sensitivity *)

Lemma all_indices_valid (s j : list nat) :
  In j (all_indices s) -> valid_index s j.
Proof.
  revert j. induction s as [|d s IH]; intros j H; cbn in H.
  - destruct H as [<-|[]]. constructor.
  - apply in_flat_map in H. destruct H as (i & Hi & Hj).
    apply in_map_iff in Hj. destruct Hj as (j' & <- & Hj').
    apply in_seq in Hi. constructor; [lia|]. apply IH. exact Hj'.
Qed.

Lemma sum_list_zero (l : list R) :
  (forall v, In v l -> v = 0%R) -> sum_list l = 0%R.
Proof.
  unfold sum_list. induction l as [|v l IH]; intros H; [reflexivity|].
  cbn [fold_right]. rewrite (H v) by (left; reflexivity).
  rewrite IH by (intros u Hu; apply H; right; exact Hu). lra.
Qed.

Lemma mean_zero (l : list R) :
  (forall v, In v l -> v = 0%R) -> mean l = 0%R.
Proof.
  intros H. unfold mean. rewrite sum_list_zero by exact H.
  unfold Rdiv. apply Rmult_0_l.
Qed.

(** Layer normalisation of a slice of zeros leaves the bias. *)
Lemma layer_norm_zero_slice (t : tensor) (ns bi ni : list nat) (eps : R) (lw lb : tensor) :
  (forall j, valid_index ns j -> entry t (bi ++ j) = 0%R) ->
  valid_index ns ni ->
  (let xs := map (fun j => entry t (bi ++ j)) (all_indices ns) in
   let mu := mean xs in
   let var := mean (map (fun v => (v - mu) * (v - mu))%R xs) in
   (entry t (bi ++ ni) - mu) / sqrt (var + eps) * entry lw ni + entry lb ni)%R
  = entry lb ni.
Proof.
  intros Hz Hni. cbv zeta.
  assert (Hmu : mean (map (fun j => entry t (bi ++ j)) (all_indices ns)) = 0%R).
  { apply mean_zero. intros v Hv. apply in_map_iff in Hv.
    destruct Hv as (j & <- & Hj). apply Hz. apply all_indices_valid. exact Hj. }
  rewrite Hmu, (Hz ni Hni).
  replace (0 - 0)%R with 0%R by lra.
  unfold Rdiv. rewrite !Rmult_0_l. lra.
Qed.

Lemma valid_index_app_inv (s1 s2 idx : list nat) :
  valid_index (s1 ++ s2) idx ->
  exists i1 i2, idx = i1 ++ i2 /\ valid_index s1 i1 /\ valid_index s2 i2.
Proof.
  intros H. apply Forall2_app_inv_r in H.
  destruct H as (i1 & i2 & H1 & H2 & ->). exists i1, i2. auto.
Qed.

Lemma valid_index_2 (a b : nat) (idx : list nat) :
  valid_index [a; b] idx -> exists i j, idx = [i; j] /\ i < a /\ j < b.
Proof.
  intros H. inversion H as [|i a' l1 l1' Hi H1]; subst.
  inversion H1 as [|j b' l2 l2' Hj H2]; subst. inversion H2; subst.
  exists i, j. auto.
Qed.

Lemma valid_index_3 (a b c : nat) (idx : list nat) :
  valid_index [a; b; c] idx ->
  exists i j k, idx = [i; j; k] /\ i < a /\ j < b /\ k < c.
Proof.
  intros H. inversion H as [|i a' l1 l1' Hi H1]; subst.
  apply valid_index_2 in H1. destruct H1 as (j & k & -> & Hj & Hk).
  exists i, j, k. auto.
Qed.

Lemma with_norm_env_output_wf (L : DyNAThetaLinear) (eps : R) (lw lb : tensor) :
  wf_layer L ->
  theta_normalize_env_output L = true ->
  shape lw = [out_features L; theta_modes_in L] ->
  shape lb = [out_features L; theta_modes_in L] ->
  wf_layer (with_norm_env_output L
              (LayerNorm [out_features L; theta_modes_in L] eps lw lb)).
Proof.
  intros [] Hf Hw Hb. constructor; cbn; try assumption. auto.
Qed.

Section ZeroSensitivity.

Variables (L : DyNAThetaLinear) (x components : tensor) (B : list nat).

Hypothesis Hwf : wf_layer L.
Hypothesis Hc : shape components = B ++ [theta_modes_in L; in_features L].
Hypothesis Hz : all_zero (individual_sensetivity L).

Local Abbreviation I := (in_features L).
Local Abbreviation O := (out_features L).
Local Abbreviation Mi := (theta_modes_in L).
Local Abbreviation No := (theta_modes_out L).
Local Abbreviation Fe := (theta_feautures L).

Lemma zero_weighted :
  forall w, returns (individual_sensetivity_weighted components) L w ->
  forall bi o i m, valid_index B bi -> o < O -> i < I -> m < Mi ->
    entry w (bi ++ [o; i; m]) = 0%R.
Proof.
  intros w Rw bi o i m Hv Ho Hi Hm.
  destruct (individual_sensetivity_weighted_ok L components B Hwf Hc)
    as (w' & Rw' & _ & E).
  rewrite (returns_inj _ _ _ _ Rw Rw').
  rewrite E by assumption. rewrite Hz.
  - apply Rmult_0_l.
  - rewrite (wf_individual L Hwf). repeat constructor; assumption.
Qed.

Lemma zero_weighted_all :
  forall w, returns (individual_sensetivity_weighted components) L w ->
  all_zero w.
Proof.
  intros w Rw idx Hv.
  destruct (individual_sensetivity_weighted_ok L components B Hwf Hc)
    as (w' & Rw' & S & _).
  rewrite <- (returns_inj _ _ _ _ Rw Rw') in S. rewrite S in Hv.
  apply valid_index_app_inv in Hv. destruct Hv as (bi & ti & -> & Hb & Ht).
  apply valid_index_3 in Ht. destruct Ht as (o & i & m & -> & Ho & Hi & Hm).
  apply zero_weighted; assumption.
Qed.

Lemma zero_env_biased :
  forall eb, returns (env_biased components) L eb ->
  forall bi i m, valid_index B bi -> i < I -> m < Mi ->
    entry eb (bi ++ [i; m]) = entry (env_bias L) [i; m].
Proof.
  intros eb Reb bi i m Hv Hi Hm.
  pose proof (valid_index_length B bi Hv) as Hlen.
  destruct (individual_sensetivity_weighted_ok L components B Hwf Hc)
    as (w & Rw & _).
  destruct (cumulative_env_inputs_ok L components B Hwf Hc w Rw)
    as (cei & Rcei & _ & Ecei).
  destruct (env_sensed_ok L components B Hwf Hc cei Rcei)
    as (es & Res & _ & Ees).
  destruct (env_biased_ok L components B Hwf Hc es Res)
    as (eb' & Reb' & _ & Eeb).
  rewrite (returns_inj _ _ _ _ Reb Reb').
  rewrite Eeb, Ees, Ecei by assumption.
  rewrite sum_upto_zero.
  - lra.
  - intros o Ho. apply (zero_weighted w Rw); assumption.
Qed.

Hypothesis Hx : shape x = B ++ [in_features L].

Lemma zero_modulated_env_gated :
  forall meg, returns (modulated_env_gated x components) L meg ->
  forall bi o m, valid_index B bi -> o < O -> m < Mi ->
    entry meg (bi ++ [o; m]) = 0%R.
Proof.
  intros meg Rm bi o m Hv Ho Hm.
  pose proof (valid_index_length B bi Hv) as Hlen.
  destruct (gated_chain L x components B Hwf Hc Hx)
    as (w & ceo & tx & meg' & Rw & Rceo & Rtx & Rmeg & _).
  destruct (cumulative_env_outputs_ok L components B Hwf Hc w Rw)
    as (ceo' & Rceo' & _ & Eceo).
  rewrite <- (returns_inj _ _ _ _ Rceo Rceo') in Eceo.
  destruct (modulated_env_gated_ok L x components B Hwf Hc Hx tx ceo Rtx Rceo)
    as (meg'' & Rmeg'' & _ & Emeg).
  rewrite (returns_inj _ _ _ _ Rm Rmeg'').
  rewrite Emeg, Eceo by assumption.
  rewrite sum_upto_zero.
  - apply Rmult_0_l.
  - intros i Hi. apply (zero_weighted w Rw); assumption.
Qed.

Lemma zero_modulated_env :
  forall me, returns (modulated_env x components) L me ->
  forall bi o m, valid_index B bi -> o < O -> m < Mi ->
    entry me (bi ++ [o; m]) = norm_of_zero (norm_env_output L) o m.
Proof.
  intros me Rme bi o m Hv Ho Hm.
  pose proof (valid_index_length B bi Hv) as Hlen.
  destruct (gated_chain L x components B Hwf Hc Hx)
    as (w & ceo & tx & meg & _ & _ & _ & Rmeg & Smeg).
  destruct (modulated_env_ok L x components B Hwf Hc Hx meg Rmeg)
    as (me' & Rme' & _ & Pme).
  rewrite (returns_inj _ _ _ _ Rme Rme').
  pose proof (wf_norm_out L Hwf) as Hn.
  destruct (norm_env_output L) as [|ns eps lw lb]; cbn in *.
  - injection Pme as <-. apply (zero_modulated_env_gated meg Rmeg); assumption.
  - destruct Hn as (_ & -> & _ & _).
    destruct (layer_norm_ok [O; Mi] eps lw lb meg B Smeg) as (t & P & _ & E).
    rewrite P in Pme. injection Pme as <-.
    rewrite E by exact Hlen.
    apply layer_norm_zero_slice.
    + intros j Hj. apply valid_index_2 in Hj.
      destruct Hj as (o' & m' & -> & Ho' & Hm').
      apply (zero_modulated_env_gated meg Rmeg); assumption.
    + repeat constructor; assumption.
Qed.

Hypothesis Hbatch : Forall (lt 0) B.
Hypothesis Hout : 0 < out_features L.

Lemma zero_param_quads :
  forall pq, returns (param_quads x components) L pq ->
  forall bi n q o, valid_index B bi -> n < No -> q < 4 -> o < O ->
    entry pq (bi ++ [n; q; o]) =
    (sum_upto Mi (fun m =>
       norm_of_zero (norm_env_output L) o m
       * entry (emission L) [clamp Fe o; m; (n * 4 + q)%nat])
     * entry (emission_scale L) [o; (n * 4 + q)%nat]
     + entry (emission_bias L) [o; (n * 4 + q)%nat])%R.
Proof.
  intros pq Rpq bi n q o Hv Hn Hq Ho.
  assert (Hk : n * 4 + q < No * 4) by lia.
  destruct (emission_chain L x components B Hwf Hc Hx)
    as (me & er & es & eb & Rme & Rer & Res & Reb & _).
  destruct (emission_raw_ok L x components B Hwf Hc Hx me Rme)
    as (er' & Rer' & _ & Eer).
  rewrite <- (returns_inj _ _ _ _ Rer Rer') in Eer.
  destruct (emission_scaled_ok L x components B Hwf Hc Hx er Rer)
    as (es' & Res' & _ & Ees).
  rewrite <- (returns_inj _ _ _ _ Res Res') in Ees.
  destruct (emission_biased_ok L x components B Hwf Hc Hx es Res)
    as (eb' & Reb' & _ & Eeb).
  rewrite <- (returns_inj _ _ _ _ Reb Reb') in Eeb.
  destruct (param_quads_ok L x components B Hwf Hc Hx Hbatch Hout eb Reb)
    as (pq' & Rpq' & _ & Epq).
  rewrite (returns_inj _ _ _ _ Rpq Rpq').
  rewrite Epq, Eeb, Ees, Eer by assumption.
  f_equal. f_equal. apply sum_upto_ext. intros m Hm.
  rewrite (zero_modulated_env me Rme) by assumption. reflexivity.
Qed.

End ZeroSensitivity.

(** C7, amended.  If [individual_sensetivity] is all-zero then
    [individual_sensetivity_weighted] is all-zero and [env_biased] is
    [env_bias] broadcast over the batch; [perceptual_x[..., i]] is
    [perceptual_bias[i]] plus the sum over the modes of
    [x[..., i] * env_normalized[..., i, m] * perception[i, m, 0]], where
    [env_normalized] is the input normalisation of that broadcast
    [env_bias]; and [param_quads[..., n, q, o]] is
    [emission_bias[o, 4n + q]] plus [emission_scale[o, 4n + q]] times the
    emission contraction of what the output normalisation makes of zeros:
    with the output normalisation off that is [emission_bias] alone. *)
Theorem zero_sensitivity_reduction
    (L : DyNAThetaLinear) (x components : tensor) (B : list nat) :
  wf_layer L ->
  shape x = B ++ [in_features L] ->
  shape components = B ++ [theta_modes_in L; in_features L] ->
  all_zero (individual_sensetivity L) ->
  exists w eb en px,
    run (individual_sensetivity_weighted components) L = Ok w /\
    all_zero w /\
    run (env_biased components) L = Ok eb /\
    (forall bi i m,
       valid_index B bi -> i < in_features L -> m < theta_modes_in L ->
       entry eb (bi ++ [i; m]) = entry (env_bias L) [i; m]) /\
    apply_norm (norm_env_input L) eb = Ok en /\
    run (perceptual_x x components) L = Ok px /\
    (forall bi i, valid_index B bi -> i < in_features L ->
       entry px (bi ++ [i]) =
       (sum_upto (theta_modes_in L) (fun m =>
          entry x (bi ++ [i]) * entry en (bi ++ [i; m])
          * entry (perception L) [i; m; 0%nat])
        + entry (perceptual_bias L) [i])%R) /\
    (Forall (lt 0) B -> 0 < out_features L ->
     exists pq,
       run (param_quads x components) L = Ok pq /\
       forall bi n q o,
         valid_index B bi -> n < theta_modes_out L -> q < 4 -> o < out_features L ->
         entry pq (bi ++ [n; q; o]) =
         (sum_upto (theta_modes_in L) (fun m =>
            norm_of_zero (norm_env_output L) o m
            * entry (emission L) [clamp (theta_feautures L) o; m; (n * 4 + q)%nat])
          * entry (emission_scale L) [o; (n * 4 + q)%nat]
          + entry (emission_bias L) [o; (n * 4 + q)%nat])%R /\
         (theta_normalize_env_output L = false ->
          entry pq (bi ++ [n; q; o]) =
          entry (emission_bias L) [o; (n * 4 + q)%nat])).
Proof.
  intros Hwf Hx Hc Hz.
  destruct (env_chain L components B Hwf Hc)
    as (w & cei & es & eb & en & Rw & _ & _ & Reb & Ren).
  destruct (env_normalized_ok L components B Hwf Hc eb Reb)
    as (en' & Ren' & _ & Pen).
  rewrite <- (returns_inj _ _ _ _ Ren Ren') in Pen.
  destruct (perceptual_x_ok L x components B Hwf Hc Hx en Ren)
    as (px & Rpx & _ & Epx).
  exists w, eb, en, px.
  split; [apply returns_run; exact Rw|].
  split; [apply (zero_weighted_all L components B Hwf Hc Hz w Rw)|].
  split; [apply returns_run; exact Reb|].
  split; [apply (zero_env_biased L components B Hwf Hc Hz eb Reb)|].
  split; [exact Pen|].
  split; [apply returns_run; exact Rpx|].
  split; [exact Epx|].
  intros HB HO.
  destruct (forward_ok L x components B Hwf Hc Hx HB HO)
    as (tx & pq & _ & _ & Rpq & _).
  exists pq. split; [apply returns_run; exact Rpq|].
  intros bi n q o Hv Hn Hq Ho.
  pose proof (zero_param_quads L x components B Hwf Hc Hz Hx HB HO pq Rpq
                bi n q o Hv Hn Hq Ho) as E.
  split; [exact E|].
  intros Hoff. rewrite E.
  assert (Hid : norm_env_output L = Identity).
  { apply (wf_norm_off [out_features L; theta_modes_in L]).
    rewrite <- Hoff. apply (wf_norm_out L Hwf). }
  rewrite Hid. rewrite sum_upto_zero.
  - lra.
  - intros m _. cbn. apply Rmult_0_l.
Qed.

Lemma demo_insensitive_zero : all_zero (individual_sensetivity demo_insensitive).
Proof. intros idx _. reflexivity. Qed.

Lemma demo_insensitive_normed_zero :
  all_zero (individual_sensetivity demo_insensitive_normed).
Proof. intros idx _. reflexivity. Qed.

Lemma demo_insensitive_normed_wf : wf_layer demo_insensitive_normed.
Proof.
  apply (with_norm_env_output_wf (demo 4 3 2 2 true false true ones_insensitive)).
  - apply demo_wf; lia.
  - reflexivity.
  - reflexivity.
  - reflexivity.
Qed.

Lemma zero_sensitivity_reduction_witness :
  exists w eb en px,
    run (individual_sensetivity_weighted demo_components) demo_insensitive = Ok w /\
    all_zero w /\
    run (env_biased demo_components) demo_insensitive = Ok eb /\
    (forall bi i m, valid_index [2] bi -> i < 4 -> m < 2 ->
       entry eb (bi ++ [i; m]) = entry (env_bias demo_insensitive) [i; m]) /\
    apply_norm (norm_env_input demo_insensitive) eb = Ok en /\
    run (perceptual_x demo_x demo_components) demo_insensitive = Ok px /\
    (forall bi i, valid_index [2] bi -> i < 4 ->
       entry px (bi ++ [i]) =
       (sum_upto 2 (fun m =>
          entry demo_x (bi ++ [i]) * entry en (bi ++ [i; m])
          * entry (perception demo_insensitive) [i; m; 0%nat])
        + entry (perceptual_bias demo_insensitive) [i])%R) /\
    exists pq,
      run (param_quads demo_x demo_components) demo_insensitive = Ok pq /\
      forall bi n q o,
        valid_index [2] bi -> n < 2 -> q < 4 -> o < 3 ->
        entry pq (bi ++ [n; q; o]) =
        entry (emission_bias demo_insensitive) [o; (n * 4 + q)%nat].
Proof.
  destruct (zero_sensitivity_reduction demo_insensitive demo_x demo_components [2])
    as (w & eb & en & px & H1 & H2 & H3 & H4 & H5 & H6 & H7 & H8).
  - apply demo_wf; lia.
  - reflexivity.
  - reflexivity.
  - exact demo_insensitive_zero.
  - exists w, eb, en, px. repeat (split; [assumption|]).
    destruct H8 as (pq & P1 & P2); [repeat constructor|cbn; lia|].
    exists pq. split; [exact P1|].
    intros bi n q o Hv Hn Hq Ho.
    exact (proj2 (P2 bi n q o Hv Hn Hq Ho) eq_refl).
Defined.

(** C7 as stated fails.  Without individual sensitivity and without
    normalisation, [perceptual_x] at [[0, 0]] is 3 where
    [perceptual_bias] is 1: [env_bias] still reaches the signal.  And with
    an output normalisation whose bias is 1, [param_quads] at
    [[0, 0, 0, 0]] is 2 where [emission_bias] is 0. *)
Lemma zero_sensitivity_reduction_counterexample :
  all_zero (individual_sensetivity demo_insensitive) /\
  rentry (run (perceptual_x demo_x demo_components) demo_insensitive) [0; 0]
    = Ok 3%R /\
  entry (perceptual_bias demo_insensitive) [0] = 1%R /\
  all_zero (individual_sensetivity demo_insensitive_normed) /\
  (exists pq,
     run (param_quads demo_x demo_components) demo_insensitive_normed = Ok pq /\
     entry pq [0; 0; 0; 0] = 2%R) /\
  entry (emission_bias demo_insensitive_normed) [0; 0] = 0%R.
Proof.
  split; [exact demo_insensitive_zero|].
  split; [vm_compute; f_equal; lra|].
  split; [reflexivity|].
  split; [exact demo_insensitive_normed_zero|].
  split; [|reflexivity].
  destruct (forward_ok demo_insensitive_normed demo_x demo_components [2]
              demo_insensitive_normed_wf eq_refl eq_refl)
    as (tx & pq & _ & _ & Rpq & _); [repeat constructor|cbn; lia|].
  exists pq. split; [apply returns_run; exact Rpq|].
  change [0; 0; 0; 0] with ([0] ++ [0; 0; 0]).
  assert (HB : Forall (lt 0) [2]) by (repeat constructor).
  assert (HO : 0 < out_features demo_insensitive_normed) by (cbn; lia).
  rewrite (zero_param_quads demo_insensitive_normed demo_x demo_components [2]
             demo_insensitive_normed_wf eq_refl demo_insensitive_normed_zero
             eq_refl HB HO pq Rpq [0] 0 0 0);
    [|repeat constructor|cbn; lia|lia|cbn; lia].
  cbn. lra.
Qed.

(* ================================================================= *)
(** ** Step 9: the emission weights *)

Lemma param_quads_formula
    (L : DyNAThetaLinear) (x components : tensor) (B : list nat) :
  wf_layer L ->
  shape components = B ++ [theta_modes_in L; in_features L] ->
  shape x = B ++ [in_features L] ->
  Forall (lt 0) B -> 0 < out_features L ->
  forall me pq,
    returns (modulated_env x components) L me ->
    returns (param_quads x components) L pq ->
    forall bi n q o,
      valid_index B bi -> n < theta_modes_out L -> q < 4 -> o < out_features L ->
      entry pq (bi ++ [n; q; o]) =
      (sum_upto (theta_modes_in L) (fun m =>
         entry me (bi ++ [o; m])
         * entry (emission L) [clamp (theta_feautures L) o; m; (n * 4 + q)%nat])
       * entry (emission_scale L) [o; (n * 4 + q)%nat]
       + entry (emission_bias L) [o; (n * 4 + q)%nat])%R.
Proof.
  intros Hwf Hc Hx HB HO me pq Rme Rpq bi n q o Hv Hn Hq Ho.
  assert (Hk : n * 4 + q < theta_modes_out L * 4) by lia.
  destruct (emission_raw_ok L x components B Hwf Hc Hx me Rme)
    as (er & Rer & _ & Eer).
  destruct (emission_scaled_ok L x components B Hwf Hc Hx er Rer)
    as (es & Res & _ & Ees).
  destruct (emission_biased_ok L x components B Hwf Hc Hx es Res)
    as (eb & Reb & _ & Eeb).
  destruct (param_quads_ok L x components B Hwf Hc Hx HB HO eb Reb)
    as (pq' & Rpq' & _ & Epq).
  rewrite (returns_inj _ _ _ _ Rpq Rpq').
  rewrite Epq, Eeb, Ees, Eer by assumption. reflexivity.
Qed.

(** C5, amended.  With shared emission weights ([theta_feautures = 1])
    [forward] returns for every [out_features > 0] (on inputs with
    elements), and every output neuron is contracted against the one slice
    [emission[0]]: [param_quads[..., n, q, o]] is the sum over the modes of
    [modulated_env[..., o, m] * emission[0, m, 4n + q]], times
    [emission_scale[o, 4n + q]], plus [emission_bias[o, 4n + q]].  How much
    a change of [emission] moves [param_quads] at output [o] depends on
    that neuron's gated environment and scale. *)
Theorem shared_emission_weights
    (L : DyNAThetaLinear) (x components : tensor) (B : list nat) :
  wf_layer L ->
  theta_feautures L = 1 ->
  shape x = B ++ [in_features L] ->
  shape components = B ++ [theta_modes_in L; in_features L] ->
  Forall (lt 0) B ->
  0 < out_features L ->
  exists me tx pq,
    run (modulated_env x components) L = Ok me /\
    run (forward x components) L = Ok (tx, pq) /\
    shape pq = B ++ [theta_modes_out L; 4; out_features L] /\
    forall bi n q o,
      valid_index B bi -> n < theta_modes_out L -> q < 4 -> o < out_features L ->
      entry pq (bi ++ [n; q; o]) =
      (sum_upto (theta_modes_in L) (fun m =>
         entry me (bi ++ [o; m]) * entry (emission L) [0%nat; m; (n * 4 + q)%nat])
       * entry (emission_scale L) [o; (n * 4 + q)%nat]
       + entry (emission_bias L) [o; (n * 4 + q)%nat])%R.
Proof.
  intros Hwf HF Hx Hc HB HO.
  destruct (emission_chain L x components B Hwf Hc Hx)
    as (me & er & es & eb & Rme & _).
  destruct (forward_ok L x components B Hwf Hc Hx HB HO)
    as (tx & pq & R & _ & Rpq & _ & Spq).
  exists me, tx, pq.
  split; [apply returns_run; exact Rme|].
  split; [apply returns_run; exact R|].
  split; [exact Spq|].
  intros bi n q o Hv Hn Hq Ho.
  rewrite (param_quads_formula L x components B Hwf Hc Hx HB HO me pq Rme Rpq
             bi n q o Hv Hn Hq Ho).
  rewrite HF. reflexivity.
Qed.

Lemma shared_emission_weights_witness :
  exists me tx pq,
    run (modulated_env demo_x demo_components) (demo 4 3 2 2 false true true ones)
      = Ok me /\
    run (forward demo_x demo_components) (demo 4 3 2 2 false true true ones)
      = Ok (tx, pq) /\
    shape pq = [2; 2; 4; 3] /\
    forall bi n q o,
      valid_index [2] bi -> n < 2 -> q < 4 -> o < 3 ->
      entry pq (bi ++ [n; q; o]) =
      (sum_upto 2 (fun m =>
         entry me (bi ++ [o; m])
         * entry (emission (demo 4 3 2 2 false true true ones))
             [0%nat; m; (n * 4 + q)%nat])
       * entry (emission_scale (demo 4 3 2 2 false true true ones))
           [o; (n * 4 + q)%nat]
       + entry (emission_bias (demo 4 3 2 2 false true true ones))
           [o; (n * 4 + q)%nat])%R.
Proof.
  apply (shared_emission_weights (demo 4 3 2 2 false true true ones)
           demo_x demo_components [2]).
  - apply demo_wf; lia.
  - reflexivity.
  - reflexivity.
  - reflexivity.
  - repeat constructor.
  - cbn. lia.
Defined.

(** C5 as stated fails.  A layer with shared emission weights and no
    output neuron is constructed, and [forward] raises on it.  And with
    two output neurons of sensitivities 1 and 2, setting the shared
    emission weights from 1 to 0 moves [param_quads] by 6 at output 0 and
    by 12 at output 1. *)
Lemma shared_emission_weights_counterexample :
  __init__ 4 0 2 2 false false false true ones
    = Ok (demo 4 0 2 2 false false false ones) /\
  run (forward demo_x demo_components) (demo 4 0 2 2 false false false ones)
    = Err RuntimeError /\
  theta_feautures demo_graded = 1 /\
  param_quads_entry (run (forward unit_x unit_components) demo_graded)
    [0; 0; 0; 0] = Ok 6%R /\
  param_quads_entry (run (forward unit_x unit_components) demo_graded_perturbed)
    [0; 0; 0; 0] = Ok 0%R /\
  param_quads_entry (run (forward unit_x unit_components) demo_graded)
    [0; 0; 0; 1] = Ok 12%R /\
  param_quads_entry (run (forward unit_x unit_components) demo_graded_perturbed)
    [0; 0; 0; 1] = Ok 0%R.
Proof.
  split; [reflexivity|].
  split; [vm_compute; reflexivity|].
  split; [reflexivity|].
  repeat split; vm_compute; f_equal; lra.
Qed.

(* ================================================================= *)
(** ** Failure *)

Lemma bind_err {A B} (m : M A) (f : A -> M B) (L L' : DyNAThetaLinear) (e : error) :
  m L = (Err e, L') -> bind m f L = (Err e, L').
Proof. unfold bind. now intros ->. Qed.

Lemma broadcast2_err (f : R -> R -> R) (a b : tensor)
    (A1 A2 S1 S2 : list nat) (e : error) :
  shape a = A1 ++ S1 -> shape b = A2 ++ S2 ->
  length S1 = length S2 ->
  broadcast_shapes S1 S2 = Err e ->
  broadcast2 f a b = Err e.
Proof.
  intros Ha Hb Hl HS. unfold broadcast2. rewrite Ha, Hb.
  rewrite (broadcast_shapes_app_err A1 A2 S1 S2 e Hl HS). reflexivity.
Qed.

Section NonConformant.

Variables (L : DyNAThetaLinear) (x components : tensor) (B : list nat) (a b : nat).

Hypothesis Hwf : wf_layer L.
Hypothesis Hc : shape components = B ++ [a; b].

Local Abbreviation I := (in_features L).
Local Abbreviation O := (out_features L).
Local Abbreviation Mi := (theta_modes_in L).

Lemma batch_rank_general : batch_rank components = length B.
Proof. unfold batch_rank, rank. rewrite Hc, length_app. simpl. lia. Qed.

Lemma components_per_input_general :
  exists t,
    returns (components_per_input components) L t /\
    shape t = B ++ [1; b; a].
Proof.
  destruct (permute_swap_last components B a b Hc) as (t1 & P1 & S1 & _).
  destruct (unsqueeze_m3 t1 B b a S1) as (t2 & P2 & S2 & _).
  exists t2. split; [|exact S2].
  unfold components_per_input. rewrite batch_rank_general.
  lift_ok P1. apply returns_lift. exact P2.
Qed.

(** The input-neuron axis of [components] cannot be broadcast against
    [in_features]: the product of step 2 raises. *)
Lemma weighted_err (e : error) :
  bdim I b = Err e ->
  individual_sensetivity_weighted components L = (Err e, L).
Proof.
  intros Hb.
  destruct components_per_input_general as (cpi & R1 & S1).
  destruct (reshape_ones (individual_sensetivity L) (length B) [O; I; 1]
              (wf_individual L Hwf)) as (r & P2 & S2 & _).
  unfold individual_sensetivity_weighted. bind_ok R1. rewrite bind_attr.
  rewrite batch_rank_general, (wf_individual L Hwf). lift_ok P2.
  unfold lift, mul.
  rewrite (broadcast2_err Rmult r cpi (repeat 1 (length B)) B
             [O; I; 1] [1; b; a] e S2 S1 eq_refl); [reflexivity|].
  unfold broadcast_shapes. cbn [rev app broadcast_rev].
  rewrite bdim_1_l. cbn [rbind]. rewrite Hb. reflexivity.
Qed.

Lemma weighted_general (I' : nat) :
  bdim I b = Ok I' ->
  exists w,
    returns (individual_sensetivity_weighted components) L w /\
    shape w = B ++ [O; I'; a].
Proof.
  intros Hb.
  destruct components_per_input_general as (cpi & R1 & S1).
  destruct (reshape_ones (individual_sensetivity L) (length B) [O; I; 1]
              (wf_individual L Hwf)) as (r & P2 & S2 & _).
  destruct (broadcast2_app Rmult r cpi (repeat 1 (length B)) B B
              [O; I; 1] [1; b; a] [O; I'; a] S2 S1 eq_refl
              (broadcast_shapes_ones B (length B) eq_refl))
    as (t & P3 & S3 & _).
  { unfold broadcast_shapes. cbn [rev app broadcast_rev].
    rewrite bdim_1_l. cbn [rbind]. rewrite Hb. cbn [rbind].
    rewrite bdim_1_r. reflexivity. }
  exists t. split; [|exact S3].
  unfold individual_sensetivity_weighted. bind_ok R1. rewrite bind_attr.
  rewrite batch_rank_general, (wf_individual L Hwf).
  lift_ok P2. apply returns_lift. exact P3.
Qed.

(** The mode axis of [components] cannot be broadcast against
    [modes_in]: the product with [env_sensetivity] raises. *)
Lemma env_sensed_err (I' : nat) (e : error) :
  bdim I b = Ok I' -> bdim a Mi = Err e ->
  env_sensed components L = (Err e, L).
Proof.
  intros Hb Ha.
  destruct (weighted_general I' Hb) as (w & Rw & Sw).
  destruct (sum_m3 w B O I' a Sw) as (cei & P1 & S1 & _).
  destruct (reshape_ones (env_sensetivity L) (length B) [I; Mi]
              (wf_env_sensetivity L Hwf)) as (r & P2 & S2 & _).
  assert (Rcei : returns (cumulative_env_inputs components) L cei).
  { unfold cumulative_env_inputs. bind_ok Rw. apply returns_lift. exact P1. }
  unfold env_sensed, extra_dims.
  bind_ok Rcei. rewrite bind_attr.
  rewrite batch_rank_general, (wf_env_sensetivity L Hwf). lift_ok P2.
  unfold lift, mul.
  rewrite (broadcast2_err Rmult cei r B (repeat 1 (length B))
             [I'; a] [I; Mi] e S1 S2 eq_refl); [reflexivity|].
  unfold broadcast_shapes. cbn [rev app broadcast_rev].
  rewrite Ha. reflexivity.
Qed.

Lemma forward_err_of_weighted (e : error) :
  individual_sensetivity_weighted components L = (Err e, L) ->
  env_sensed components L = (Err e, L).
Proof.
  intros H. unfold env_sensed, cumulative_env_inputs.
  apply bind_err. apply bind_err. exact H.
Qed.

Lemma forward_err_of_env_sensed (e : error) :
  env_sensed components L = (Err e, L) ->
  forward x components L = (Err e, L).
Proof.
  intros H.
  unfold forward, transformed_x, perceptual_x, env_normalized, env_biased.
  do 5 apply bind_err. exact H.
Qed.

Lemma forward_rejects :
  (b <> I /\ b <> 1 /\ I <> 1) \/ (a <> Mi /\ a <> 1 /\ Mi <> 1) ->
  exists e, run (forward x components) L = Err e.
Proof.
  intros H. unfold run.
  destruct (bdim I b) as [I'|e] eqn:Hb.
  - destruct H as [(H1 & H2 & H3)|(H1 & H2 & H3)].
    + rewrite bdim_err in Hb by auto. discriminate.
    + exists RuntimeError.
      rewrite (forward_err_of_env_sensed RuntimeError); [reflexivity|].
      apply (env_sensed_err I' RuntimeError Hb).
      apply bdim_err; assumption.
  - exists e.
    rewrite (forward_err_of_env_sensed e); [reflexivity|].
    apply forward_err_of_weighted. apply weighted_err. exact Hb.
Qed.

End NonConformant.

(** A tensor whose trailing axes are not the normalised shape is rejected
    by [nn.LayerNorm]. *)
Lemma layer_norm_err (ns s : list nat) (eps : R) (w b t : tensor) (B : list nat) :
  shape t = B ++ s -> length s = length ns -> s <> ns ->
  layer_norm ns eps w b t = Err RuntimeError.
Proof.
  intros Hs Hl Hne. unfold layer_norm, rank. rewrite Hs, length_app, Hl.
  replace (length B + length ns - length ns) with (length B) by lia.
  rewrite skipn_app, skipn_all, Nat.sub_diag. cbn [skipn app].
  destruct (shape_eqb s ns) eqn:E.
  - apply shape_eqb_eq in E. contradiction.
  - rewrite andb_false_r. reflexivity.
Qed.

(* ================================================================= *)
(** ** Axes of size 1 in the components *)

Section BroadcastAxis.

Variables (L : DyNAThetaLinear) (x components : tensor) (B : list nat) (a b : nat).

Hypothesis Hwf : wf_layer L.
Hypothesis Hc : shape components = B ++ [a; b].
Hypothesis Hb : b = in_features L \/ b = 1.
Hypothesis Ha : a = theta_modes_in L \/ a = 1.
Hypothesis Hx : shape x = B ++ [in_features L].

Local Abbreviation I := (in_features L).
Local Abbreviation O := (out_features L).
Local Abbreviation Mi := (theta_modes_in L).

Lemma bdim_input_axis : bdim I b = Ok I.
Proof. destruct Hb as [-> | ->]; [apply bdim_refl|apply bdim_1_r]. Qed.

Lemma bdim_mode_axis : bdim a Mi = Ok Mi.
Proof. destruct Ha as [-> | ->]; [apply bdim_refl|apply bdim_1_l]. Qed.

(** The environment of the inputs has the shape it has for conformant
    components: the product with [env_sensetivity] expands a mode axis of
    size 1. *)
Lemma broadcast_env_normalized :
  exists w en,
    returns (individual_sensetivity_weighted components) L w /\
    shape w = B ++ [O; I; a] /\
    returns (env_normalized components) L en /\
    shape en = B ++ [I; Mi].
Proof.
  destruct (weighted_general L components B a b Hwf Hc I bdim_input_axis)
    as (w & Rw & Sw).
  destruct (sum_m3 w B O I a Sw) as (cei & P1 & S1 & _).
  assert (Rcei : returns (cumulative_env_inputs components) L cei).
  { unfold cumulative_env_inputs. bind_ok Rw. apply returns_lift. exact P1. }
  assert (Hrank : batch_rank components = length B).
  { unfold batch_rank, rank. rewrite Hc, length_app. cbn [length]. lia. }
  destruct (reshape_ones (env_sensetivity L) (length B) [I; Mi]
              (wf_env_sensetivity L Hwf)) as (r & P2 & S2 & _).
  destruct (broadcast2_app Rmult cei r B (repeat 1 (length B)) B
              [I; a] [I; Mi] [I; Mi] S1 S2 eq_refl
              (broadcast_shapes_ones_r B (length B) eq_refl))
    as (es & P3 & S3 & _).
  { unfold broadcast_shapes. cbn [rev app broadcast_rev].
    rewrite bdim_mode_axis. cbn [rbind]. rewrite bdim_refl. reflexivity. }
  assert (Res : returns (env_sensed components) L es).
  { unfold env_sensed, extra_dims. bind_ok Rcei. rewrite bind_attr.
    rewrite Hrank, (wf_env_sensetivity L Hwf). lift_ok P2.
    apply returns_lift. exact P3. }
  destruct (reshape_ones (env_bias L) (length B) [I; Mi]
              (wf_env_bias L Hwf)) as (rb & P4 & S4 & _).
  destruct (broadcast2_app Rplus es rb B (repeat 1 (length B)) B
              [I; Mi] [I; Mi] [I; Mi] S3 S4 eq_refl
              (broadcast_shapes_ones_r B (length B) eq_refl))
    as (eb & P5 & S5 & _); [solve_bshape|].
  assert (Reb : returns (env_biased components) L eb).
  { unfold env_biased, extra_dims. bind_ok Res. rewrite bind_attr.
    rewrite Hrank, (wf_env_bias L Hwf). lift_ok P4.
    apply returns_lift. exact P5. }
  destruct (apply_norm_ok B _ _ _ eb (wf_norm_in L Hwf) S5) as (en & P6 & S6 & _).
  exists w, en. split; [exact Rw|]. split; [exact Sw|]. split; [|exact S6].
  unfold env_normalized. bind_ok Reb. rewrite bind_attr.
  apply returns_lift. exact P6.
Qed.

(** [transformed_x], and the modulated environment before the output
    normalisation, which keeps the mode axis of the components. *)
Lemma broadcast_modulated_env_gated :
  exists tx meg,
    returns (transformed_x x components) L tx /\
    shape tx = B ++ [O] /\
    returns (modulated_env_gated x components) L meg /\
    shape meg = B ++ [O; a].
Proof.
  destruct broadcast_env_normalized as (w & en & Rw & Sw & Ren & Sen).
  destruct (unsqueeze_m1 x (B ++ [I]) Hx) as (xu & P1 & S1 & _).
  rewrite <- app_assoc in S1. cbn [app] in S1.
  destruct (broadcast2_app Rmult xu en B B B [I; 1] [I; Mi] [I; Mi]
              S1 Sen eq_refl (broadcast_shapes_refl B))
    as (p1 & P2 & S2 & _); [solve_bshape|].
  destruct (einsum_bij_ijk_bik_ok p1 (perception L) B I Mi I Mi 1 I Mi
              S2 (wf_perception L Hwf) (bdim_refl _) (bdim_refl _))
    as (p2 & P3 & S3 & _).
  destruct (squeeze_last_one p2 (B ++ [I])) as (p3 & P4 & S4 & _).
  { rewrite S3, <- app_assoc. reflexivity. }
  destruct (broadcast2_app Rplus p3 (perceptual_bias L) B [] B [I] [I] [I]
              S4 (wf_perceptual_bias L Hwf) eq_refl (broadcast_shapes_nil_r B))
    as (px & P5 & S5 & _); [solve_bshape|].
  assert (Rpx : returns (perceptual_x x components) L px).
  { unfold perceptual_x. bind_ok Ren. lift_ok P1. lift_ok P2.
    rewrite bind_attr. lift_ok P3. lift_ok P4. rewrite bind_attr.
    apply returns_lift. exact P5. }
  destruct (linear_ok px (weight L) (bias L) B O I
              S5 (wf_weight L Hwf) (wf_bias L Hwf)) as (tx & P6 & S6 & _).
  assert (Rtx : returns (transformed_x x components) L tx).
  { unfold transformed_x. bind_ok Rpx. rewrite !bind_attr.
    apply returns_lift. exact P6. }
  destruct (sum_m2 w B O I a Sw) as (ceo & P7 & S7 & _).
  assert (Rceo : returns (cumulative_env_outputs components) L ceo).
  { unfold cumulative_env_outputs. bind_ok Rw. apply returns_lift. exact P7. }
  destruct (unsqueeze_m1 tx (B ++ [O]) S6) as (txu & P8 & S8 & _).
  rewrite <- app_assoc in S8. cbn [app] in S8.
  destruct (broadcast2_app Rmult ceo txu B B B [O; a] [O; 1] [O; a]
              S7 S8 eq_refl (broadcast_shapes_refl B))
    as (meg & P9 & S9 & _); [solve_bshape|].
  exists tx, meg. split; [exact Rtx|]. split; [exact S6|]. split; [|exact S9].
  unfold modulated_env_gated. bind_ok Rtx. bind_ok Rceo. lift_ok P8.
  apply returns_lift. exact P9.
Qed.

(** With the output normalisation on, components whose mode axis has size
    1 are rejected by its [LayerNorm] unless [modes_in] is 1 too. *)
Lemma mode_axis_rejected_by_norm :
  a <> Mi -> theta_normalize_env_output L = true ->
  run (forward x components) L = Err RuntimeError.
Proof.
  intros Hne Hflag.
  destruct broadcast_modulated_env_gated as (tx & meg & Rtx & _ & Rmeg & Smeg).
  assert (Hme : modulated_env x components L = (Err RuntimeError, L)).
  { unfold modulated_env. bind_ok Rmeg. rewrite bind_attr.
    pose proof (wf_norm_out L Hwf) as Hn.
    destruct (norm_env_output L) as [|ns eps w0 b0]; cbn [wf_norm] in Hn.
    - congruence.
    - destruct Hn as (_ & -> & _ & _). unfold lift. cbn [apply_norm].
      rewrite (layer_norm_err [O; Mi] [O; a] eps w0 b0 meg B Smeg eq_refl);
        [reflexivity|].
      intros E. inversion E. contradiction. }
  assert (Hpq : param_quads x components L = (Err RuntimeError, L)).
  { unfold param_quads, emission_biased, emission_scaled, emission_raw.
    do 4 apply bind_err. exact Hme. }
  unfold run, forward. bind_ok Rtx. rewrite (bind_err _ _ _ _ _ Hpq).
  reflexivity.
Qed.

(** The components are accepted, and the outputs have the shapes they have
    for conformant components, when the mode axis is [modes_in] or the
    output normalisation is off. *)
Lemma broadcast_accepted :
  a = Mi \/ theta_normalize_env_output L = false ->
  Forall (lt 0) B -> 0 < O ->
  exists tx pq,
    run (forward x components) L = Ok (tx, pq) /\
    shape tx = B ++ [O] /\
    shape pq = B ++ [theta_modes_out L; 4; O].
Proof.
  intros Hn HB HO.
  destruct broadcast_modulated_env_gated as (tx & meg & Rtx & Stx & Rmeg & Smeg).
  assert (Hnorm : exists me,
             apply_norm (norm_env_output L) meg = Ok me /\ shape me = B ++ [O; a]).
  { destruct Hn as [E|Hflag].
    - rewrite E in Smeg |- *.
      destruct (apply_norm_ok B _ _ _ meg (wf_norm_out L Hwf) Smeg)
        as (me & P & S & _).
      exists me. split; assumption.
    - pose proof (wf_norm_out L Hwf) as Hw.
      destruct (norm_env_output L) as [|ns eps w0 b0]; cbn [wf_norm] in Hw.
      + exists meg. split; [reflexivity|exact Smeg].
      + destruct Hw as (Hw & _). congruence. }
  destruct Hnorm as (me & P1 & S1).
  assert (Rme : returns (modulated_env x components) L me).
  { unfold modulated_env. bind_ok Rmeg. rewrite bind_attr.
    apply returns_lift. exact P1. }
  pose proof (wf_emission L Hwf) as Se. rewrite (wf_quad L Hwf) in Se.
  destruct (einsum_bij_ijk_bik_ok me (emission L) B
              O a (theta_feautures L) Mi (theta_modes_out L * 4) O Mi
              S1 Se (bdim_features L Hwf) bdim_mode_axis) as (er & P2 & S2 & _).
  pose proof (wf_emission_scale L Hwf) as Ss. rewrite (wf_quad L Hwf) in Ss.
  destruct (einsum_bij_ij_bij_ok er (emission_scale L) B
              O (theta_modes_out L * 4) O (theta_modes_out L * 4)
              O (theta_modes_out L * 4)
              S2 Ss (bdim_refl _) (bdim_refl _)) as (esc & P3 & S3 & _).
  pose proof (wf_emission_bias L Hwf) as Sb. rewrite (wf_quad L Hwf) in Sb.
  destruct (reshape_ones (emission_bias L) (length B)
              [O; theta_modes_out L * 4] Sb) as (r & P4 & S4 & _).
  destruct (broadcast2_app Rplus esc r B (repeat 1 (length B)) B
              [O; theta_modes_out L * 4] [O; theta_modes_out L * 4]
              [O; theta_modes_out L * 4]
              S3 S4 eq_refl (broadcast_shapes_ones_r B (length B) eq_refl))
    as (ebi & P5 & S5 & _); [solve_bshape|].
  assert (Rer : returns (emission_raw x components) L er).
  { unfold emission_raw. bind_ok Rme. rewrite bind_attr.
    apply returns_lift. exact P2. }
  assert (Resc : returns (emission_scaled x components) L esc).
  { unfold emission_scaled. bind_ok Rer. rewrite bind_attr.
    apply returns_lift. exact P3. }
  assert (Rebi : returns (emission_biased x components) L ebi).
  { unfold emission_biased. bind_ok Resc. rewrite bind_attr.
    unfold rank. rewrite S3, Sb, length_app. cbn [length].
    replace (length B + 2 - 2) with (length B) by lia.
    lift_ok P4. apply returns_lift. exact P5. }
  assert (S5' : shape ebi = (B ++ [O]) ++ [theta_modes_out L * 4])
    by (rewrite S5, <- app_assoc; reflexivity).
  destruct (reshape_split ebi (B ++ [O]) (theta_modes_out L) 4 S5')
    as (p & P6 & S6 & _).
  { rewrite numel_app. cbn [numel fold_right].
    pose proof (numel_pos B HB). pose proof (wf_modes_out L Hwf). nia. }
  rewrite <- app_assoc in S6. cbn [app] in S6.
  destruct (permute_features_last p B O (theta_modes_out L) 4 S6)
    as (pq & P7 & S7 & _).
  assert (Rpq : returns (param_quads x components) L pq).
  { unfold param_quads. bind_ok Rebi. rewrite bind_attr.
    lift_ok P6. unfold rank. rewrite S6, length_app. cbn [length].
    replace (length B + 3 - 3) with (length B) by lia.
    apply returns_lift. exact P7. }
  exists tx, pq. split; [|split; assumption].
  unfold run, forward. bind_ok Rtx. bind_ok Rpq. reflexivity.
Qed.

End BroadcastAxis.

(** X4.  On a conformant input without elements (a batch axis of size 0,
    or a layer without output neurons) [forward] raises: the size that the
    last reshape leaves to be inferred is ambiguous for a tensor without
    elements. *)
Lemma forward_without_elements
    (L : DyNAThetaLinear) (x components : tensor) (B : list nat) :
  wf_layer L ->
  shape components = B ++ [theta_modes_in L; in_features L] ->
  shape x = B ++ [in_features L] ->
  numel B * out_features L = 0 ->
  run (forward x components) L = Err RuntimeError.
Proof.
  intros Hwf Hc Hx H0.
  destruct (signal_chain L x components B Hwf Hc Hx) as (en & px & tx & _ & _ & Rtx & _).
  destruct (emission_chain L x components B Hwf Hc Hx)
    as (me & er & es & eb & _ & _ & _ & Reb & Seb).
  assert (Hpq : param_quads x components L = (Err RuntimeError, L)).
  { unfold param_quads. bind_ok Reb. rewrite bind_attr.
    apply bind_err. unfold lift, reshape. rewrite Seb.
    replace (B ++ [out_features L; theta_modes_out L * 4])
      with ((B ++ [out_features L]) ++ [theta_modes_out L * 4])
      by (rewrite <- app_assoc; reflexivity).
    rewrite removelast_last, infer_size_split_err; [reflexivity|].
    rewrite numel_app. cbn [numel fold_right]. nia. }
  unfold run, forward. bind_ok Rtx. rewrite (bind_err _ _ _ _ _ Hpq). reflexivity.
Qed.

Lemma forward_without_elements_witness :
  run (forward (full [2; 0; 4] 1%R) (full [2; 0; 2; 4] 1%R))
      (demo 4 3 2 2 true true true ones) = Err RuntimeError.
Proof.
  apply (forward_without_elements (demo 4 3 2 2 true true true ones)
           (full [2; 0; 4] 1%R) (full [2; 0; 2; 4] 1%R) [2; 0]).
  - apply demo_wf; lia.
  - reflexivity.
  - reflexivity.
  - reflexivity.
Defined.

(** C8, amended.  [forward] raises, at call time, for every [components]
    with a trailing axis that cannot be broadcast against the layer: an
    input-neuron axis different from [in_features] with neither of size 1,
    or a mode axis different from [modes_in] with neither of size 1.  With
    the output normalisation on and [x] of shape [[*B, in_features]] it
    also raises for [components] whose mode axis has size 1 while
    [modes_in] is not 1: the [LayerNorm] over [[out_features, modes_in]]
    rejects them.  A mismatching axis of size 1 is otherwise broadcast: for
    [x] of shape [[*B, in_features]] and with elements (no batch axis of
    size 0, [out_features > 0]) the call returns whenever the input-neuron
    axis of [components] is [in_features] or 1 and the mode axis is
    [modes_in], or is 1 with the output normalisation off.  In particular
    it returns for every input with conformant shapes and with elements. *)
Theorem forward_failure_modes
    (L : DyNAThetaLinear) (x components : tensor) (B : list nat) (a b : nat) :
  wf_layer L ->
  shape components = B ++ [a; b] ->
  ((b <> in_features L /\ b <> 1 /\ in_features L <> 1) \/
   (a <> theta_modes_in L /\ a <> 1 /\ theta_modes_in L <> 1) ->
   exists e, run (forward x components) L = Err e) /\
  (a = 1 -> theta_modes_in L <> 1 ->
   theta_normalize_env_output L = true ->
   b = in_features L \/ b = 1 ->
   shape x = B ++ [in_features L] ->
   run (forward x components) L = Err RuntimeError) /\
  (b = in_features L \/ b = 1 ->
   a = theta_modes_in L \/ (a = 1 /\ theta_normalize_env_output L = false) ->
   shape x = B ++ [in_features L] ->
   Forall (lt 0) B -> 0 < out_features L ->
   is_ok (run (forward x components) L) = true).
Proof.
  intros Hwf Hc. split; [|split].
  - apply (forward_rejects L x components B a b Hwf Hc).
  - intros Ha HM Hflag Hb Hx.
    apply (mode_axis_rejected_by_norm L x components B a b Hwf Hc Hb
             (or_intror Ha) Hx); [|exact Hflag].
    rewrite Ha. intros E. apply HM. symmetry. exact E.
  - intros Hb Ha Hx HB HO.
    assert (Ha' : a = theta_modes_in L \/ a = 1) by tauto.
    assert (Hn : a = theta_modes_in L \/ theta_normalize_env_output L = false)
      by tauto.
    destruct (broadcast_accepted L x components B a b Hwf Hc Hb Ha' Hx Hn HB HO)
      as (tx & pq & R & _).
    rewrite R. reflexivity.
Qed.

Lemma forward_failure_modes_witness :
  (exists e,
     run (forward demo_x (full [2; 2; 3] 1%R)) (demo 4 3 2 2 true true true ones)
       = Err e) /\
  (exists e,
     run (forward demo_x (full [2; 3; 4] 1%R)) (demo 4 3 2 2 true true true ones)
       = Err e) /\
  run (forward demo_x (full [2; 1; 4] 1%R)) (demo 4 3 2 2 true true true ones)
    = Err RuntimeError /\
  is_ok (run (forward demo_x (full [2; 2; 1] 1%R))
             (demo 4 3 2 2 true true true ones)) = true /\
  is_ok (run (forward demo_x (full [2; 1; 4] 1%R))
             (demo 4 3 2 2 true true false ones)) = true /\
  is_ok (run (forward demo_x demo_components) (demo 4 3 2 2 true true true ones))
    = true.
Proof.
  assert (Hwf : wf_layer (demo 4 3 2 2 true true true ones))
    by (apply demo_wf; lia).
  assert (Hwf' : wf_layer (demo 4 3 2 2 true true false ones))
    by (apply demo_wf; lia).
  split; [|split; [|split; [|split; [|split]]]].
  - apply (proj1 (forward_failure_modes (demo 4 3 2 2 true true true ones)
                    demo_x (full [2; 2; 3] 1%R) [2] 2 3 Hwf eq_refl)).
    left. cbn. lia.
  - apply (proj1 (forward_failure_modes (demo 4 3 2 2 true true true ones)
                    demo_x (full [2; 3; 4] 1%R) [2] 3 4 Hwf eq_refl)).
    right. cbn. lia.
  - apply (proj1 (proj2 (forward_failure_modes (demo 4 3 2 2 true true true ones)
                           demo_x (full [2; 1; 4] 1%R) [2] 1 4 Hwf eq_refl))).
    + reflexivity.
    + cbn. lia.
    + reflexivity.
    + left. reflexivity.
    + reflexivity.
  - apply (proj2 (proj2 (forward_failure_modes (demo 4 3 2 2 true true true ones)
                           demo_x (full [2; 2; 1] 1%R) [2] 2 1 Hwf eq_refl))).
    + right. reflexivity.
    + left. reflexivity.
    + reflexivity.
    + repeat constructor.
    + cbn. lia.
  - apply (proj2 (proj2 (forward_failure_modes (demo 4 3 2 2 true true false ones)
                           demo_x (full [2; 1; 4] 1%R) [2] 1 4 Hwf' eq_refl))).
    + left. reflexivity.
    + right. split; reflexivity.
    + reflexivity.
    + repeat constructor.
    + cbn. lia.
  - apply (proj2 (proj2 (forward_failure_modes (demo 4 3 2 2 true true true ones)
                           demo_x demo_components [2] 2 4 Hwf eq_refl))).
    + left. reflexivity.
    + left. reflexivity.
    + reflexivity.
    + repeat constructor.
    + cbn. lia.
Defined.

(** C8 as stated fails.  [components] of shape [[2, 2, 1]] differ from
    [(modes_in, in_features) = (2, 4)] in their last axis, and [forward]
    returns: the axis of size 1 is broadcast.  And a conformant input with
    an empty batch makes [forward] raise. *)
Lemma forward_failure_modes_counterexample :
  shape (full [2; 2; 1] 1%R) = [2] ++ [2; 1] /\
  in_features (demo 4 3 2 2 true false false ones) = 4 /\
  rshapes (run (forward demo_x (full [2; 2; 1] 1%R))
               (demo 4 3 2 2 true false false ones))
    = Ok ([2; 3], [2; 2; 4; 3]) /\
  shape (full [0; 4] 1%R) = [0] ++ [in_features (demo 4 3 2 2 true false false ones)] /\
  shape (full [0; 2; 4] 1%R)
    = [0] ++ [theta_modes_in (demo 4 3 2 2 true false false ones);
              in_features (demo 4 3 2 2 true false false ones)] /\
  run (forward (full [0; 4] 1%R) (full [0; 2; 4] 1%R))
      (demo 4 3 2 2 true false false ones) = Err RuntimeError.
Proof.
  repeat split; vm_compute; reflexivity.
Qed.

(* ================================================================= *)
(** ** Further properties of the constructor *)

(** X1.  [__init__] returns a layer when [in_features], [theta_modes_in]
    and [theta_modes_out] are all positive, and raises
    [ZeroDivisionError] when one of them is 0: the bounds of the
    initializers divide by them.  [out_features] may be 0. *)
Theorem constructor_raises_on_zero_sizes
    (I O Mi No : nat) (f nin nout wb : bool) (d : draws) :
  (0 < I -> 0 < Mi -> 0 < No ->
   exists L, __init__ I O Mi No f nin nout wb d = Ok L) /\
  (I = 0 \/ Mi = 0 \/ No = 0 ->
   __init__ I O Mi No f nin nout wb d = Err ZeroDivisionError).
Proof.
  split.
  - intros HI HM HN.
    unfold __init__, _initializer_individual, _initializer_env,
      _initializer_perception, _initializer_emission.
    destruct (Nat.eqb_spec I 0); [lia|].
    destruct (Nat.eqb_spec Mi 0); [lia|]. cbn [rbind].
    destruct (Nat.eqb_spec (Mi * numel [No * 4]) 0) as [E|_];
      [cbn in E; nia|].
    eexists. reflexivity.
  - apply init_zero.
Qed.

Lemma constructor_raises_on_zero_sizes_witness :
  (exists L, __init__ 4 0 2 2 true true true false ones = Ok L) /\
  __init__ 4 3 0 2 true true true true ones = Err ZeroDivisionError.
Proof.
  split.
  - apply (proj1 (constructor_raises_on_zero_sizes 4 0 2 2 true true true false ones));
      lia.
  - apply (proj2 (constructor_raises_on_zero_sizes 4 3 0 2 true true true true ones)).
    right. left. reflexivity.
Defined.

(** X2.  A layer that [__init__] returns is well formed: it stores the
    sizes and flags it was given, [theta_quad_out] is
    [4 * theta_modes_out], [theta_feautures] is [out_features] or 1 as
    [theta_full_features] says, every parameter has the shape the
    constructor gives it, and each normalisation module is a LayerNorm
    exactly when its flag is set. *)
Theorem constructor_establishes_shapes
    (I O Mi No : nat) (f nin nout wb : bool) (d : draws) (L : DyNAThetaLinear) :
  __init__ I O Mi No f nin nout wb d = Ok L ->
  wf_layer L /\
  in_features L = I /\ out_features L = O /\
  theta_modes_in L = Mi /\ theta_modes_out L = No /\
  theta_quad_out L = No * 4 /\
  theta_feautures L = (if f then O else 1) /\
  theta_normalize_env_input L = nin /\
  theta_normalize_env_output L = nout /\
  (bias L = None <-> wb = false).
Proof.
  intros H. split; [exact (init_wf I O Mi No f nin nout wb d L H)|].
  revert H. unfold __init__, _initializer_individual, _initializer_env,
    _initializer_perception, _initializer_emission.
  destruct (I =? 0); [discriminate|].
  destruct (Mi =? 0); [discriminate|]. cbn [rbind].
  destruct (Mi * numel [No * 4] =? 0); [discriminate|].
  intros H. injection H as <-. cbn.
  repeat split; try reflexivity; destruct wb; intros; congruence.
Qed.

Lemma constructor_establishes_shapes_witness :
  wf_layer (demo 4 3 2 2 false true false ones) /\
  in_features (demo 4 3 2 2 false true false ones) = 4 /\
  out_features (demo 4 3 2 2 false true false ones) = 3 /\
  theta_modes_in (demo 4 3 2 2 false true false ones) = 2 /\
  theta_modes_out (demo 4 3 2 2 false true false ones) = 2 /\
  theta_quad_out (demo 4 3 2 2 false true false ones) = 8 /\
  theta_feautures (demo 4 3 2 2 false true false ones) = 1 /\
  theta_normalize_env_input (demo 4 3 2 2 false true false ones) = true /\
  theta_normalize_env_output (demo 4 3 2 2 false true false ones) = false /\
  (bias (demo 4 3 2 2 false true false ones) = None <-> true = false).
Proof.
  apply (constructor_establishes_shapes 4 3 2 2 false true false true ones).
  reflexivity.
Defined.

Lemma init_emission_affine
    (I O Mi No : nat) (f nin nout wb : bool) (d : draws) (L : DyNAThetaLinear) :
  __init__ I O Mi No f nin nout wb d = Ok L ->
  (forall idx, entry (emission_scale L) idx = 1%R) /\
  (forall idx, entry (emission_bias L) idx = 0%R).
Proof.
  unfold __init__, _initializer_individual, _initializer_env,
    _initializer_perception, _initializer_emission.
  destruct (I =? 0); [discriminate|].
  destruct (Mi =? 0); [discriminate|]. cbn [rbind].
  destruct (Mi * numel [No * 4] =? 0); [discriminate|].
  intros H. injection H as <-. cbn. split; reflexivity.
Qed.

(** X3.  On a freshly constructed layer the emission post-processing is
    the identity ([emission_scale] is all ones, [emission_bias] all
    zeros): [param_quads[..., n, q, o]] is [emission_raw[..., o, 4n + q]]. *)
Theorem fresh_layer_emits_raw
    (I O Mi No : nat) (f nin nout wb : bool) (d : draws)
    (L : DyNAThetaLinear) (x components : tensor) (B : list nat) :
  __init__ I O Mi No f nin nout wb d = Ok L ->
  shape x = B ++ [in_features L] ->
  shape components = B ++ [theta_modes_in L; in_features L] ->
  Forall (lt 0) B ->
  0 < out_features L ->
  exists er pq,
    run (emission_raw x components) L = Ok er /\
    run (param_quads x components) L = Ok pq /\
    forall bi n q o,
      valid_index B bi -> n < theta_modes_out L -> q < 4 -> o < out_features L ->
      entry pq (bi ++ [n; q; o]) = entry er (bi ++ [o; n * 4 + q]).
Proof.
  intros Hinit Hx Hc HB HO.
  pose proof (init_wf I O Mi No f nin nout wb d L Hinit) as Hwf.
  destruct (init_emission_affine I O Mi No f nin nout wb d L Hinit) as [Hs Hb].
  destruct (emission_chain L x components B Hwf Hc Hx)
    as (me & er & es & eb & Rme & Rer & Res & Reb & _).
  destruct (emission_scaled_ok L x components B Hwf Hc Hx er Rer)
    as (es' & Res' & _ & Ees).
  rewrite <- (returns_inj _ _ _ _ Res Res') in Ees.
  destruct (emission_biased_ok L x components B Hwf Hc Hx es Res)
    as (eb' & Reb' & _ & Eeb).
  rewrite <- (returns_inj _ _ _ _ Reb Reb') in Eeb.
  destruct (param_quads_ok L x components B Hwf Hc Hx HB HO eb Reb)
    as (pq & Rpq & _ & Epq).
  exists er, pq.
  split; [apply returns_run; exact Rer|].
  split; [apply returns_run; exact Rpq|].
  intros bi n q o Hv Hn Hq Ho.
  assert (Hk : n * 4 + q < theta_modes_out L * 4) by lia.
  rewrite Epq, Eeb, Ees by assumption. rewrite Hs, Hb. lra.
Qed.

Lemma fresh_layer_emits_raw_witness :
  exists er pq,
    run (emission_raw demo_x demo_components) (demo 4 3 2 2 true true true ones)
      = Ok er /\
    run (param_quads demo_x demo_components) (demo 4 3 2 2 true true true ones)
      = Ok pq /\
    forall bi n q o,
      valid_index [2] bi -> n < 2 -> q < 4 -> o < 3 ->
      entry pq (bi ++ [n; q; o]) = entry er (bi ++ [o; n * 4 + q]).
Proof.
  apply (fresh_layer_emits_raw 4 3 2 2 true true true true ones
           (demo 4 3 2 2 true true true ones) demo_x demo_components [2]).
  - reflexivity.
  - reflexivity.
  - reflexivity.
  - repeat constructor.
  - cbn. lia.
Defined.

(* ================================================================= *)
(** ** Further properties of forward *)

(** X5.  With per-neuron emission weights ([theta_feautures] equal to
    [out_features]) output neuron [o] is contracted against its own slice
    [emission[o]]: [param_quads[..., n, q, o]] is the sum over the modes of
    [modulated_env[..., o, m] * emission[o, m, 4n + q]], times
    [emission_scale[o, 4n + q]], plus [emission_bias[o, 4n + q]]. *)
Theorem per_neuron_emission_weights
    (L : DyNAThetaLinear) (x components : tensor) (B : list nat) :
  wf_layer L ->
  theta_feautures L = out_features L ->
  shape x = B ++ [in_features L] ->
  shape components = B ++ [theta_modes_in L; in_features L] ->
  Forall (lt 0) B ->
  0 < out_features L ->
  exists me pq,
    run (modulated_env x components) L = Ok me /\
    run (param_quads x components) L = Ok pq /\
    forall bi n q o,
      valid_index B bi -> n < theta_modes_out L -> q < 4 -> o < out_features L ->
      entry pq (bi ++ [n; q; o]) =
      (sum_upto (theta_modes_in L) (fun m =>
         entry me (bi ++ [o; m]) * entry (emission L) [o; m; (n * 4 + q)%nat])
       * entry (emission_scale L) [o; (n * 4 + q)%nat]
       + entry (emission_bias L) [o; (n * 4 + q)%nat])%R.
Proof.
  intros Hwf HF Hx Hc HB HO.
  destruct (emission_chain L x components B Hwf Hc Hx)
    as (me & er & es & eb & Rme & _).
  destruct (forward_ok L x components B Hwf Hc Hx HB HO)
    as (tx & pq & _ & _ & Rpq & _).
  exists me, pq.
  split; [apply returns_run; exact Rme|].
  split; [apply returns_run; exact Rpq|].
  intros bi n q o Hv Hn Hq Ho.
  rewrite (param_quads_formula L x components B Hwf Hc Hx HB HO me pq Rme Rpq
             bi n q o Hv Hn Hq Ho).
  rewrite HF, (clamp_lt (out_features L) o Ho). reflexivity.
Qed.

Lemma per_neuron_emission_weights_witness :
  exists me pq,
    run (modulated_env demo_x demo_components) (demo 4 3 2 2 true true true ones)
      = Ok me /\
    run (param_quads demo_x demo_components) (demo 4 3 2 2 true true true ones)
      = Ok pq /\
    forall bi n q o,
      valid_index [2] bi -> n < 2 -> q < 4 -> o < 3 ->
      entry pq (bi ++ [n; q; o]) =
      (sum_upto 2 (fun m =>
         entry me (bi ++ [o; m])
         * entry (emission (demo 4 3 2 2 true true true ones))
             [o; m; (n * 4 + q)%nat])
       * entry (emission_scale (demo 4 3 2 2 true true true ones))
           [o; (n * 4 + q)%nat]
       + entry (emission_bias (demo 4 3 2 2 true true true ones))
           [o; (n * 4 + q)%nat])%R.
Proof.
  apply (per_neuron_emission_weights (demo 4 3 2 2 true true true ones)
           demo_x demo_components [2]).
  - apply demo_wf; lia.
  - reflexivity.
  - reflexivity.
  - reflexivity.
  - repeat constructor.
  - cbn. lia.
Defined.

(** X6.  The final reshape and permutation lose and duplicate nothing:
    every entry [emission_biased[..., o, k]], [k < 4 * theta_modes_out],
    is the entry [param_quads[..., k / 4, k mod 4, o]]. *)
Theorem features_last_relayout
    (L : DyNAThetaLinear) (x components : tensor) (B : list nat) :
  wf_layer L ->
  shape x = B ++ [in_features L] ->
  shape components = B ++ [theta_modes_in L; in_features L] ->
  Forall (lt 0) B ->
  0 < out_features L ->
  exists eb pq,
    run (emission_biased x components) L = Ok eb /\
    run (param_quads x components) L = Ok pq /\
    shape eb = B ++ [out_features L; theta_modes_out L * 4] /\
    shape pq = B ++ [theta_modes_out L; 4; out_features L] /\
    forall bi o k,
      valid_index B bi -> o < out_features L -> k < theta_modes_out L * 4 ->
      entry eb (bi ++ [o; k]) = entry pq (bi ++ [k / 4; k mod 4; o]).
Proof.
  intros Hwf Hx Hc HB HO.
  destruct (emission_chain L x components B Hwf Hc Hx)
    as (me & er & es & eb & _ & _ & _ & Reb & Seb).
  destruct (param_quads_ok L x components B Hwf Hc Hx HB HO eb Reb)
    as (pq & Rpq & Spq & Epq).
  exists eb, pq.
  split; [apply returns_run; exact Reb|].
  split; [apply returns_run; exact Rpq|].
  split; [exact Seb|]. split; [exact Spq|].
  intros bi o k Hv Ho Hk.
  rewrite Epq; try assumption.
  - replace (k / 4 * 4 + k mod 4) with k
      by (pose proof (Nat.div_mod_eq k 4); lia).
    reflexivity.
  - apply Nat.Div0.div_lt_upper_bound. lia.
  - apply Nat.mod_upper_bound. lia.
Qed.

Lemma features_last_relayout_witness :
  exists eb pq,
    run (emission_biased demo_x demo_components) (demo 4 3 2 2 true true true ones)
      = Ok eb /\
    run (param_quads demo_x demo_components) (demo 4 3 2 2 true true true ones)
      = Ok pq /\
    shape eb = [2; 3; 8] /\
    shape pq = [2; 2; 4; 3] /\
    forall bi o k,
      valid_index [2] bi -> o < 3 -> k < 8 ->
      entry eb (bi ++ [o; k]) = entry pq (bi ++ [k / 4; k mod 4; o]).
Proof.
  apply (features_last_relayout (demo 4 3 2 2 true true true ones)
           demo_x demo_components [2]).
  - apply demo_wf; lia.
  - reflexivity.
  - reflexivity.
  - repeat constructor.
  - cbn. lia.
Defined.

(** X7.  A zero input signal switches the environment off:
    [perceptual_x] is [perceptual_bias] broadcast over the batch and
    [transformed_x] is the affine map of [perceptual_bias], whatever
    [components] holds. *)
Theorem zero_signal
    (L : DyNAThetaLinear) (x components : tensor) (B : list nat) :
  wf_layer L ->
  shape x = B ++ [in_features L] ->
  shape components = B ++ [theta_modes_in L; in_features L] ->
  all_zero x ->
  exists px tx,
    run (perceptual_x x components) L = Ok px /\
    run (transformed_x x components) L = Ok tx /\
    (forall bi i, valid_index B bi -> i < in_features L ->
       entry px (bi ++ [i]) = entry (perceptual_bias L) [i]) /\
    (forall bi o, valid_index B bi ->
       entry tx (bi ++ [o]) =
       (sum_upto (in_features L) (fun i =>
          entry (perceptual_bias L) [i] * entry (weight L) [o; i])
        + bias_term (bias L) o)%R).
Proof.
  intros Hwf Hx Hc Hz.
  destruct (env_chain L components B Hwf Hc)
    as (w & cei & es & eb & en & _ & _ & _ & _ & Ren).
  destruct (perceptual_x_ok L x components B Hwf Hc Hx en Ren)
    as (px & Rpx & _ & Epx).
  destruct (transformed_x_ok L x components B Hwf Hc Hx px Rpx)
    as (tx & Rtx & _ & Etx).
  assert (Hpx : forall bi i, valid_index B bi -> i < in_features L ->
            entry px (bi ++ [i]) = entry (perceptual_bias L) [i]).
  { intros bi i Hv Hi. rewrite Epx by assumption.
    rewrite sum_upto_zero; [lra|].
    intros m _. rewrite Hz.
    - rewrite !Rmult_0_l. reflexivity.
    - rewrite Hx. apply valid_index_app; [exact Hv|].
      repeat constructor. exact Hi. }
  exists px, tx.
  split; [apply returns_run; exact Rpx|].
  split; [apply returns_run; exact Rtx|].
  split; [exact Hpx|].
  intros bi o Hv. rewrite Etx. f_equal.
  apply sum_upto_ext. intros i Hi. rewrite Hpx by assumption. reflexivity.
Qed.

Lemma zero_signal_witness :
  exists px tx,
    run (perceptual_x (full [2; 4] 0%R) demo_components)
        (demo 4 3 2 2 true true true ones) = Ok px /\
    run (transformed_x (full [2; 4] 0%R) demo_components)
        (demo 4 3 2 2 true true true ones) = Ok tx /\
    (forall bi i, valid_index [2] bi -> i < 4 ->
       entry px (bi ++ [i])
       = entry (perceptual_bias (demo 4 3 2 2 true true true ones)) [i]) /\
    (forall bi o, valid_index [2] bi ->
       entry tx (bi ++ [o]) =
       (sum_upto 4 (fun i =>
          entry (perceptual_bias (demo 4 3 2 2 true true true ones)) [i]
          * entry (weight (demo 4 3 2 2 true true true ones)) [o; i])
        + bias_term (bias (demo 4 3 2 2 true true true ones)) o)%R).
Proof.
  apply (zero_signal (demo 4 3 2 2 true true true ones)
           (full [2; 4] 0%R) demo_components [2]).
  - apply demo_wf; lia.
  - reflexivity.
  - reflexivity.
  - intros idx _. reflexivity.
Defined.

(** X8.  A signal [x] whose last axis is neither [in_features] nor of
    size 1 (with [in_features] not 1) makes [forward] raise, whatever its
    batch axes are: it cannot be broadcast against the environment. *)
Theorem signal_axis_mismatch_raises
    (L : DyNAThetaLinear) (x components : tensor) (B Bx : list nat) (c : nat) :
  wf_layer L ->
  shape components = B ++ [theta_modes_in L; in_features L] ->
  shape x = Bx ++ [c] ->
  c <> in_features L -> c <> 1 -> in_features L <> 1 ->
  run (forward x components) L = Err RuntimeError.
Proof.
  intros Hwf Hc Hx H1 H2 H3.
  destruct (env_chain L components B Hwf Hc)
    as (w & cei & es & eb & en & _ & _ & _ & Reb & Ren).
  destruct (env_normalized_ok L components B Hwf Hc eb Reb) as (en' & Ren' & Sen & _).
  rewrite <- (returns_inj _ _ _ _ Ren Ren') in Sen.
  destruct (unsqueeze_m1 x (Bx ++ [c]) Hx) as (xu & P1 & S1 & _).
  rewrite <- app_assoc in S1. cbn [app] in S1.
  assert (Hpx : perceptual_x x components L = (Err RuntimeError, L)).
  { unfold perceptual_x. bind_ok Ren. lift_ok P1. apply bind_err.
    unfold lift, mul.
    rewrite (broadcast2_err Rmult xu en Bx B [c; 1] [in_features L; theta_modes_in L]
               RuntimeError S1 Sen eq_refl); [reflexivity|].
    unfold broadcast_shapes. cbn [rev app broadcast_rev].
    rewrite bdim_1_l. cbn [rbind]. rewrite bdim_err by assumption. reflexivity. }
  unfold run, forward, transformed_x.
  rewrite (bind_err _ _ _ _ _ (bind_err _ _ _ _ _ Hpx)). reflexivity.
Qed.

Lemma signal_axis_mismatch_raises_witness :
  run (forward (full [7; 3] 1%R) demo_components) (demo 4 3 2 2 true true true ones)
    = Err RuntimeError.
Proof.
  apply (signal_axis_mismatch_raises (demo 4 3 2 2 true true true ones)
           (full [7; 3] 1%R) demo_components [2] [7] 3).
  - apply demo_wf; lia.
  - reflexivity.
  - reflexivity.
  - cbn. lia.
  - lia.
  - cbn. lia.
Defined.

Lemma components_per_input_low_rank (components : tensor) (L : DyNAThetaLinear) :
  length (shape components) < 2 ->
  components_per_input components L = (Err IndexError, L).
Proof.
  intros H. unfold components_per_input, batch_rank, permute, rank.
  destruct (shape components) as [|a [|b l]]; cbn in H; try lia; reflexivity.
Qed.

(** X9.  [components] with fewer than two axes make [forward] raise,
    whatever the layer and the signal are: the rearrangement of step 1
    needs a mode axis and an input-neuron axis. *)
Theorem components_need_two_axes
    (L : DyNAThetaLinear) (x components : tensor) :
  length (shape components) < 2 ->
  exists e, run (forward x components) L = Err e.
Proof.
  intros H. exists IndexError. unfold run.
  rewrite (forward_err_of_env_sensed L x components IndexError); [reflexivity|].
  apply forward_err_of_weighted.
  unfold individual_sensetivity_weighted. apply bind_err.
  apply components_per_input_low_rank. exact H.
Qed.

Lemma components_need_two_axes_witness :
  exists e,
    run (forward demo_x (full [4] 1%R)) (demo 4 3 2 2 true true true ones) = Err e.
Proof.
  apply (components_need_two_axes (demo 4 3 2 2 true true true ones)
           demo_x (full [4] 1%R)).
  cbn. lia.
Defined.

Lemma sum_upto_scale_r (n : nat) (f : nat -> R) (c : R) :
  sum_upto n (fun j => f j * c)%R = (sum_upto n f * c)%R.
Proof.
  induction n as [|n IH]; cbn.
  - lra.
  - rewrite IH. lra.
Qed.

(** X10.  The input-side environment sees [individual_sensetivity] only
    through its column sums: [cumulative_env_inputs[..., i, m]] is
    [components[..., m, i]] times the sum over the output neurons [o] of
    [individual_sensetivity[o, i, 0]].  The output-side environment is the
    product of the sensitivity matrix with the components:
    [cumulative_env_outputs[..., o, m]] is the sum over [i] of
    [individual_sensetivity[o, i, 0] * components[..., m, i]]. *)
Theorem environments_from_components
    (L : DyNAThetaLinear) (components : tensor) (B : list nat) :
  wf_layer L ->
  shape components = B ++ [theta_modes_in L; in_features L] ->
  exists cei ceo,
    run (cumulative_env_inputs components) L = Ok cei /\
    run (cumulative_env_outputs components) L = Ok ceo /\
    (forall bi i m,
       valid_index B bi -> i < in_features L -> m < theta_modes_in L ->
       entry cei (bi ++ [i; m]) =
       (sensitivity_column_sum L i * entry components (bi ++ [m; i]))%R) /\
    (forall bi o m,
       valid_index B bi -> o < out_features L -> m < theta_modes_in L ->
       entry ceo (bi ++ [o; m]) =
       sum_upto (in_features L) (fun i =>
         entry (individual_sensetivity L) [o; i; 0%nat]
         * entry components (bi ++ [m; i]))%R).
Proof.
  intros Hwf Hc.
  destruct (individual_sensetivity_weighted_ok L components B Hwf Hc)
    as (w & Rw & _ & Ew).
  destruct (cumulative_env_inputs_ok L components B Hwf Hc w Rw)
    as (cei & R1 & _ & E1).
  destruct (cumulative_env_outputs_ok L components B Hwf Hc w Rw)
    as (ceo & R2 & _ & E2).
  exists cei, ceo.
  split; [apply returns_run; exact R1|].
  split; [apply returns_run; exact R2|].
  split.
  - intros bi i m Hv Hi Hm.
    rewrite E1 by (apply valid_index_length; exact Hv).
    unfold sensitivity_column_sum. rewrite <- sum_upto_scale_r.
    apply sum_upto_ext. intros o Ho. apply Ew; assumption.
  - intros bi o m Hv Ho Hm.
    rewrite E2 by (apply valid_index_length; exact Hv).
    apply sum_upto_ext. intros i Hi. apply Ew; assumption.
Qed.

Lemma environments_from_components_witness :
  exists cei ceo,
    run (cumulative_env_inputs demo_components) (demo 4 3 2 2 true true true ones)
      = Ok cei /\
    run (cumulative_env_outputs demo_components) (demo 4 3 2 2 true true true ones)
      = Ok ceo /\
    (forall bi i m, valid_index [2] bi -> i < 4 -> m < 2 ->
       entry cei (bi ++ [i; m]) =
       (sensitivity_column_sum (demo 4 3 2 2 true true true ones) i
        * entry demo_components (bi ++ [m; i]))%R) /\
    (forall bi o m, valid_index [2] bi -> o < 3 -> m < 2 ->
       entry ceo (bi ++ [o; m]) =
       sum_upto 4 (fun i =>
         entry (individual_sensetivity (demo 4 3 2 2 true true true ones))
           [o; i; 0%nat]
         * entry demo_components (bi ++ [m; i]))%R).
Proof.
  apply (environments_from_components (demo 4 3 2 2 true true true ones)
           demo_components [2]).
  - apply demo_wf; lia.
  - reflexivity.
Defined.

Lemma norm_output_blind_ret {A} (a : A) : norm_output_blind (ret a).
Proof. intros L n. split; reflexivity. Qed.

Lemma norm_output_blind_lift {A} (r : result A) : norm_output_blind (lift r).
Proof. intros L n. split; reflexivity. Qed.

Lemma norm_output_blind_attr {A} (g : DyNAThetaLinear -> A) :
  (forall L n, g (with_norm_env_output L n) = g L) ->
  norm_output_blind (attr g).
Proof.
  intros Hg L n. unfold run, after, attr. cbn. rewrite Hg. split; reflexivity.
Qed.

Lemma norm_output_blind_bind {A B} (m : M A) (f : A -> M B) :
  norm_output_blind m -> (forall a, norm_output_blind (f a)) ->
  norm_output_blind (bind m f).
Proof.
  intros Hm Hf L n. destruct (Hm L n) as [Hr Ha].
  unfold run, after, bind in *.
  destruct (m L) as [r0 s0]. destruct (m (with_norm_env_output L n)) as [r1 s1].
  cbn in Hr, Ha. subst r1 s1.
  destruct r0 as [a|err]; [|split; reflexivity].
  apply (Hf a s0 n).
Qed.

Create HintDb nblind.
#[export] Hint Resolve norm_output_blind_ret norm_output_blind_lift : nblind.
#[export] Hint Extern 1 (norm_output_blind (attr _)) =>
  apply norm_output_blind_attr; reflexivity : nblind.
#[export] Hint Extern 2 (norm_output_blind (bind _ _)) =>
  apply norm_output_blind_bind; [ | intro ] : nblind.

(** X11.  [transformed_x] does not depend on the output normalisation:
    with [norm_env_output] replaced by any other module and everything
    else the same, [transformed_x] is computed to the same result (or
    raises the same error). *)
Theorem transformed_x_ignores_output_norm
    (L : DyNAThetaLinear) (n : norm_module) (x components : tensor) :
  run (transformed_x x components) (with_norm_env_output L n)
    = run (transformed_x x components) L.
Proof.
  assert (H : norm_output_blind (transformed_x x components)).
  { unfold transformed_x, perceptual_x, env_normalized, env_biased, env_sensed,
      cumulative_env_inputs, individual_sensetivity_weighted, components_per_input.
    auto 40 with nblind. }
  apply (H L n).
Qed.

(* ================================================================= *)
(** ** Batch elements are processed independently *)

(** A normalisation module works slice by slice: where two tensors agree
    on the slice at batch index [bi], so do their normalisations. *)
Lemma apply_norm_agree (flag : bool) (d1 d2 : nat) (n : norm_module)
    (B bi : list nat) (t t' u u' : tensor) :
  wf_norm flag [d1; d2] n ->
  shape t = B ++ [d1; d2] -> shape t' = B ++ [d1; d2] ->
  length bi = length B ->
  (forall i m, i < d1 -> m < d2 ->
     entry t (bi ++ [i; m]) = entry t' (bi ++ [i; m])) ->
  apply_norm n t = Ok u -> apply_norm n t' = Ok u' ->
  forall i m, i < d1 -> m < d2 ->
    entry u (bi ++ [i; m]) = entry u' (bi ++ [i; m]).
Proof.
  intros Hn Hs Hs' Hlen Hag Hu Hu' i m Hi Hm.
  destruct n as [|ns eps lw lb]; cbn in *.
  - injection Hu as <-. injection Hu' as <-. apply Hag; assumption.
  - destruct Hn as (_ & -> & _ & _).
    destruct (layer_norm_ok [d1; d2] eps lw lb t B Hs) as (v & P & _ & E).
    destruct (layer_norm_ok [d1; d2] eps lw lb t' B Hs') as (v' & P' & _ & E').
    rewrite P in Hu. injection Hu as <-.
    rewrite P' in Hu'. injection Hu' as <-.
    rewrite E, E' by exact Hlen. cbv zeta.
    assert (Hxs : map (fun j => entry t (bi ++ j)) (all_indices [d1; d2])
                  = map (fun j => entry t' (bi ++ j)) (all_indices [d1; d2])).
    { apply map_ext_in. intros j Hj. apply all_indices_valid in Hj.
      apply valid_index_2 in Hj. destruct Hj as (i' & m' & -> & Hi' & Hm').
      apply Hag; assumption. }
    rewrite Hxs, (Hag i m Hi Hm). reflexivity.
Qed.

(** Every local of [forward] on a conformant input with elements, with
    the entries of each in terms of the locals before it. *)
Lemma forward_trace (L : DyNAThetaLinear) (x components : tensor) (B : list nat) :
  wf_layer L ->
  shape components = B ++ [theta_modes_in L; in_features L] ->
  shape x = B ++ [in_features L] ->
  Forall (lt 0) B -> 0 < out_features L ->
  exists w cei ceo es eb en px tx meg me pq,
    returns (forward x components) L (tx, pq) /\
    (forall bi o i m, valid_index B bi ->
       o < out_features L -> i < in_features L -> m < theta_modes_in L ->
       entry w (bi ++ [o; i; m]) =
       (entry (individual_sensetivity L) [o; i; 0%nat]
        * entry components (bi ++ [m; i]))%R) /\
    (forall bi i m, length bi = length B ->
       entry cei (bi ++ [i; m]) =
       sum_upto (out_features L) (fun o => entry w (bi ++ [o; i; m]))) /\
    (forall bi o m, length bi = length B ->
       entry ceo (bi ++ [o; m]) =
       sum_upto (in_features L) (fun i => entry w (bi ++ [o; i; m]))) /\
    (forall bi i m, valid_index B bi -> i < in_features L -> m < theta_modes_in L ->
       entry es (bi ++ [i; m]) =
       (entry cei (bi ++ [i; m]) * entry (env_sensetivity L) [i; m])%R) /\
    (forall bi i m, valid_index B bi -> i < in_features L -> m < theta_modes_in L ->
       entry eb (bi ++ [i; m]) =
       (entry es (bi ++ [i; m]) + entry (env_bias L) [i; m])%R) /\
    shape eb = B ++ [in_features L; theta_modes_in L] /\
    apply_norm (norm_env_input L) eb = Ok en /\
    (forall bi i, valid_index B bi -> i < in_features L ->
       entry px (bi ++ [i]) =
       (sum_upto (theta_modes_in L) (fun m =>
          entry x (bi ++ [i]) * entry en (bi ++ [i; m])
          * entry (perception L) [i; m; 0%nat])
        + entry (perceptual_bias L) [i])%R) /\
    (forall bi o,
       entry tx (bi ++ [o]) =
       (sum_upto (in_features L) (fun i =>
          entry px (bi ++ [i]) * entry (weight L) [o; i])
        + bias_term (bias L) o)%R) /\
    (forall bi o m, valid_index B bi -> o < out_features L -> m < theta_modes_in L ->
       entry meg (bi ++ [o; m]) =
       (entry ceo (bi ++ [o; m]) * entry tx (bi ++ [o]))%R) /\
    shape meg = B ++ [out_features L; theta_modes_in L] /\
    apply_norm (norm_env_output L) meg = Ok me /\
    (forall bi n q o, valid_index B bi ->
       n < theta_modes_out L -> q < 4 -> o < out_features L ->
       entry pq (bi ++ [n; q; o]) =
       (sum_upto (theta_modes_in L) (fun m =>
          entry me (bi ++ [o; m])
          * entry (emission L) [clamp (theta_feautures L) o; m; (n * 4 + q)%nat])
        * entry (emission_scale L) [o; (n * 4 + q)%nat]
        + entry (emission_bias L) [o; (n * 4 + q)%nat])%R).
Proof.
  intros Hwf Hc Hx HB HO.
  destruct (individual_sensetivity_weighted_ok L components B Hwf Hc)
    as (w & Rw & _ & Ew).
  destruct (cumulative_env_inputs_ok L components B Hwf Hc w Rw)
    as (cei & Rcei & _ & Ecei).
  destruct (cumulative_env_outputs_ok L components B Hwf Hc w Rw)
    as (ceo & Rceo & _ & Eceo).
  destruct (env_sensed_ok L components B Hwf Hc cei Rcei) as (es & Res & _ & Ees).
  destruct (env_biased_ok L components B Hwf Hc es Res) as (eb & Reb & Seb & Eeb).
  destruct (env_normalized_ok L components B Hwf Hc eb Reb) as (en & Ren & _ & Pen).
  destruct (perceptual_x_ok L x components B Hwf Hc Hx en Ren) as (px & Rpx & _ & Epx).
  destruct (transformed_x_ok L x components B Hwf Hc Hx px Rpx)
    as (tx & Rtx & _ & Etx).
  destruct (modulated_env_gated_ok L x components B Hwf Hc Hx tx ceo Rtx Rceo)
    as (meg & Rmeg & Smeg & Emeg).
  destruct (modulated_env_ok L x components B Hwf Hc Hx meg Rmeg)
    as (me & Rme & _ & Pme).
  destruct (forward_ok L x components B Hwf Hc Hx HB HO)
    as (tx' & pq & Rf & Rtx' & Rpq & _).
  rewrite <- (returns_inj _ _ _ _ Rtx Rtx') in Rf.
  exists w, cei, ceo, es, eb, en, px, tx, meg, me, pq.
  repeat (split; [assumption|]).
  exact (param_quads_formula L x components B Hwf Hc Hx HB HO me pq Rme Rpq).
Qed.

(** X12.  [forward] treats the elements of a batch independently: if two
    conformant inputs agree at one batch index [bi] (the signal and the
    components there are the same), the two results agree at [bi], in
    [transformed_x] and in [param_quads].  The layer normalisations, too,
    work within one batch element. *)
Theorem forward_batch_local
    (L : DyNAThetaLinear) (x x' components components' : tensor) (B bi : list nat) :
  wf_layer L ->
  shape x = B ++ [in_features L] ->
  shape x' = B ++ [in_features L] ->
  shape components = B ++ [theta_modes_in L; in_features L] ->
  shape components' = B ++ [theta_modes_in L; in_features L] ->
  Forall (lt 0) B -> 0 < out_features L ->
  valid_index B bi ->
  (forall i, i < in_features L -> entry x (bi ++ [i]) = entry x' (bi ++ [i])) ->
  (forall m i, m < theta_modes_in L -> i < in_features L ->
     entry components (bi ++ [m; i]) = entry components' (bi ++ [m; i])) ->
  exists tx pq tx' pq',
    run (forward x components) L = Ok (tx, pq) /\
    run (forward x' components') L = Ok (tx', pq') /\
    (forall o, o < out_features L ->
       entry tx (bi ++ [o]) = entry tx' (bi ++ [o])) /\
    (forall n q o, n < theta_modes_out L -> q < 4 -> o < out_features L ->
       entry pq (bi ++ [n; q; o]) = entry pq' (bi ++ [n; q; o])).
Proof.
  intros Hwf Hx Hx' Hc Hc' HB HO Hv Hxe Hce.
  pose proof (valid_index_length B bi Hv) as Hlen.
  destruct (forward_trace L x components B Hwf Hc Hx HB HO)
    as (w & cei & ceo & es & eb & en & px & tx & meg & me & pq
        & Rf & Ew & Ecei & Eceo & Ees & Eeb & Seb & Pen & Epx & Etx
        & Emeg & Smeg & Pme & Epq).
  destruct (forward_trace L x' components' B Hwf Hc' Hx' HB HO)
    as (w' & cei' & ceo' & es' & eb' & en' & px' & tx' & meg' & me' & pq'
        & Rf' & Ew' & Ecei' & Eceo' & Ees' & Eeb' & Seb' & Pen' & Epx' & Etx'
        & Emeg' & Smeg' & Pme' & Epq').
  assert (Aw : forall o i m,
            o < out_features L -> i < in_features L -> m < theta_modes_in L ->
            entry w (bi ++ [o; i; m]) = entry w' (bi ++ [o; i; m])).
  { intros o i m Ho Hi Hm. rewrite Ew, Ew' by assumption.
    rewrite Hce by assumption. reflexivity. }
  assert (Aeb : forall i m, i < in_features L -> m < theta_modes_in L ->
            entry eb (bi ++ [i; m]) = entry eb' (bi ++ [i; m])).
  { intros i m Hi Hm.
    rewrite Eeb, Eeb', Ees, Ees', Ecei, Ecei' by assumption.
    do 2 f_equal. apply sum_upto_ext. intros o Ho. apply Aw; assumption. }
  pose proof (apply_norm_agree _ _ _ _ B bi eb eb' en en'
                (wf_norm_in L Hwf) Seb Seb' Hlen Aeb Pen Pen') as Aen.
  assert (Apx : forall i, i < in_features L ->
            entry px (bi ++ [i]) = entry px' (bi ++ [i])).
  { intros i Hi. rewrite Epx, Epx' by assumption. f_equal.
    apply sum_upto_ext. intros m Hm.
    rewrite Hxe, Aen by assumption. reflexivity. }
  assert (Atx : forall o, entry tx (bi ++ [o]) = entry tx' (bi ++ [o])).
  { intros o. rewrite Etx, Etx'. f_equal.
    apply sum_upto_ext. intros i Hi. rewrite Apx by assumption. reflexivity. }
  assert (Ameg : forall o m, o < out_features L -> m < theta_modes_in L ->
            entry meg (bi ++ [o; m]) = entry meg' (bi ++ [o; m])).
  { intros o m Ho Hm. rewrite Emeg, Emeg', Eceo, Eceo', Atx by assumption.
    f_equal. apply sum_upto_ext. intros i Hi. apply Aw; assumption. }
  pose proof (apply_norm_agree _ _ _ _ B bi meg meg' me me'
                (wf_norm_out L Hwf) Smeg Smeg' Hlen Ameg Pme Pme') as Ame.
  exists tx, pq, tx', pq'.
  split; [apply returns_run; exact Rf|].
  split; [apply returns_run; exact Rf'|].
  split; [intros o _; apply Atx|].
  intros n q o Hn Hq Ho. rewrite Epq, Epq' by assumption.
  do 2 f_equal. apply sum_upto_ext. intros m Hm.
  rewrite Ame by assumption. reflexivity.
Qed.

Lemma forward_batch_local_witness :
  exists tx pq tx' pq',
    run (forward demo_x demo_components) (demo 4 3 2 2 true true true ones)
      = Ok (tx, pq) /\
    run (forward demo_x_other demo_components_other)
        (demo 4 3 2 2 true true true ones) = Ok (tx', pq') /\
    (forall o, o < 3 -> entry tx ([0] ++ [o]) = entry tx' ([0] ++ [o])) /\
    (forall n q o, n < 2 -> q < 4 -> o < 3 ->
       entry pq ([0] ++ [n; q; o]) = entry pq' ([0] ++ [n; q; o])).
Proof.
  apply (forward_batch_local (demo 4 3 2 2 true true true ones)
           demo_x demo_x_other demo_components demo_components_other [2] [0]).
  - apply demo_wf; lia.
  - reflexivity.
  - reflexivity.
  - reflexivity.
  - reflexivity.
  - repeat constructor.
  - cbn. lia.
  - repeat constructor.
  - intros i _. reflexivity.
  - intros m i _ _. reflexivity.
Defined.

(* ================================================================= *)
(** ** One modulation profile for a whole batch *)

Lemma broadcast_shapes_nil_l (B : list nat) : broadcast_shapes [] B = Ok B.
Proof.
  unfold broadcast_shapes. cbn [rev broadcast_rev rbind].
  now rewrite rev_involutive.
Qed.

(** X13.  [components] without batch axes, of shape
    [[modes_in, in_features]], are shared by every element of the batch of
    [x]: for [x] of shape [[*B, in_features]] with elements [forward]
    returns [transformed_x] of shape [[*B, out_features]] and
    [param_quads] of shape [[*B, modes_out, 4, out_features]]. *)
Theorem shared_profile_shapes
    (L : DyNAThetaLinear) (x components : tensor) (B : list nat) :
  wf_layer L ->
  shape components = [theta_modes_in L; in_features L] ->
  shape x = B ++ [in_features L] ->
  Forall (lt 0) B ->
  0 < out_features L ->
  exists tx pq,
    run (forward x components) L = Ok (tx, pq) /\
    shape tx = B ++ [out_features L] /\
    shape pq = B ++ [theta_modes_out L; 4; out_features L].
Proof.
  intros Hwf Hc Hx HB HO.
  assert (Hc0 : shape components = [] ++ [theta_modes_in L; in_features L])
    by exact Hc.
  (* the locals that depend on the components alone *)
  destruct (env_chain L components [] Hwf Hc0)
    as (w & cei & es & eb & en & Rw & _ & _ & Reb & Ren).
  destruct (env_normalized_ok L components [] Hwf Hc0 eb Reb) as (en' & Ren' & Sen & _).
  rewrite <- (returns_inj _ _ _ _ Ren Ren') in Sen. clear Ren'.
  destruct (cumulative_env_outputs_ok L components [] Hwf Hc0 w Rw)
    as (ceo & Rceo & Sceo & _).
  (* perceptual_x *)
  destruct (unsqueeze_m1 x (B ++ [in_features L]) Hx) as (xu & P1 & S1 & _).
  rewrite <- app_assoc in S1. cbn [app] in S1.
  destruct (broadcast2_app Rmult xu en B [] B
              [in_features L; 1] [in_features L; theta_modes_in L]
              [in_features L; theta_modes_in L]
              S1 Sen eq_refl (broadcast_shapes_nil_r B))
    as (p1 & P2 & S2 & _); [solve_bshape|].
  destruct (einsum_bij_ijk_bik_ok p1 (perception L) B
              (in_features L) (theta_modes_in L) (in_features L) (theta_modes_in L)
              1 (in_features L) (theta_modes_in L)
              S2 (wf_perception L Hwf) (bdim_refl _) (bdim_refl _))
    as (p2 & P3 & S3 & _).
  destruct (squeeze_last_one p2 (B ++ [in_features L])) as (p3 & P4 & S4 & _).
  { rewrite S3, <- app_assoc. reflexivity. }
  destruct (broadcast2_app Rplus p3 (perceptual_bias L) B [] B
              [in_features L] [in_features L] [in_features L]
              S4 (wf_perceptual_bias L Hwf) eq_refl (broadcast_shapes_nil_r B))
    as (px & P5 & S5 & _); [solve_bshape|].
  assert (Rpx : returns (perceptual_x x components) L px).
  { unfold perceptual_x. bind_ok Ren. lift_ok P1. lift_ok P2.
    rewrite bind_attr. lift_ok P3. lift_ok P4. rewrite bind_attr.
    apply returns_lift. exact P5. }
  (* transformed_x *)
  destruct (linear_ok px (weight L) (bias L) B (out_features L) (in_features L)
              S5 (wf_weight L Hwf) (wf_bias L Hwf)) as (tx & P6 & S6 & _).
  assert (Rtx : returns (transformed_x x components) L tx).
  { unfold transformed_x. bind_ok Rpx. rewrite !bind_attr.
    apply returns_lift. exact P6. }
  (* modulated_env *)
  destruct (unsqueeze_m1 tx (B ++ [out_features L]) S6) as (txu & P7 & S7 & _).
  rewrite <- app_assoc in S7. cbn [app] in S7.
  destruct (broadcast2_app Rmult ceo txu [] B B
              [out_features L; theta_modes_in L] [out_features L; 1]
              [out_features L; theta_modes_in L]
              Sceo S7 eq_refl (broadcast_shapes_nil_l B))
    as (meg & P8 & S8 & _); [solve_bshape|].
  destruct (apply_norm_ok B _ _ _ meg (wf_norm_out L Hwf) S8) as (me & P9 & S9 & _).
  assert (Rmeg : returns (modulated_env_gated x components) L meg).
  { unfold modulated_env_gated. bind_ok Rtx. bind_ok Rceo. lift_ok P7.
    apply returns_lift. exact P8. }
  assert (Rme : returns (modulated_env x components) L me).
  { unfold modulated_env. bind_ok Rmeg. rewrite bind_attr.
    apply returns_lift. exact P9. }
  (* emission *)
  pose proof (wf_emission L Hwf) as Se. rewrite (wf_quad L Hwf) in Se.
  destruct (einsum_bij_ijk_bik_ok me (emission L) B
              (out_features L) (theta_modes_in L) (theta_feautures L)
              (theta_modes_in L) (theta_modes_out L * 4)
              (out_features L) (theta_modes_in L)
              S9 Se (bdim_features L Hwf) (bdim_refl _)) as (er & P10 & S10 & _).
  pose proof (wf_emission_scale L Hwf) as Ss. rewrite (wf_quad L Hwf) in Ss.
  destruct (einsum_bij_ij_bij_ok er (emission_scale L) B
              (out_features L) (theta_modes_out L * 4)
              (out_features L) (theta_modes_out L * 4)
              (out_features L) (theta_modes_out L * 4)
              S10 Ss (bdim_refl _) (bdim_refl _)) as (esc & P11 & S11 & _).
  pose proof (wf_emission_bias L Hwf) as Sb. rewrite (wf_quad L Hwf) in Sb.
  destruct (reshape_ones (emission_bias L) (length B)
              [out_features L; theta_modes_out L * 4] Sb) as (r & P12 & S12 & _).
  destruct (broadcast2_app Rplus esc r B (repeat 1 (length B)) B
              [out_features L; theta_modes_out L * 4]
              [out_features L; theta_modes_out L * 4]
              [out_features L; theta_modes_out L * 4]
              S11 S12 eq_refl (broadcast_shapes_ones_r B (length B) eq_refl))
    as (ebi & P13 & S13 & _); [solve_bshape|].
  assert (Rer : returns (emission_raw x components) L er).
  { unfold emission_raw. bind_ok Rme. rewrite bind_attr.
    apply returns_lift. exact P10. }
  assert (Resc : returns (emission_scaled x components) L esc).
  { unfold emission_scaled. bind_ok Rer. rewrite bind_attr.
    apply returns_lift. exact P11. }
  assert (Rebi : returns (emission_biased x components) L ebi).
  { unfold emission_biased. bind_ok Resc. rewrite bind_attr.
    unfold rank. rewrite S11, Sb, length_app. cbn [length].
    replace (length B + 2 - 2) with (length B) by lia.
    lift_ok P12. apply returns_lift. exact P13. }
  (* param_quads *)
  assert (S13' : shape ebi = (B ++ [out_features L]) ++ [theta_modes_out L * 4])
    by (rewrite S13, <- app_assoc; reflexivity).
  destruct (reshape_split ebi (B ++ [out_features L]) (theta_modes_out L) 4 S13')
    as (p & P14 & S14 & _).
  { rewrite numel_app. cbn [numel fold_right].
    pose proof (numel_pos B HB). pose proof (wf_modes_out L Hwf). nia. }
  rewrite <- app_assoc in S14. cbn [app] in S14.
  destruct (permute_features_last p B (out_features L) (theta_modes_out L) 4 S14)
    as (pq & P15 & S15 & _).
  assert (Rpq : returns (param_quads x components) L pq).
  { unfold param_quads. bind_ok Rebi. rewrite bind_attr.
    lift_ok P14. unfold rank. rewrite S14, length_app. cbn [length].
    replace (length B + 3 - 3) with (length B) by lia.
    apply returns_lift. exact P15. }
  exists tx, pq. split; [|split; assumption].
  unfold run, forward. bind_ok Rtx. bind_ok Rpq. reflexivity.
Qed.

Lemma shared_profile_shapes_witness :
  exists tx pq,
    run (forward demo_x (full [2; 4] 1%R)) (demo 4 3 2 2 true true true ones)
      = Ok (tx, pq) /\
    shape tx = [2; 3] /\ shape pq = [2; 2; 4; 3].
Proof.
  apply (shared_profile_shapes (demo 4 3 2 2 true true true ones)
           demo_x (full [2; 4] 1%R) [2]).
  - apply demo_wf; lia.
  - reflexivity.
  - reflexivity.
  - repeat constructor.
  - cbn. lia.
Defined.

(* ================================================================= *)
(** ** The weight utilities of the training script *)

Section TrainDecoderFacts.

Import TrainDecoder.
Local Open Scope R_scope.
Local Open Scope string_scope.

(* ----------------------------------------------------------------- *)
(** *** Names *)

Lemma append_assoc (a b c : String.string) :
  String.append (String.append a b) c = String.append a (String.append b c).
Proof.
  induction a as [|x a IH]; cbn; [reflexivity|]. now rewrite IH.
Qed.

Lemma startswith_inv (a b : String.string) :
  startswith a b = true -> exists s, b = String.append a s.
Proof.
  revert b. induction a as [|x a IH]; intros b H.
  - exists b. reflexivity.
  - destruct b as [|y b]; cbn in H; [discriminate|].
    apply andb_true_iff in H. destruct H as [Hxy H].
    apply Ascii.eqb_eq in Hxy. subst y.
    destruct (IH b H) as [s ->]. exists s. reflexivity.
Qed.

Lemma startswith_append (a s : String.string) :
  startswith a (String.append a s) = true.
Proof.
  induction a as [|x a IH]; cbn; [reflexivity|].
  now rewrite Ascii.eqb_refl, IH.
Qed.

Lemma contains_unfold (a b : String.string) :
  contains a b =
  startswith a b ||
  match b with
  | String.EmptyString => false
  | String.String _ b' => contains a b'
  end.
Proof. destruct b; reflexivity. Qed.

(** [contains a b] holds exactly when [b] is [p ++ a ++ s] for some
    strings [p] and [s]. *)
Lemma contains_iff (a b : String.string) :
  contains a b = true <->
  exists p s, b = String.append p (String.append a s).
Proof.
  split.
  - induction b as [|y b IH]; rewrite contains_unfold; intros H.
    + rewrite orb_false_r in H. apply startswith_inv in H.
      destruct H as [s Hs]. exists String.EmptyString, s. exact Hs.
    + apply orb_true_iff in H. destruct H as [H|H].
      * apply startswith_inv in H. destruct H as [s Hs].
        exists String.EmptyString, s. exact Hs.
      * destruct (IH H) as (p & s & ->).
        exists (String.String y p), s. reflexivity.
  - intros (p & s & ->). induction p as [|y p IH].
    + cbn [String.append]. rewrite contains_unfold, startswith_append.
      reflexivity.
    + cbn [String.append]. rewrite contains_unfold, IH. apply orb_true_r.
Qed.

Lemma contains_trans (a b c : String.string) :
  contains a b = true -> contains b c = true -> contains a c = true.
Proof.
  intros Hab Hbc. apply contains_iff in Hab. apply contains_iff in Hbc.
  destruct Hab as (p1 & s1 & ->). destruct Hbc as (p2 & s2 & ->).
  apply contains_iff. exists (String.append p2 p1), (String.append s1 s2).
  now rewrite !append_assoc.
Qed.

Lemma latents_is_cache (name : String.string) :
  contains "data_cache_latents" name = true -> contains "data_cache" name = true.
Proof. apply contains_trans. reflexivity. Qed.

Lemma ctx_is_cache (name : String.string) :
  contains "data_cache_ctx" name = true -> contains "data_cache" name = true.
Proof. apply contains_trans. reflexivity. Qed.

(* ----------------------------------------------------------------- *)
(** *** The loop over the parameters *)

Lemma for_each_cons body name param rest :
  fst (for_each body ((name, param) :: rest)) =
  (name, fst (body name param)) :: fst (for_each body rest).
Proof.
  cbn [for_each]. destruct (body name param) as [p' l].
  destruct (for_each body rest) as [r' l']. reflexivity.
Qed.

Lemma for_each_length body model :
  length (fst (for_each body model)) = length model.
Proof.
  induction model as [|[name param] rest IH]; [reflexivity|].
  rewrite for_each_cons. cbn [length]. now rewrite IH.
Qed.

Lemma for_each_nth body model k name param :
  nth_error model k = Some (name, param) ->
  nth_error (fst (for_each body model)) k = Some (name, fst (body name param)).
Proof.
  revert k. induction model as [|[n p] rest IH]; intros k H.
  - destruct k; discriminate.
  - rewrite for_each_cons. destruct k as [|k]; cbn in H |- *.
    + now inversion H.
    + apply IH. exact H.
Qed.

Lemma for_each_In body model name param' :
  In (name, param') (fst (for_each body model)) ->
  exists param, In (name, param) model /\ param' = fst (body name param).
Proof.
  induction model as [|[n p] rest IH]; intros H.
  - destruct H.
  - rewrite for_each_cons in H. destruct H as [H|H].
    + inversion H. subst. exists p. split; [left; reflexivity|reflexivity].
    + destruct (IH H) as (q & Hq & ->). exists q. split; [right; exact Hq|reflexivity].
Qed.

Lemma for_each_map body model :
  fst (for_each body model) =
  map (fun np => (fst np, fst (body (fst np) (snd np)))) model.
Proof.
  induction model as [|[n p] rest IH]; [reflexivity|].
  rewrite for_each_cons. cbn [map fst snd]. now rewrite IH.
Qed.

(* ----------------------------------------------------------------- *)
(** *** Comparisons *)

Lemma ltb_true (a b : R) : a < b -> ltb a b = true.
Proof. intros H. unfold ltb. destruct (Rlt_dec a b); [reflexivity|contradiction]. Qed.

Lemma ltb_false (a b : R) : b <= a -> ltb a b = false.
Proof. intros H. unfold ltb. destruct (Rlt_dec a b); [lra|reflexivity]. Qed.

Lemma ltb_spec (a b : R) : ltb a b = true <-> a < b.
Proof.
  unfold ltb. destruct (Rlt_dec a b); split; intros; try assumption;
    try reflexivity; try discriminate; contradiction.
Qed.

(* ----------------------------------------------------------------- *)
(** *** The hysteresis loop *)

Lemma hysteresis_element_outside (bound jump v : R) :
  v = 0 \/ bound <= Rabs v -> hysteresis_element bound jump v = v.
Proof.
  intros H. unfold hysteresis_element, ltb.
  repeat destruct Rlt_dec; cbn [andb]; try reflexivity;
    exfalso; destruct H as [H|H]; try lra;
    revert H; unfold Rabs; destruct (Rcase_abs v); lra.
Qed.

Lemma hysteresis_element_below (bound jump v : R) :
  0 < v < bound -> hysteresis_element bound jump v = v - jump.
Proof.
  intros H. unfold hysteresis_element.
  rewrite (ltb_true (- 0) v), (ltb_true v bound), (ltb_false v 0) by lra.
  reflexivity.
Qed.

Lemma hysteresis_element_above (bound jump v : R) :
  - bound < v < 0 -> hysteresis_element bound jump v = v + jump.
Proof.
  intros H. unfold hysteresis_element.
  rewrite (ltb_false (- 0) v), (ltb_true v 0), (ltb_true (- bound) v) by lra.
  reflexivity.
Qed.

Lemma hysteresis_element_cases (bound jump v : R) :
  (0 < v < bound /\ hysteresis_element bound jump v = v - jump) \/
  (- bound < v < 0 /\ hysteresis_element bound jump v = v + jump) \/
  ((v = 0 \/ bound <= Rabs v) /\ hysteresis_element bound jump v = v).
Proof.
  destruct (Rlt_dec 0 v) as [Hp|Hp].
  - destruct (Rlt_dec v bound) as [Hb|Hb].
    + left. split; [lra|]. apply hysteresis_element_below. lra.
    + right. right.
      assert (H : v = 0 \/ bound <= Rabs v)
        by (right; rewrite Rabs_right; lra).
      split; [exact H|]. apply hysteresis_element_outside. exact H.
  - destruct (Rlt_dec v 0) as [Hn|Hn].
    + destruct (Rlt_dec (- bound) v) as [Hb|Hb].
      * right. left. split; [lra|]. apply hysteresis_element_above. lra.
      * right. right.
        assert (H : v = 0 \/ bound <= Rabs v)
          by (right; rewrite Rabs_left; lra).
        split; [exact H|]. apply hysteresis_element_outside. exact H.
    + right. right.
      assert (H : v = 0 \/ bound <= Rabs v) by (left; lra).
      split; [exact H|]. apply hysteresis_element_outside. exact H.
Qed.

Lemma hysteresis_element_clear (bound jump v : R) :
  0 < bound -> 2 * bound <= jump ->
  hysteresis_element bound jump v = 0 \/
  bound <= Rabs (hysteresis_element bound jump v).
Proof.
  intros Hb Hj.
  destruct (hysteresis_element_cases bound jump v)
    as [[H ->]|[[H ->]|[H ->]]].
  - right. rewrite Rabs_left; lra.
  - right. rewrite Rabs_right; lra.
  - exact H.
Qed.

Lemma weights_hysteresis_loop_zero_nth model bound jump k name param :
  nth_error model k = Some (name, param) ->
  nth_error (weights_hysteresis_loop_zero model bound jump) k =
  Some (name,
        if contains "data_cache" name then param
        else set_data param (map_entries (hysteresis_element bound jump) (data param))).
Proof.
  intros H. unfold weights_hysteresis_loop_zero.
  rewrite (for_each_nth _ _ _ _ _ H).
  destruct (contains "data_cache" name); reflexivity.
Qed.

Lemma weights_hysteresis_loop_zero_In model bound jump name param' :
  In (name, param') (weights_hysteresis_loop_zero model bound jump) ->
  exists param,
    In (name, param) model /\
    param' = if contains "data_cache" name then param
             else set_data param
                    (map_entries (hysteresis_element bound jump) (data param)).
Proof.
  intros H. unfold weights_hysteresis_loop_zero in H.
  apply for_each_In in H. destruct H as (p & Hp & ->).
  exists p. split; [exact Hp|].
  destruct (contains "data_cache" name); reflexivity.
Qed.

(* ----------------------------------------------------------------- *)
(** *** Elements and reductions *)

Lemma all_indices_complete (s j : list nat) :
  valid_index s j -> In j (all_indices s).
Proof.
  revert j. induction s as [|d s IH]; intros j H; inversion H; subst.
  - left. reflexivity.
  - cbn [all_indices]. apply in_flat_map. exists x. split.
    + apply in_seq. lia.
    + apply in_map. apply IH. assumption.
Qed.

Lemma all_indices_length (s : list nat) : length (all_indices s) = numel s.
Proof.
  induction s as [|d s IH]; [reflexivity|].
  cbn [all_indices]. unfold numel. cbn [fold_right]. fold (numel s).
  rewrite <- IH. generalize 0%nat.
  induction d as [|d IHd]; intros a; [reflexivity|].
  cbn [seq flat_map]. rewrite length_app, length_map, IHd. lia.
Qed.

Lemma entries_length (t : tensor) : length (entries t) = numel (shape t).
Proof. unfold entries. now rewrite length_map, all_indices_length. Qed.

Lemma entries_map_entries (f : R -> R) (t : tensor) :
  entries (map_entries f t) = map f (entries t).
Proof. unfold entries, map_entries. cbn [shape entry]. now rewrite map_map. Qed.

Lemma entries_In (t : tensor) (idx : list nat) :
  valid_index (shape t) idx -> In (entry t idx) (entries t).
Proof. intros H. unfold entries. apply in_map. now apply all_indices_complete. Qed.

Lemma entries_In_inv (t : tensor) (v : R) :
  In v (entries t) -> exists idx, valid_index (shape t) idx /\ entry t idx = v.
Proof.
  unfold entries. intros H. apply in_map_iff in H. destruct H as (idx & <- & H).
  exists idx. split; [now apply all_indices_valid|reflexivity].
Qed.

Lemma sum_list_nonneg (l : list R) :
  (forall v, In v l -> 0 <= v) -> 0 <= sum_list l.
Proof.
  unfold sum_list. induction l as [|v l IH]; intros H; cbn [fold_right]; [lra|].
  assert (0 <= v) by (apply H; left; reflexivity).
  assert (0 <= fold_right Rplus 0 l) by (apply IH; intros u Hu; apply H; right; exact Hu).
  lra.
Qed.

Lemma sum_list_nonneg_zero (l : list R) :
  (forall v, In v l -> 0 <= v) -> sum_list l = 0 -> forall v, In v l -> v = 0.
Proof.
  unfold sum_list. induction l as [|u l IH]; intros H H0 v Hv; [destruct Hv|].
  cbn [fold_right] in H0.
  assert (0 <= u) by (apply H; left; reflexivity).
  assert (0 <= sum_list l)
    by (apply sum_list_nonneg; intros w Hw; apply H; right; exact Hw).
  unfold sum_list in *.
  destruct Hv as [<-|Hv]; [lra|].
  apply IH; [intros w Hw; apply H; right; exact Hw|lra|exact Hv].
Qed.

Lemma fold_max_init (l : list R) (a : R) : a <= fold_left Rmax l a.
Proof.
  revert a. induction l as [|x l IH]; intros a; cbn [fold_left]; [lra|].
  eapply Rle_trans; [apply (Rmax_l a x)|apply IH].
Qed.

Lemma fold_max_ge (l : list R) (a x : R) : In x l -> x <= fold_left Rmax l a.
Proof.
  revert a. induction l as [|y l IH]; intros a H; [destruct H|].
  cbn [fold_left]. destruct H as [->|H].
  - eapply Rle_trans; [apply (Rmax_r a x)|apply fold_max_init].
  - apply IH. exact H.
Qed.

Lemma fold_max_in (l : list R) (a : R) :
  fold_left Rmax l a = a \/ In (fold_left Rmax l a) l.
Proof.
  revert a. induction l as [|y l IH]; intros a; cbn [fold_left]; [left; reflexivity|].
  destruct (IH (Rmax a y)) as [H|H].
  - rewrite H. unfold Rmax. destruct (Rle_dec a y); [right; left; reflexivity|left; reflexivity].
  - right. right. exact H.
Qed.

Lemma fold_min_init (l : list R) (a : R) : fold_left Rmin l a <= a.
Proof.
  revert a. induction l as [|x l IH]; intros a; cbn [fold_left]; [lra|].
  eapply Rle_trans; [apply IH|apply Rmin_l].
Qed.

Lemma fold_min_le (l : list R) (a x : R) : In x l -> fold_left Rmin l a <= x.
Proof.
  revert a. induction l as [|y l IH]; intros a H; [destruct H|].
  cbn [fold_left]. destruct H as [->|H].
  - eapply Rle_trans; [apply fold_min_init|apply Rmin_r].
  - apply IH. exact H.
Qed.

Lemma fold_max_scale (l : list R) (a c : R) :
  0 <= c ->
  fold_left Rmax (map (fun v => v * c) l) (a * c) = fold_left Rmax l a * c.
Proof.
  intros Hc. revert a. induction l as [|x l IH]; intros a; cbn [map fold_left];
    [reflexivity|].
  rewrite <- IH. f_equal.
  rewrite (Rmult_comm a c), (Rmult_comm x c), (Rmult_comm (Rmax a x) c).
  apply RmaxRmult. exact Hc.
Qed.

Lemma list_min_le (l : list R) (x : R) : In x l -> list_min l <= x.
Proof.
  destruct l as [|v l]; intros H; [destruct H|]. cbn [list_min].
  destruct H as [->|H]; [apply fold_min_init|now apply fold_min_le].
Qed.

Lemma list_max_ge (l : list R) (x : R) : In x l -> x <= list_max l.
Proof.
  destruct l as [|v l]; intros H; [destruct H|]. cbn [list_max].
  destruct H as [->|H]; [apply fold_max_init|now apply fold_max_ge].
Qed.

(** [abs_max] raises exactly on the tensors without elements. *)
Lemma abs_max_err (t : tensor) :
  numel (shape t) = 0%nat -> abs_max t = Err RuntimeError.
Proof.
  intros H. unfold abs_max. rewrite <- entries_length in H.
  destruct (entries t); [reflexivity|discriminate].
Qed.

Lemma abs_max_ok (t : tensor) :
  numel (shape t) <> 0%nat ->
  exists m,
    abs_max t = Ok m /\ 0 <= m /\
    (forall idx, valid_index (shape t) idx -> Rabs (entry t idx) <= m) /\
    (exists idx, valid_index (shape t) idx /\ Rabs (entry t idx) = m).
Proof.
  intros H. unfold abs_max. rewrite <- entries_length in H.
  destruct (entries t) as [|v l] eqn:E; [contradiction|].
  eexists. split; [reflexivity|]. split; [|split].
  - eapply Rle_trans; [apply (Rabs_pos v)|apply fold_max_init].
  - intros idx Hidx. pose proof (entries_In t idx Hidx) as Hin.
    rewrite E in Hin. destruct Hin as [<-|Hin].
    + apply fold_max_init.
    + apply fold_max_ge. apply in_map. exact Hin.
  - destruct (fold_max_in (map Rabs l) (Rabs v)) as [Hm|Hm].
    + destruct (entries_In_inv t v) as (idx & Hidx & Hv);
        [rewrite E; left; reflexivity|].
      exists idx. split; [exact Hidx|]. rewrite Hv. symmetry. exact Hm.
    + apply in_map_iff in Hm. destruct Hm as (u & Hu & Hin).
      destruct (entries_In_inv t u) as (idx & Hidx & Hv);
        [rewrite E; right; exact Hin|].
      exists idx. split; [exact Hidx|]. rewrite Hv. exact Hu.
Qed.

Lemma abs_max_scaled (t : tensor) (m : R) :
  abs_max t = Ok m -> 0 < m ->
  abs_max (map_entries (fun v => v / m) t) = Ok 1.
Proof.
  unfold abs_max. rewrite entries_map_entries.
  destruct (entries t) as [|v l]; [discriminate|]. intros H Hm.
  assert (Hfold : fold_left Rmax (map Rabs l) (Rabs v) = m) by congruence.
  clear H. cbn [map]. f_equal.
  assert (Habs : forall u, Rabs (u / m) = Rabs u * / m).
  { intros u. unfold Rdiv. rewrite Rabs_mult, Rabs_inv.
    rewrite (Rabs_right m) by lra. reflexivity. }
  rewrite map_map.
  rewrite (map_ext (fun u => Rabs (u / m)) (fun u => Rabs u * / m) Habs).
  rewrite Habs. rewrite <- (map_map Rabs (fun u => u * / m)).
  rewrite fold_max_scale by (left; apply Rinv_0_lt_compat; exact Hm).
  rewrite Hfold. field. lra.
Qed.

(* ----------------------------------------------------------------- *)
(** *** The loop with a raising body *)

Lemma for_each_raising_ok body model :
  (forall name p, In (name, p) model -> exists p' l, body name p = Ok (p', l)) ->
  exists model' lines,
    for_each_raising body model = (Ok tt, model', lines) /\
    length model' = length model /\
    forall k name p,
      nth_error model k = Some (name, p) ->
      exists p' l, body name p = Ok (p', l) /\ nth_error model' k = Some (name, p').
Proof.
  induction model as [|[n q] rest IH]; intros H.
  - exists [], []. split; [reflexivity|]. split; [reflexivity|].
    intros [|k] name p Hk; discriminate.
  - destruct (H n q (or_introl eq_refl)) as (q' & l & Hq).
    destruct IH as (rest' & lines & Hr & Hlen & Hnth).
    { intros name p Hin. apply H. right. exact Hin. }
    exists ((n, q') :: rest'), (l ++ lines). split; [|split].
    + cbn [for_each_raising]. rewrite Hq, Hr. reflexivity.
    + cbn [length]. now rewrite Hlen.
    + intros [|k] name p Hk; cbn in Hk |- *.
      * inversion Hk. subst. exists q', l. split; [exact Hq|reflexivity].
      * apply Hnth. exact Hk.
Qed.

Lemma for_each_nth_inv body model k name param' :
  nth_error (fst (for_each body model)) k = Some (name, param') ->
  exists param,
    nth_error model k = Some (name, param) /\ param' = fst (body name param).
Proof.
  revert k. induction model as [|[n p] rest IH]; intros k H.
  - destruct k; discriminate.
  - rewrite for_each_cons in H. destruct k as [|k]; cbn in H |- *.
    + inversion H. subst. exists p. split; reflexivity.
    + apply IH. exact H.
Qed.

Lemma weights_hysteresis_loop_zero_nth_inv model bound jump k name param' :
  nth_error (weights_hysteresis_loop_zero model bound jump) k = Some (name, param') ->
  exists param,
    nth_error model k = Some (name, param) /\
    param' = if contains "data_cache" name then param
             else set_data param
                    (map_entries (hysteresis_element bound jump) (data param)).
Proof.
  intros H. unfold weights_hysteresis_loop_zero in H.
  apply for_each_nth_inv in H. destruct H as (p & Hp & ->).
  exists p. split; [exact Hp|].
  destruct (contains "data_cache" name); reflexivity.
Qed.

(* ----------------------------------------------------------------- *)
(** *** What the hysteresis loop does *)

(** X14. After [weights_hysteresis_loop_zero] with a positive [bound] and
    a [jump] of at least twice the bound, no weight outside the caches is
    left strictly inside the band [(-bound, bound)] except the weights
    that are exactly zero. *)
Theorem hysteresis_clears_the_band model bound jump name param :
  0 < bound -> 2 * bound <= jump ->
  In (name, param) (weights_hysteresis_loop_zero model bound jump) ->
  contains "data_cache" name = false ->
  forall idx,
    entry (data param) idx = 0 \/ bound <= Rabs (entry (data param) idx).
Proof.
  intros Hb Hj Hin Hc idx.
  apply weights_hysteresis_loop_zero_In in Hin. destruct Hin as (p & _ & ->).
  rewrite Hc. cbn [data set_data map_entries entry].
  apply hysteresis_element_clear; assumption.
Qed.

Lemma hysteresis_clears_the_band_witness :
  entry (data demo_weight_moved) [0%nat] = 0 \/
  1 / 1000 <= Rabs (entry (data demo_weight_moved) [0%nat]).
Proof.
  apply (hysteresis_clears_the_band demo_model (1 / 1000) (2 / 1000)
           "conv.weight" demo_weight_moved).
  - lra.
  - lra.
  - left. reflexivity.
  - reflexivity.
Defined.

(** X15. [weights_hysteresis_loop_zero] keeps the parameters, their
    names, order, shapes and [requires_grad] flags; it leaves every
    parameter whose name contains [data_cache] as it was, and in the other
    parameters it leaves the zeros and the elements of magnitude at least
    [bound] as they were, moves the elements in [(0, bound)] down by
    [jump] and the elements in [(-bound, 0)] up by [jump]. *)
Theorem hysteresis_moves_only_the_band model bound jump k name param :
  nth_error model k = Some (name, param) ->
  length (weights_hysteresis_loop_zero model bound jump) = length model /\
  exists param',
    nth_error (weights_hysteresis_loop_zero model bound jump) k = Some (name, param') /\
    requires_grad param' = requires_grad param /\
    shape (data param') = shape (data param) /\
    (contains "data_cache" name = true -> param' = param) /\
    (contains "data_cache" name = false ->
     forall idx,
       let v := entry (data param) idx in
       let v' := entry (data param') idx in
       (v = 0 \/ bound <= Rabs v -> v' = v) /\
       (0 < v < bound -> v' = v - jump) /\
       (- bound < v < 0 -> v' = v + jump)).
Proof.
  intros H. split.
  { unfold weights_hysteresis_loop_zero. apply for_each_length. }
  eexists. split; [apply weights_hysteresis_loop_zero_nth; exact H|].
  destruct (contains "data_cache" name) eqn:Hc.
  - repeat split; try reflexivity; discriminate.
  - split; [reflexivity|]. split; [reflexivity|]. split; [discriminate|].
    intros _ idx. cbn [data set_data map_entries entry]. repeat split.
    + apply hysteresis_element_outside.
    + apply hysteresis_element_below.
    + apply hysteresis_element_above.
Qed.

Lemma hysteresis_moves_only_the_band_witness :
  length (weights_hysteresis_loop_zero demo_model (1 / 1000) (2 / 1000))
    = length demo_model /\
  exists param',
    nth_error (weights_hysteresis_loop_zero demo_model (1 / 1000) (2 / 1000)) 0
      = Some ("conv.weight", param') /\
    requires_grad param' = requires_grad demo_weight /\
    shape (data param') = shape (data demo_weight) /\
    (contains "data_cache" "conv.weight" = true -> param' = demo_weight) /\
    (contains "data_cache" "conv.weight" = false ->
     forall idx,
       let v := entry (data demo_weight) idx in
       let v' := entry (data param') idx in
       (v = 0 \/ 1 / 1000 <= Rabs v -> v' = v) /\
       (0 < v < 1 / 1000 -> v' = v - 2 / 1000) /\
       (- (1 / 1000) < v < 0 -> v' = v + 2 / 1000)).
Proof.
  apply (hysteresis_moves_only_the_band demo_model (1 / 1000) (2 / 1000) 0
           "conv.weight" demo_weight).
  reflexivity.
Defined.

(** X16. With a positive [bound] and a [jump] of at least twice the
    bound, a second [weights_hysteresis_loop_zero] changes nothing: every
    parameter keeps the values the first call left. *)
Theorem hysteresis_second_pass_is_idle model bound jump k name param :
  0 < bound -> 2 * bound <= jump ->
  nth_error (weights_hysteresis_loop_zero model bound jump) k = Some (name, param) ->
  exists param',
    nth_error (weights_hysteresis_loop_zero
                 (weights_hysteresis_loop_zero model bound jump) bound jump) k
      = Some (name, param') /\
    requires_grad param' = requires_grad param /\
    shape (data param') = shape (data param) /\
    forall idx, entry (data param') idx = entry (data param) idx.
Proof.
  intros Hb Hj H.
  eexists. split; [apply weights_hysteresis_loop_zero_nth; exact H|].
  apply weights_hysteresis_loop_zero_nth_inv in H. destruct H as (p & _ & ->).
  destruct (contains "data_cache" name) eqn:Hc.
  - repeat split; reflexivity.
  - split; [reflexivity|]. split; [reflexivity|].
    intros idx. cbn [data set_data map_entries entry].
    apply hysteresis_element_outside.
    apply hysteresis_element_clear; assumption.
Qed.

Lemma hysteresis_second_pass_is_idle_witness :
  exists param',
    nth_error (weights_hysteresis_loop_zero
                 (weights_hysteresis_loop_zero demo_model (1 / 1000) (2 / 1000))
                 (1 / 1000) (2 / 1000)) 0
      = Some ("conv.weight", param') /\
    requires_grad param' = requires_grad demo_weight_moved /\
    shape (data param') = shape (data demo_weight_moved) /\
    forall idx, entry (data param') idx = entry (data demo_weight_moved) idx.
Proof.
  apply (hysteresis_second_pass_is_idle demo_model (1 / 1000) (2 / 1000) 0
           "conv.weight" demo_weight_moved).
  - lra.
  - lra.
  - reflexivity.
Defined.

(* ----------------------------------------------------------------- *)
(** *** The penalty on low weights *)

Lemma tclamp_saturated (bound v : R) :
  0 <= bound -> bound <= v -> tclamp 0 bound v = bound.
Proof.
  intros Hb Hv. unfold tclamp.
  rewrite (Rmax_left v 0) by lra. apply Rmin_right. exact Hv.
Qed.

Lemma low_weight_term_zero (bound v : R) :
  0 <= bound -> bound <= Rabs v ->
  Rabs (tclamp 0 bound (Rabs v) - bound) = 0.
Proof.
  intros Hb Hv. rewrite tclamp_saturated by assumption.
  replace (bound - bound) with 0 by lra. apply Rabs_R0.
Qed.

Lemma sum_entries_zero (t : tensor) :
  (forall idx, valid_index (shape t) idx -> entry t idx = 0) -> sum_entries t = 0.
Proof.
  intros H. unfold sum_entries. apply sum_list_zero. intros v Hv.
  apply entries_In_inv in Hv. destruct Hv as (idx & Hidx & <-). now apply H.
Qed.

Lemma filter_nil_of_zero (t : tensor) :
  (forall idx, valid_index (shape t) idx -> entry t idx = 0) ->
  filter (ltb 0) (entries t) = [].
Proof.
  intros H.
  assert (Hall : forall v, In v (entries t) -> v = 0).
  { intros v Hv. apply entries_In_inv in Hv.
    destruct Hv as (idx & Hidx & <-). now apply H. }
  induction (entries t) as [|v l IH]; [reflexivity|].
  cbn [filter]. rewrite (Hall v) by (left; reflexivity).
  rewrite ltb_false by lra. apply IH. intros u Hu. apply Hall. right. exact Hu.
Qed.

(** The band is clear in [model]: outside the caches every weight has
    magnitude at least [bound]. *)
Lemma alpha_zero_of_clear model bound alpha :
  0 <= bound ->
  (forall name p idx,
     In (name, p) model -> contains "data_cache" name = false ->
     valid_index (shape (data p)) idx -> bound <= Rabs (entry (data p) idx)) ->
  get_regularization_term_low_weights_model_alpha model bound alpha = 0.
Proof.
  intros Hb H. unfold get_regularization_term_low_weights_model_alpha.
  match goal with |- alpha * fold_left ?f _ _ = _ => set (body := f) end.
  assert (Hfold : forall acc, fold_left body model acc = acc).
  { induction model as [|[n p] rest IH]; intros acc; [reflexivity|].
    cbn [fold_left]. rewrite IH.
    - unfold body. destruct (contains "data_cache" n) eqn:Hc; [reflexivity|].
      cbn [orb].
      destruct (contains "weights_lib.mod_i" n || contains "weights_lib.mod_j" n);
        [reflexivity|].
      rewrite sum_entries_zero; [lra|].
      intros idx Hidx. cbn [map_entries entry shape] in Hidx |- *.
      apply low_weight_term_zero; [exact Hb|].
      apply (H n p idx); [left; reflexivity|exact Hc|exact Hidx].
    - intros name q idx Hin. apply H. right. exact Hin. }
  rewrite Hfold. lra.
Qed.

Lemma beta_zero_of_clear model bound alpha :
  0 < bound ->
  (forall name p idx,
     In (name, p) model -> contains "data_cache" name = false ->
     valid_index (shape (data p)) idx -> bound <= Rabs (entry (data p) idx)) ->
  get_regularization_term_low_weights_model_beta model bound alpha = Ok 0.
Proof.
  intros Hb H. unfold get_regularization_term_low_weights_model_beta.
  match goal with |- rbind (fold_left ?f _ _) _ = _ => set (body := f) end.
  assert (Hfold : forall acc, fold_left body model (Ok acc) = Ok acc).
  { induction model as [|[n p] rest IH]; intros acc; [reflexivity|].
    cbn [fold_left].
    assert (Hstep : body (Ok acc) (n, p) = Ok acc).
    { unfold body. cbn [rbind].
      destruct (contains "data_cache" n) eqn:Hc; [reflexivity|].
      cbn [orb].
      destruct (contains "weights_lib.mod_i" n || contains "weights_lib.mod_j" n);
        [reflexivity|].
      destruct (Req_dec_T bound 0) as [E|_]; [lra|].
      assert (Hvars : forall idx,
                 valid_index (shape (data p)) idx ->
                 sqrt (Rabs (tclamp 0 bound (Rabs (entry (data p) idx)) - bound)
                       * (1 / bound)) = 0).
      { intros idx Hidx. rewrite low_weight_term_zero.
        - rewrite Rmult_0_l. apply sqrt_0.
        - lra.
        - apply (H n p idx); [left; reflexivity|exact Hc|exact Hidx]. }
      rewrite filter_nil_of_zero
        by (intros idx Hidx; cbn [map_entries entry shape] in Hidx |- *;
            now apply Hvars).
      rewrite sum_entries_zero; [f_equal; lra|].
      intros idx Hidx. cbn [map_entries entry shape] in Hidx |- *.
      rewrite Hvars by exact Hidx. cbn [length INR]. lra. }
    rewrite Hstep. apply IH.
    intros name q idx Hin. apply H. right. exact Hin. }
  rewrite Hfold. cbn [rbind]. f_equal. lra.
Qed.

Lemma hysteresis_clear_valid model bound jump name p idx :
  0 < bound -> 2 * bound <= jump ->
  (forall name p idx,
     In (name, p) model -> contains "data_cache" name = false ->
     valid_index (shape (data p)) idx -> entry (data p) idx <> 0) ->
  In (name, p) (weights_hysteresis_loop_zero model bound jump) ->
  contains "data_cache" name = false ->
  valid_index (shape (data p)) idx -> bound <= Rabs (entry (data p) idx).
Proof.
  intros Hb Hj Hnz Hin Hc Hidx.
  apply weights_hysteresis_loop_zero_In in Hin. destruct Hin as (q & Hq & ->).
  rewrite Hc in Hidx |- *. cbn [data set_data map_entries entry shape] in Hidx |- *.
  pose proof (Hnz name q idx Hq Hc Hidx) as Hv.
  destruct (hysteresis_element_cases bound jump (entry (data q) idx))
    as [[H ->]|[[H ->]|[[H|H] ->]]].
  - rewrite Rabs_left; lra.
  - rewrite Rabs_right; lra.
  - contradiction.
  - exact H.
Qed.

(** X17. Provided no weight outside the caches is exactly zero, a
    [weights_hysteresis_loop_zero] with a positive [bound] and a [jump] of
    at least twice the bound brings both penalties on low weights to zero,
    for every penalty bound between 0 and [bound]. *)
Theorem hysteresis_clears_the_low_weight_penalties model bound jump bound' alpha :
  0 < bound -> 2 * bound <= jump -> 0 < bound' <= bound ->
  (forall name p idx,
     In (name, p) model -> contains "data_cache" name = false ->
     valid_index (shape (data p)) idx -> entry (data p) idx <> 0) ->
  get_regularization_term_low_weights_model_alpha
    (weights_hysteresis_loop_zero model bound jump) bound' alpha = 0 /\
  get_regularization_term_low_weights_model_beta
    (weights_hysteresis_loop_zero model bound jump) bound' alpha = Ok 0.
Proof.
  intros Hb Hj Hb' Hnz.
  assert (Hclear : forall name p idx,
             In (name, p) (weights_hysteresis_loop_zero model bound jump) ->
             contains "data_cache" name = false ->
             valid_index (shape (data p)) idx ->
             bound' <= Rabs (entry (data p) idx)).
  { intros name p idx Hin Hc Hidx.
    eapply Rle_trans; [apply Hb'|].
    eapply hysteresis_clear_valid; eassumption. }
  split.
  - apply alpha_zero_of_clear; [lra|exact Hclear].
  - apply beta_zero_of_clear; [lra|exact Hclear].
Qed.

Lemma demo_model_cases (P : String.string -> parameter -> Prop) :
  P "conv.weight" demo_weight ->
  P "conv.bias" demo_bias ->
  P "data_cache_ctx" (mkParameter (of_list [1 / 2000; 5]) true) ->
  P "data_cache_latents" (mkParameter (of_list [0; 1 / 3000]) false) ->
  forall name p, In (name, p) demo_model -> P name p.
Proof.
  intros H1 H2 H3 H4 name p Hin.
  destruct Hin as [E|[E|[E|[E|[]]]]]; inversion E; subst; assumption.
Qed.

Lemma demo_model_nonzero name p idx :
  In (name, p) demo_model -> contains "data_cache" name = false ->
  valid_index (shape (data p)) idx -> entry (data p) idx <> 0.
Proof.
  intros Hin. revert idx. revert name p Hin.
  apply (demo_model_cases
           (fun name p => forall idx, contains "data_cache" name = false ->
              valid_index (shape (data p)) idx -> entry (data p) idx <> 0)).
  - intros idx _ Hidx. inversion Hidx as [|i d j s Hi Hj]; subst.
    inversion Hj; subst. cbn [demo_weight data of_list entry hd].
    destruct i as [|[|[|[|i]]]]; cbn [nth]; try lra. cbn in Hi. lia.
  - intros idx _ Hidx. inversion Hidx as [|i d j s Hi Hj]; subst.
    inversion Hj; subst. cbn [demo_bias data of_list entry hd].
    destruct i as [|[|i]]; cbn [nth]; try lra. cbn in Hi. lia.
  - intros idx Hc. discriminate Hc.
  - intros idx Hc. discriminate Hc.
Qed.

Lemma hysteresis_clears_the_low_weight_penalties_witness :
  get_regularization_term_low_weights_model_alpha
    (weights_hysteresis_loop_zero demo_model (1 / 1000) (2 / 1000))
    (1 / 10000) (1 / 1000) = 0 /\
  get_regularization_term_low_weights_model_beta
    (weights_hysteresis_loop_zero demo_model (1 / 1000) (2 / 1000))
    (1 / 10000) (1 / 1000) = Ok 0.
Proof.
  apply (hysteresis_clears_the_low_weight_penalties demo_model
           (1 / 1000) (2 / 1000) (1 / 10000) (1 / 1000)).
  - lra.
  - lra.
  - lra.
  - exact demo_model_nonzero.
Defined.

(* ----------------------------------------------------------------- *)
(** *** downscale_weights *)

Lemma downscale_body_ok (lim : R) (name : String.string) (param : parameter) :
  numel (shape (data param)) <> 0%nat ->
  exists pmax,
    abs_max (data param) = Ok pmax /\
    (pmax <~ abs_max (data param) ;
     if ltb lim pmax
     then Ok (set_data param (map_entries (fun v => v / pmax) (data param)),
              [String.append "weights_clamp: " name])
     else Ok (param, []))%res =
    Ok (if ltb lim pmax
        then (set_data param (map_entries (fun v => v / pmax) (data param)),
              [String.append "weights_clamp: " name])
        else (param, [])).
Proof.
  intros Hn. destruct (abs_max_ok (data param) Hn) as (m & Hm & _).
  exists m. split; [exact Hm|]. rewrite Hm. cbn [rbind].
  destruct (ltb lim m); reflexivity.
Qed.

(** [downscale_weights] on parameters that all have elements: it returns,
    and each parameter is either left as it was or divided by its largest
    magnitude. *)
Lemma downscale_weights_ok model lim :
  (forall name p, In (name, p) model -> numel (shape (data p)) <> 0%nat) ->
  exists model' lines,
    downscale_weights model lim = (Ok tt, model', lines) /\
    length model' = length model /\
    forall k name p,
      nth_error model k = Some (name, p) ->
      exists pmax,
        abs_max (data p) = Ok pmax /\
        nth_error model' k =
        Some (name,
              if ltb lim pmax
              then set_data p (map_entries (fun v => v / pmax) (data p))
              else p).
Proof.
  intros Hne. unfold downscale_weights.
  match goal with |- context [for_each_raising ?b _] => set (body := b) end.
  destruct (for_each_raising_ok body model) as (model' & lines & Hr & Hlen & Hnth).
  { intros name p Hin.
    destruct (downscale_body_ok lim name p (Hne name p Hin)) as (m & _ & Hm).
    unfold body. rewrite Hm. destruct (ltb lim m); eexists; eexists; reflexivity. }
  exists model', lines. split; [exact Hr|]. split; [exact Hlen|].
  intros k name p Hk. destruct (Hnth k name p Hk) as (p' & l & Hb & Hk').
  assert (Hin : In (name, p) model) by (eapply nth_error_In; exact Hk).
  destruct (downscale_body_ok lim name p (Hne name p Hin)) as (m & Hm & Hbody).
  exists m. split; [exact Hm|]. rewrite Hk'. unfold body in Hb.
  rewrite Hbody in Hb. destruct (ltb lim m); inversion Hb; reflexivity.
Qed.

(** X18. On a model whose parameters all have elements and for a limit
    [lim >= 0], [downscale_weights] returns; it keeps names, order, shapes
    and flags.  With [m] the largest magnitude in a parameter (no element
    exceeds it and some element attains it), the parameter is left exactly
    as it was when [m <= lim], and every one of its elements is divided by
    [m] when [lim < m].  Afterwards no element of any parameter, caches
    included, has a magnitude above [max lim 1]. *)
Theorem downscale_weights_bounds_every_parameter model lim :
  0 <= lim ->
  (forall name p, In (name, p) model -> numel (shape (data p)) <> 0%nat) ->
  exists model' lines,
    downscale_weights model lim = (Ok tt, model', lines) /\
    length model' = length model /\
    forall k name p,
      nth_error model k = Some (name, p) ->
      exists p' m,
        nth_error model' k = Some (name, p') /\
        requires_grad p' = requires_grad p /\
        shape (data p') = shape (data p) /\
        (forall idx, valid_index (shape (data p)) idx ->
                     Rabs (entry (data p) idx) <= m) /\
        (exists idx, valid_index (shape (data p)) idx /\
                     Rabs (entry (data p) idx) = m) /\
        (m <= lim -> p' = p) /\
        (lim < m -> forall idx, entry (data p') idx = entry (data p) idx / m) /\
        (forall idx, valid_index (shape (data p)) idx ->
                     Rabs (entry (data p') idx) <= Rmax lim 1).
Proof.
  intros Hl Hne.
  destruct (downscale_weights_ok model lim Hne) as (model' & lines & Hr & Hlen & Hnth).
  exists model', lines. split; [exact Hr|]. split; [exact Hlen|].
  intros k name p Hk. destruct (Hnth k name p Hk) as (m & Hm & Hk').
  assert (Hin : In (name, p) model) by (eapply nth_error_In; exact Hk).
  destruct (abs_max_ok (data p) (Hne name p Hin)) as (m' & Hm' & Hpos & Hle & Hat).
  assert (m' = m) by congruence. subst m'.
  destruct (ltb lim m) eqn:Hlt.
  - apply ltb_spec in Hlt.
    exists (set_data p (map_entries (fun v => v / m) (data p))), m.
    split; [exact Hk'|]. split; [reflexivity|]. split; [reflexivity|].
    split; [exact Hle|]. split; [exact Hat|].
    split; [intros Hml; lra|]. split; [intros _ idx; reflexivity|].
    intros idx Hidx. cbn [data set_data map_entries entry].
    unfold Rdiv. rewrite Rabs_mult, Rabs_inv, (Rabs_right m) by lra.
    eapply Rle_trans; [|apply Rmax_r].
    apply (Rmult_le_reg_r m); [lra|].
    rewrite Rmult_assoc, Rinv_l by lra. specialize (Hle idx Hidx). lra.
  - assert (Hml : m <= lim)
      by (unfold ltb in Hlt; destruct (Rlt_dec lim m); [discriminate|lra]).
    exists p, m. split; [exact Hk'|]. split; [reflexivity|]. split; [reflexivity|].
    split; [exact Hle|]. split; [exact Hat|].
    split; [intros _; reflexivity|]. split; [intros Hlm; lra|].
    intros idx Hidx. eapply Rle_trans; [apply (Hle idx Hidx)|].
    eapply Rle_trans; [exact Hml|apply Rmax_l].
Qed.

Lemma demo_model_elements name p :
  In (name, p) demo_model -> numel (shape (data p)) <> 0%nat.
Proof.
  revert name p.
  apply (demo_model_cases (fun _ p => numel (shape (data p)) <> 0%nat));
    cbn; lia.
Qed.

Lemma downscale_weights_bounds_every_parameter_witness :
  exists model' lines,
    downscale_weights demo_model 1 = (Ok tt, model', lines) /\
    length model' = length demo_model /\
    forall k name p,
      nth_error demo_model k = Some (name, p) ->
      exists p' m,
        nth_error model' k = Some (name, p') /\
        requires_grad p' = requires_grad p /\
        shape (data p') = shape (data p) /\
        (forall idx, valid_index (shape (data p)) idx ->
                     Rabs (entry (data p) idx) <= m) /\
        (exists idx, valid_index (shape (data p)) idx /\
                     Rabs (entry (data p) idx) = m) /\
        (m <= 1 -> p' = p) /\
        (1 < m -> forall idx, entry (data p') idx = entry (data p) idx / m) /\
        (forall idx, valid_index (shape (data p)) idx ->
                     Rabs (entry (data p') idx) <= Rmax 1 1).
Proof.
  apply (downscale_weights_bounds_every_parameter demo_model 1).
  - lra.
  - exact demo_model_elements.
Defined.

(** X19. A second [downscale_weights] with the same limit [lim >= 0]
    changes no value: every parameter keeps the elements the first call
    left. *)
Theorem downscale_weights_second_pass_is_idle model lim :
  0 <= lim ->
  (forall name p, In (name, p) model -> numel (shape (data p)) <> 0%nat) ->
  exists model' lines model'' lines',
    downscale_weights model lim = (Ok tt, model', lines) /\
    downscale_weights model' lim = (Ok tt, model'', lines') /\
    length model'' = length model' /\
    forall k name p',
      nth_error model' k = Some (name, p') ->
      exists p'',
        nth_error model'' k = Some (name, p'') /\
        requires_grad p'' = requires_grad p' /\
        shape (data p'') = shape (data p') /\
        forall idx, entry (data p'') idx = entry (data p') idx.
Proof.
  intros Hl Hne.
  destruct (downscale_weights_ok model lim Hne) as (model' & lines & Hr & Hlen & Hnth).
  assert (Hback : forall k name p',
             nth_error model' k = Some (name, p') ->
             exists p m,
               nth_error model k = Some (name, p) /\
               abs_max (data p) = Ok m /\
               p' = if ltb lim m
                    then set_data p (map_entries (fun v => v / m) (data p))
                    else p).
  { intros k name p' Hk'.
    assert (Hk : (k < length model)%nat)
      by (rewrite <- Hlen; apply nth_error_Some; congruence).
    destruct (nth_error model k) as [[n p]|] eqn:E;
      [|apply nth_error_None in E; lia].
    destruct (Hnth k n p E) as (m & Hm & Hk'').
    rewrite Hk' in Hk''. inversion Hk''. subst. exists p, m.
    repeat split; [exact Hm]. }
  assert (Hne' : forall name p', In (name, p') model' ->
                                 numel (shape (data p')) <> 0%nat).
  { intros name p' Hin. apply In_nth_error in Hin. destruct Hin as [k Hk'].
    destruct (Hback k name p' Hk') as (p & m & Hk & _ & ->).
    assert (Hin : In (name, p) model) by (eapply nth_error_In; exact Hk).
    destruct (ltb lim m); cbn [data set_data map_entries shape];
      exact (Hne name p Hin). }
  destruct (downscale_weights_ok model' lim Hne')
    as (model'' & lines' & Hr' & Hlen' & Hnth').
  exists model', lines, model'', lines'.
  split; [exact Hr|]. split; [exact Hr'|]. split; [exact Hlen'|].
  intros k name p' Hk'.
  destruct (Hnth' k name p' Hk') as (m' & Hm' & Hk'').
  destruct (Hback k name p' Hk') as (p & m & Hk & Hm & Hp').
  assert (Hin : In (name, p) model) by (eapply nth_error_In; exact Hk).
  destruct (abs_max_ok (data p) (Hne name p Hin)) as (m0 & Hm0 & Hpos & _).
  assert (m0 = m) by congruence. subst m0.
  eexists. split; [exact Hk''|].
  destruct (ltb lim m') eqn:Hlt'; [|repeat split; reflexivity].
  split; [reflexivity|]. split; [reflexivity|].
  intros idx. cbn [data set_data map_entries entry].
  destruct (ltb lim m) eqn:Hlt.
  - apply ltb_spec in Hlt. subst p'. cbn [data set_data] in Hm'.
    rewrite (abs_max_scaled (data p) m Hm) in Hm' by lra.
    inversion Hm'. subst m'. field.
  - subst p'. assert (m' = m) by congruence. subst m'. congruence.
Qed.

Lemma downscale_weights_second_pass_is_idle_witness :
  exists model' lines model'' lines',
    downscale_weights demo_model 1 = (Ok tt, model', lines) /\
    downscale_weights model' 1 = (Ok tt, model'', lines') /\
    length model'' = length model' /\
    forall k name p',
      nth_error model' k = Some (name, p') ->
      exists p'',
        nth_error model'' k = Some (name, p'') /\
        requires_grad p'' = requires_grad p' /\
        shape (data p'') = shape (data p') /\
        forall idx, entry (data p'') idx = entry (data p') idx.
Proof.
  apply (downscale_weights_second_pass_is_idle demo_model 1).
  - lra.
  - exact demo_model_elements.
Defined.

Lemma for_each_raising_stops body before before' lines name p after e :
  for_each_raising body before = (Ok tt, before', lines) ->
  body name p = Err e ->
  for_each_raising body (before ++ (name, p) :: after) =
  (Err e, before' ++ (name, p) :: after, lines).
Proof.
  intros H He. revert before' lines H.
  induction before as [|[n q] rest IH]; intros before' lines H.
  - cbn in H. inversion H. subst. cbn [app for_each_raising]. now rewrite He.
  - cbn [app for_each_raising] in H |- *.
    destruct (body n q) as [[q' l]|e']; [|discriminate].
    destruct (for_each_raising body rest) as [[r rest'] lines'] eqn:E.
    inversion H. subst.
    rewrite (IH rest' lines' eq_refl). reflexivity.
Qed.

(** X20. [downscale_weights] raises a [RuntimeError] at the first
    parameter without elements.  By then the parameters before it have
    been processed, as a call on them alone would have left them; that
    parameter and the ones after it are as they were. *)
Theorem downscale_weights_raises_on_empty before name param after lim :
  0 <= lim ->
  (forall n q, In (n, q) before -> numel (shape (data q)) <> 0%nat) ->
  numel (shape (data param)) = 0%nat ->
  exists before' lines,
    downscale_weights before lim = (Ok tt, before', lines) /\
    downscale_weights (before ++ (name, param) :: after) lim =
      (Err RuntimeError, before' ++ (name, param) :: after, lines).
Proof.
  intros _ Hne He.
  destruct (downscale_weights_ok before lim Hne) as (before' & lines & Hr & _).
  exists before', lines. split; [exact Hr|].
  unfold downscale_weights in Hr |- *.
  apply for_each_raising_stops; [exact Hr|].
  rewrite (abs_max_err (data param) He). reflexivity.
Qed.

Lemma downscale_weights_raises_on_empty_witness :
  exists before' lines,
    downscale_weights [("conv.weight", demo_weight)] 1 = (Ok tt, before', lines) /\
    downscale_weights
      ([("conv.weight", demo_weight)] ++ ("conv.empty", demo_empty)
         :: [("conv.bias", demo_bias)]) 1 =
      (Err RuntimeError,
       before' ++ ("conv.empty", demo_empty) :: [("conv.bias", demo_bias)], lines).
Proof.
  apply (downscale_weights_raises_on_empty [("conv.weight", demo_weight)]
           "conv.empty" demo_empty [("conv.bias", demo_bias)] 1).
  - lra.
  - intros n q [E|[]]. inversion E. subst. cbn. lia.
  - reflexivity.
Defined.

(* ----------------------------------------------------------------- *)
(** *** floor *)

Lemma floor_bound (v : R) : floor v <= v < floor v + 1.
Proof.
  unfold floor. replace (v / 1) with v by field. apply Zfloor_bound.
Qed.

Lemma floor_nonneg (v : R) : 0 <= v -> 0 <= floor v.
Proof.
  intros H. unfold floor. replace (v / 1) with v by field.
  apply IZR_le. apply Zfloor_lub. exact H.
Qed.

Lemma floor_negative (v : R) : v < 0 -> floor v <= - 1.
Proof.
  intros H. pose proof (floor_bound v) as [Hf _]. unfold floor in *.
  assert (Hz : (Zfloor (v / 1) < 0)%Z) by (apply lt_IZR; lra).
  apply IZR_le. lia.
Qed.

Lemma floor_le (v : R) (z : Z) : v <= IZR z -> floor v <= IZR z.
Proof.
  intros H. pose proof (floor_bound v) as [Hf _]. unfold floor in *.
  apply IZR_le. apply Z.lt_succ_r. apply lt_IZR. rewrite succ_IZR. lra.
Qed.

Lemma floor_ge (v : R) (z : Z) : IZR z <= v -> IZR z <= floor v.
Proof.
  intros H. unfold floor. replace (v / 1) with v by field.
  apply IZR_le. apply Zfloor_lub. exact H.
Qed.

(* ----------------------------------------------------------------- *)
(** *** quantize_weights *)

Lemma quantize_element_zero (d_max : R) : quantize_element d_max 0 = - (3 / 1024).
Proof.
  unfold quantize_element. rewrite ltb_false by lra.
  replace (0 / d_max * (2 ^ 8 - 1)) with 0 by (unfold Rdiv; ring).
  assert (H : floor 0 = 0).
  { pose proof (floor_nonneg 0 (Rle_refl 0)). pose proof (floor_le 0 0 (Rle_refl 0)).
    lra. }
  rewrite H. lra.
Qed.

Lemma quantize_element_positive (d_max v : R) :
  0 < d_max -> v <> 0 -> 0 < quantize_element d_max v.
Proof.
  intros Hd Hv. unfold quantize_element.
  set (y := v / d_max * (2 ^ 8 - 1)).
  destruct (Rlt_dec 0 v) as [Hp|Hn].
  - rewrite ltb_true by exact Hp.
    assert (0 <= floor y).
    { apply floor_nonneg. unfold y.
      apply Rmult_le_pos; [|lra].
      apply Rlt_le, Rdiv_lt_0_compat; assumption. }
    lra.
  - rewrite ltb_false by lra.
    assert (floor y <= - 1).
    { apply floor_negative. unfold y.
      assert (v / d_max < 0).
      { assert (0 < / d_max) by (apply Rinv_0_lt_compat; exact Hd).
        unfold Rdiv. nra. }
      nra. }
    lra.
Qed.

Lemma quantize_element_bound (d_max v : R) :
  0 < d_max -> Rabs v <= d_max -> quantize_element d_max v < 3 / 2.
Proof.
  intros Hd Hv. unfold quantize_element.
  set (y := v / d_max * (2 ^ 8 - 1)).
  assert (Hr : - 1 <= v / d_max <= 1).
  { assert (- d_max <= v <= d_max)
      by (revert Hv; unfold Rabs; destruct (Rcase_abs v); lra).
    split.
    - apply (Rmult_le_reg_r d_max); [exact Hd|].
      unfold Rdiv. rewrite Rmult_assoc, Rinv_l by lra. lra.
    - apply (Rmult_le_reg_r d_max); [exact Hd|].
      unfold Rdiv. rewrite Rmult_assoc, Rinv_l by lra. lra. }
  assert (Hy : IZR (- 255) <= y <= IZR 255) by (unfold y; lra).
  pose proof (floor_le y 255 (proj2 Hy)) as Hhi.
  pose proof (floor_ge y (- 255) (proj1 Hy)) as Hlo.
  destruct (ltb 0 v); lra.
Qed.

Lemma quantize_body_ok (name : String.string) (param : parameter) :
  numel (shape (data param)) <> 0%nat ->
  exists d_max,
    abs_max (data param) = Ok d_max /\
    (d_max <~ abs_max (data param) ;
     Ok (set_data param (map_entries (quantize_element d_max) (data param)),
         [String.append "quantize_weights: "
            (String.append name "; levels=256; offset=0.001953125; scale=1.5")]))%res =
    Ok (set_data param (map_entries (quantize_element d_max) (data param)),
        [String.append "quantize_weights: "
           (String.append name "; levels=256; offset=0.001953125; scale=1.5")]).
Proof.
  intros Hn. destruct (abs_max_ok (data param) Hn) as (m & Hm & _).
  exists m. split; [exact Hm|]. rewrite Hm. reflexivity.
Qed.

Lemma valid_index_numel (s idx : list nat) : valid_index s idx -> numel s <> 0%nat.
Proof.
  intros H. rewrite <- all_indices_length.
  apply all_indices_complete in H. destruct (all_indices s); [destruct H|discriminate].
Qed.

(** X21. [quantize_weights] does not keep the sign of a weight.  On a
    model in which every parameter outside the caches has a non-zero
    element it returns, leaves the caches as they were, and in every other
    parameter turns each non-zero element, positive or negative, into a
    positive value below 1.5 and each zero into [-3/1024]. *)
Theorem quantize_weights_discards_the_sign model :
  (forall name p,
     In (name, p) model -> contains "data_cache" name = false ->
     exists idx, valid_index (shape (data p)) idx /\ entry (data p) idx <> 0) ->
  exists model' lines,
    quantize_weights model = (Ok tt, model', lines) /\
    length model' = length model /\
    forall k name p,
      nth_error model k = Some (name, p) ->
      exists p',
        nth_error model' k = Some (name, p') /\
        requires_grad p' = requires_grad p /\
        shape (data p') = shape (data p) /\
        (contains "data_cache" name = true -> p' = p) /\
        (contains "data_cache" name = false ->
         forall idx,
           valid_index (shape (data p)) idx ->
           (entry (data p) idx <> 0 -> 0 < entry (data p') idx < 3 / 2) /\
           (entry (data p) idx = 0 -> entry (data p') idx = - (3 / 1024))).
Proof.
  intros Hnz. unfold quantize_weights.
  match goal with |- context [for_each_raising ?b _] => set (body := b) end.
  assert (Hne : forall name p, In (name, p) model ->
                  contains "data_cache" name = false ->
                  numel (shape (data p)) <> 0%nat).
  { intros name p Hin Hc. destruct (Hnz name p Hin Hc) as (idx & Hidx & _).
    eapply valid_index_numel. exact Hidx. }
  destruct (for_each_raising_ok body model) as (model' & lines & Hr & Hlen & Hnth).
  { intros name p Hin. unfold body.
    destruct (contains "data_cache" name) eqn:Hc; [eexists; eexists; reflexivity|].
    destruct (quantize_body_ok name p (Hne name p Hin Hc)) as (m & _ & Hm).
    rewrite Hm. eexists; eexists; reflexivity. }
  exists model', lines. split; [exact Hr|]. split; [exact Hlen|].
  intros k name p Hk. destruct (Hnth k name p Hk) as (p' & l & Hb & Hk').
  assert (Hin : In (name, p) model) by (eapply nth_error_In; exact Hk).
  exists p'. split; [exact Hk'|]. unfold body in Hb.
  destruct (contains "data_cache" name) eqn:Hc.
  - inversion Hb. subst. split; [reflexivity|]. split; [reflexivity|].
    split; [reflexivity|discriminate].
  - destruct (quantize_body_ok name p (Hne name p Hin Hc)) as (m & Hm & Hbody).
    rewrite Hbody in Hb. inversion Hb. subst p' l.
    split; [reflexivity|]. split; [reflexivity|]. split; [discriminate|].
    intros _ idx Hidx. cbn [data set_data map_entries entry].
    destruct (abs_max_ok (data p) (Hne name p Hin Hc)) as (m' & Hm' & Hpos & Hle & _).
    assert (m' = m) by congruence. subst m'.
    assert (Hd : 0 < m).
    { destruct (Hnz name p Hin Hc) as (j & Hj & Hv).
      pose proof (Hle j Hj). pose proof (Rabs_pos_lt _ Hv). lra. }
    split.
    + intros Hv. split.
      * apply quantize_element_positive; assumption.
      * apply quantize_element_bound; [exact Hd|apply Hle; exact Hidx].
    + intros ->. apply quantize_element_zero.
Qed.

Lemma demo_model_has_weight name p :
  In (name, p) demo_model -> contains "data_cache" name = false ->
  exists idx, valid_index (shape (data p)) idx /\ entry (data p) idx <> 0.
Proof.
  intros Hin Hc. exists [0%nat].
  assert (Hidx : valid_index (shape (data p)) [0%nat]).
  { revert name p Hin Hc.
    apply (demo_model_cases
             (fun name p => contains "data_cache" name = false ->
                            valid_index (shape (data p)) [0%nat]));
      intros _; repeat constructor. }
  split; [exact Hidx|]. apply (demo_model_nonzero name p); assumption.
Qed.

Lemma quantize_weights_discards_the_sign_witness :
  exists model' lines,
    quantize_weights demo_model = (Ok tt, model', lines) /\
    length model' = length demo_model /\
    forall k name p,
      nth_error demo_model k = Some (name, p) ->
      exists p',
        nth_error model' k = Some (name, p') /\
        requires_grad p' = requires_grad p /\
        shape (data p') = shape (data p) /\
        (contains "data_cache" name = true -> p' = p) /\
        (contains "data_cache" name = false ->
         forall idx,
           valid_index (shape (data p)) idx ->
           (entry (data p) idx <> 0 -> 0 < entry (data p') idx < 3 / 2) /\
           (entry (data p) idx = 0 -> entry (data p') idx = - (3 / 1024))).
Proof.
  apply (quantize_weights_discards_the_sign demo_model).
  exact demo_model_has_weight.
Defined.

(* ----------------------------------------------------------------- *)
(** *** Freezing and unfreezing *)

(** X22. [unfreeze_model] undoes [freeze_model] and nothing else: after
    the two calls every parameter outside the caches is trainable, and the
    values of all parameters and the flags of the caches are as before
    [freeze_model]; the result is what [unfreeze_model] alone gives. *)
Theorem unfreeze_model_after_freeze_model model k name param :
  nth_error model k = Some (name, param) ->
  fst (unfreeze_model (fst (freeze_model model))) = fst (unfreeze_model model) /\
  exists param',
    nth_error (fst (unfreeze_model (fst (freeze_model model)))) k = Some (name, param') /\
    data param' = data param /\
    requires_grad param' =
      (if contains "data_cache" name then requires_grad param else true).
Proof.
  intros H.
  assert (E : fst (unfreeze_model (fst (freeze_model model)))
              = fst (unfreeze_model model)).
  { unfold unfreeze_model, freeze_model. rewrite !for_each_map, map_map.
    apply map_ext. intros [n p]. cbn [fst snd].
    destruct (contains "data_cache" n); reflexivity. }
  split; [exact E|]. rewrite E. unfold unfreeze_model.
  eexists. split; [apply for_each_nth; exact H|]. cbv beta.
  destruct (contains "data_cache" name); split; reflexivity.
Qed.

Lemma unfreeze_model_after_freeze_model_witness :
  fst (unfreeze_model (fst (freeze_model demo_model))) = fst (unfreeze_model demo_model) /\
  exists param',
    nth_error (fst (unfreeze_model (fst (freeze_model demo_model)))) 0
      = Some ("conv.weight", param') /\
    data param' = data demo_weight /\
    requires_grad param' =
      (if contains "data_cache" "conv.weight" then requires_grad demo_weight else true).
Proof.
  apply (unfreeze_model_after_freeze_model demo_model 0 "conv.weight" demo_weight).
  reflexivity.
Defined.

(** X23. The switches of the caches and those of the rest of the model
    act on disjoint parameters: [freeze_latents], [unfreeze_latents],
    [freeze_ctx] and [unfreeze_ctx] leave every parameter whose name does
    not contain [data_cache] as it was, and [freeze_model] and
    [unfreeze_model] leave every parameter whose name contains it as it
    was. *)
Theorem cache_and_model_switches_are_disjoint model k name param :
  nth_error model k = Some (name, param) ->
  (contains "data_cache" name = false ->
   forall f, In f [freeze_latents; unfreeze_latents; freeze_ctx; unfreeze_ctx] ->
             nth_error (fst (f model)) k = Some (name, param)) /\
  (contains "data_cache" name = true ->
   forall f, In f [freeze_model; unfreeze_model] ->
             nth_error (fst (f model)) k = Some (name, param)).
Proof.
  intros H. split; intros Hc f Hf.
  - assert (Hl : contains "data_cache_latents" name = false).
    { destruct (contains "data_cache_latents" name) eqn:E; [|reflexivity].
      apply latents_is_cache in E. congruence. }
    assert (Hx : contains "data_cache_ctx" name = false).
    { destruct (contains "data_cache_ctx" name) eqn:E; [|reflexivity].
      apply ctx_is_cache in E. congruence. }
    destruct Hf as [<-|[<-|[<-|[<-|[]]]]];
      match goal with |- nth_error (fst (?g _)) _ = _ => unfold g end;
      rewrite (for_each_nth _ _ _ _ _ H); cbv beta;
      rewrite ?Hl, ?Hx; reflexivity.
  - destruct Hf as [<-|[<-|[]]];
      match goal with |- nth_error (fst (?g _)) _ = _ => unfold g end;
      rewrite (for_each_nth _ _ _ _ _ H); cbv beta;
      rewrite Hc; reflexivity.
Qed.

Lemma cache_and_model_switches_are_disjoint_witness :
  (contains "data_cache" "conv.weight" = false ->
   forall f, In f [freeze_latents; unfreeze_latents; freeze_ctx; unfreeze_ctx] ->
             nth_error (fst (f demo_model)) 0 = Some ("conv.weight", demo_weight)) /\
  (contains "data_cache" "conv.weight" = true ->
   forall f, In f [freeze_model; unfreeze_model] ->
             nth_error (fst (f demo_model)) 0 = Some ("conv.weight", demo_weight)).
Proof.
  apply (cache_and_model_switches_are_disjoint demo_model 0 "conv.weight" demo_weight).
  reflexivity.
Defined.

(* ----------------------------------------------------------------- *)
(** *** The regularisation term of the model *)

Lemma regularization_fold (model : named_parameters) (acc : R) :
  fold_left (fun sum (np : String.string * parameter) =>
               let (name, param) := np in
               if contains "data_cache" name then sum
               else sum + sum_entries (map_entries (fun v => v ^ 2) (data param)))
            model acc =
  acc + sum_list
          (map (fun np : String.string * parameter =>
                  if contains "data_cache" (fst np) then 0
                  else sum_entries (map_entries (fun v => v ^ 2) (data (snd np))))
               model).
Proof.
  revert acc. induction model as [|[n p] rest IH]; intros acc.
  - cbn. lra.
  - cbn [fold_left map]. rewrite IH. unfold sum_list at 2. cbn [fold_right fst snd].
    fold (sum_list (map (fun np : String.string * parameter =>
                  if contains "data_cache" (fst np) then 0
                  else sum_entries (map_entries (fun v => v ^ 2) (data (snd np))))
               rest)).
    destruct (contains "data_cache" n); lra.
Qed.

Lemma sum_squares_nonneg (t : tensor) :
  0 <= sum_entries (map_entries (fun v => v ^ 2) t).
Proof.
  unfold sum_entries. apply sum_list_nonneg. intros v Hv.
  rewrite entries_map_entries in Hv. apply in_map_iff in Hv.
  destruct Hv as (u & <- & _). apply pow2_ge_0.
Qed.

Lemma sum_squares_zero (t : tensor) :
  sum_entries (map_entries (fun v => v ^ 2) t) = 0 <->
  forall idx, valid_index (shape t) idx -> entry t idx = 0.
Proof.
  split.
  - intros H idx Hidx.
    assert (Hsq : (entry t idx) ^ 2 = 0).
    { apply (sum_list_nonneg_zero (entries (map_entries (fun v => v ^ 2) t))).
      - intros v Hv. rewrite entries_map_entries in Hv. apply in_map_iff in Hv.
        destruct Hv as (u & <- & _). apply pow2_ge_0.
      - exact H.
      - rewrite entries_map_entries.
        apply (in_map (fun v => v ^ 2) (entries t) (entry t idx)).
        apply entries_In. exact Hidx. }
    nra.
  - intros H. apply sum_entries_zero. intros idx Hidx.
    cbn [map_entries entry shape] in Hidx |- *. rewrite (H idx Hidx). lra.
Qed.

(** X24. For a positive [alpha] the regularisation term of the model is
    never negative, and it is zero exactly when every element of every
    parameter outside the caches is zero; the caches do not enter it. *)
Theorem regularization_term_model_vanishes_only_at_zero model alpha :
  0 < alpha ->
  0 <= get_regularization_term_model model alpha /\
  (get_regularization_term_model model alpha = 0 <->
   forall name p idx,
     In (name, p) model -> contains "data_cache" name = false ->
     valid_index (shape (data p)) idx -> entry (data p) idx = 0).
Proof.
  intros Ha. unfold get_regularization_term_model. rewrite regularization_fold.
  set (terms := map _ model).
  assert (Hpos : forall v, In v terms -> 0 <= v).
  { intros v Hv. unfold terms in Hv. apply in_map_iff in Hv.
    destruct Hv as ([n p] & <- & _). cbn [fst snd].
    destruct (contains "data_cache" n); [lra|apply sum_squares_nonneg]. }
  pose proof (sum_list_nonneg terms Hpos) as Hsum.
  split; [apply Rmult_le_pos; lra|]. split.
  - intros H name p idx Hin Hc Hidx.
    assert (Hs : sum_list terms = 0) by nra.
    assert (Ht : sum_entries (map_entries (fun v => v ^ 2) (data p)) = 0).
    { apply (sum_list_nonneg_zero terms Hpos Hs). unfold terms.
      apply in_map_iff. exists (name, p). cbn [fst snd]. rewrite Hc.
      split; [reflexivity|exact Hin]. }
    apply (proj1 (sum_squares_zero (data p)) Ht idx Hidx).
  - intros H. rewrite sum_list_zero; [lra|].
    intros v Hv. unfold terms in Hv. apply in_map_iff in Hv.
    destruct Hv as ([n p] & <- & Hin). cbn [fst snd].
    destruct (contains "data_cache" n) eqn:Hc; [reflexivity|].
    apply sum_squares_zero. intros idx Hidx. now apply (H n p idx).
Qed.

Lemma regularization_term_model_vanishes_only_at_zero_witness :
  0 <= get_regularization_term_model demo_model (1 / 1000) /\
  (get_regularization_term_model demo_model (1 / 1000) = 0 <->
   forall name p idx,
     In (name, p) demo_model -> contains "data_cache" name = false ->
     valid_index (shape (data p)) idx -> entry (data p) idx = 0).
Proof.
  apply (regularization_term_model_vanishes_only_at_zero demo_model (1 / 1000)).
  lra.
Defined.

(* ----------------------------------------------------------------- *)
(** *** rescale *)

Lemma sample_In (x : tensor) (idx : list nat) :
  valid_index (shape x) idx -> (1 <= rank x)%nat ->
  In (entry x idx) (sample x (hd 0%nat idx)).
Proof.
  intros H Hr. unfold sample, rank in *.
  destruct (shape x) as [|d s]; [cbn in Hr; lia|].
  inversion H as [|i d' j s' Hi Hj]; subst. cbn [hd tl].
  apply (in_map (fun j0 => entry x (i :: j0)) (all_indices s) j).
  apply all_indices_complete. exact Hj.
Qed.

Lemma unit_interval_affine (q min max : R) :
  0 <= q <= 1 -> min < max -> min <= q * (max - min) + min <= max.
Proof. intros Hq Hm. nra. Qed.

(** X25. For a positive [eps] and [min < max], [rescale] of a batch with
    at least two axes and non-empty samples returns a tensor of the shape
    of its input whose elements all lie between [min] and [max], the
    bounds included; within a sample it does not reverse the order of two
    elements. *)
Theorem rescale_lands_inside self x min max :
  0 < eps self -> min < max ->
  (2 <= rank x)%nat -> numel (tl (shape x)) <> 0%nat ->
  exists y,
    rescale self x min max = Returns y /\
    shape y = shape x /\
    (forall idx, valid_index (shape x) idx -> min <= entry y idx <= max) /\
    (forall i j j',
       entry x (i :: j) <= entry x (i :: j') ->
       entry y (i :: j) <= entry y (i :: j')).
Proof.
  intros He Hm Hr Hn. unfold rescale.
  rewrite (ltb_true min max Hm). cbn [negb].
  unfold rank in Hr.
  destruct (shape x) as [|a [|b s]] eqn:Es; try (cbn in Hr; lia).
  apply Nat.eqb_neq in Hn. rewrite Hn.
  eexists. split; [reflexivity|]. cbn [shape entry]. split; [reflexivity|].
  split.
  - intros idx Hidx.
    assert (Hin : In (entry x idx) (sample x (hd 0%nat idx))).
    { apply sample_In; [rewrite Es; exact Hidx|unfold rank; rewrite Es; cbn; lia]. }
    pose proof (list_min_le _ _ Hin) as Hlo.
    pose proof (list_max_ge _ _ Hin) as Hhi.
    set (mn := list_min (sample x (hd 0%nat idx))) in *.
    set (mx := list_max (sample x (hd 0%nat idx))) in *.
    apply unit_interval_affine; [|exact Hm].
    assert (Hd : 0 < mx - mn + eps self * 2) by lra.
    split.
    + apply Rlt_le. apply Rdiv_lt_0_compat; lra.
    + apply (Rmult_le_reg_r (mx - mn + eps self * 2)); [exact Hd|].
      unfold Rdiv. rewrite Rmult_assoc, Rinv_l by lra. lra.
  - intros i j j' Hle. cbn [hd].
    set (mn := list_min (sample x i)). set (mx := list_max (sample x i)).
    destruct (sample x i) as [|v l] eqn:Esample.
    + unfold mn, mx. cbn [list_min list_max].
      replace (0 - 0 + eps self * 2) with (eps self * 2) by lra.
      assert (Hd : 0 < / (eps self * 2)) by (apply Rinv_0_lt_compat; lra).
      unfold Rdiv. apply Rplus_le_compat_r. apply Rmult_le_compat_r; [lra|].
      apply Rmult_le_compat_r; lra.
    + assert (Hmm : mn <= mx).
      { assert (Hv : In v (v :: l)) by (left; reflexivity).
        pose proof (list_min_le _ _ Hv). pose proof (list_max_ge _ _ Hv).
        unfold mn, mx. lra. }
      assert (Hd : 0 < / (mx - mn + eps self * 2))
        by (apply Rinv_0_lt_compat; lra).
      unfold Rdiv. apply Rplus_le_compat_r. apply Rmult_le_compat_r; [lra|].
      apply Rmult_le_compat_r; lra.
Qed.

Lemma rescale_lands_inside_witness :
  exists y,
    rescale new_DecoderOnlyModel demo_x_other (- 1) 1 = Returns y /\
    shape y = shape demo_x_other /\
    (forall idx, valid_index (shape demo_x_other) idx -> - 1 <= entry y idx <= 1) /\
    (forall i j j',
       entry demo_x_other (i :: j) <= entry demo_x_other (i :: j') ->
       entry y (i :: j) <= entry y (i :: j')).
Proof.
  apply (rescale_lands_inside new_DecoderOnlyModel demo_x_other (- 1) 1).
  - cbn. lra.
  - lra.
  - cbn. lia.
  - cbn. lia.
Defined.

(* ----------------------------------------------------------------- *)
(** *** quantizer *)

Lemma tclamp_range (lo hi v : R) : lo <= hi -> lo <= tclamp lo hi v <= hi.
Proof.
  intros H. unfold tclamp. split.
  - apply Rmin_glb; [apply Rmax_r|exact H].
  - apply Rmin_r.
Qed.

Lemma tclamp_inside (lo hi v : R) : lo <= v <= hi -> tclamp lo hi v = v.
Proof.
  intros H. unfold tclamp. rewrite Rmax_left by lra. apply Rmin_left. lra.
Qed.

Lemma half_integer_nonzero (z : Z) : IZR z + 1 / 2 <> 0.
Proof.
  intros H.
  assert (H2 : IZR (2 * z + 1) = 0) by (rewrite plus_IZR, mult_IZR; lra).
  apply eq_IZR in H2. lia.
Qed.

(** X26. For [q_levels > 0] and [q_scale > 0], [quantizer] sends an
    element [v] of magnitude at most [q_scale] to the level
    [(k + 1/2) * q_scale / q_levels] of the step that holds it:
    [k <= v / q_scale * q_levels < k + 1], with
    [-q_levels <= k <= q_levels].  In particular no such output is zero. *)
Theorem quantizer_levels self x idx :
  (0 < q_levels self)%Z -> 0 < q_scale self ->
  Rabs (entry x idx) <= q_scale self ->
  exists k : Z,
    (- q_levels self <= k <= q_levels self)%Z /\
    IZR k <= entry x idx / q_scale self * IZR (q_levels self) < IZR k + 1 /\
    entry (quantizer self x) idx =
      (IZR k + 1 / 2) * (q_scale self / IZR (q_levels self)) /\
    entry (quantizer self x) idx <> 0.
Proof.
  intros Hl Hs Hx. unfold quantizer. cbn [map_entries entry].
  set (l := IZR (q_levels self)). set (s := q_scale self).
  set (v := entry x idx) in *.
  assert (Hl0 : 0 < l) by (apply (IZR_lt 0); exact Hl).
  assert (Hs0 : 0 < s) by exact Hs.
  assert (Hx0 : Rabs v <= s) by exact Hx.
  assert (Hv : - s <= v <= s)
    by (revert Hx0; unfold Rabs; destruct (Rcase_abs v); lra).
  assert (Hq : - 1 <= v / s <= 1).
  { split; apply (Rmult_le_reg_r s); try exact Hs0;
      unfold Rdiv; rewrite Rmult_assoc, Rinv_l by lra; lra. }
  assert (Hy : - l <= v / s * l <= l) by nra.
  rewrite (tclamp_inside (- l) l (v / s * l) Hy).
  set (y := v / s * l) in *.
  exists (Zfloor (y / 1)). fold (floor y).
  assert (Hk : (- q_levels self <= Zfloor (y / 1) <= q_levels self)%Z).
  { split.
    - apply le_IZR. apply (floor_ge y (- q_levels self)).
      rewrite opp_IZR. apply Hy.
    - apply le_IZR. apply (floor_le y (q_levels self)). apply Hy. }
  split; [exact Hk|]. split; [exact (floor_bound y)|].
  assert (E : v + ((floor y / l + 1 / (l * 2)) * s - v)
              = (floor y + 1 / 2) * (s / l)) by (field; lra).
  split; [exact E|]. rewrite E.
  assert (Hh : floor y + 1 / 2 <> 0) by apply half_integer_nonzero.
  assert (Hsl : s / l <> 0).
  { unfold Rdiv. apply Rmult_integral_contrapositive_currified; [lra|].
    apply Rinv_neq_0_compat. lra. }
  apply Rmult_integral_contrapositive_currified; assumption.
Qed.

Lemma quantizer_levels_witness :
  exists k : Z,
    (- q_levels new_DecoderOnlyModel <= k <= q_levels new_DecoderOnlyModel)%Z /\
    IZR k <= entry demo_x [0%nat; 0%nat] / q_scale new_DecoderOnlyModel
             * IZR (q_levels new_DecoderOnlyModel) < IZR k + 1 /\
    entry (quantizer new_DecoderOnlyModel demo_x) [0%nat; 0%nat] =
      (IZR k + 1 / 2)
      * (q_scale new_DecoderOnlyModel / IZR (q_levels new_DecoderOnlyModel)) /\
    entry (quantizer new_DecoderOnlyModel demo_x) [0%nat; 0%nat] <> 0.
Proof.
  apply (quantizer_levels new_DecoderOnlyModel demo_x [0%nat; 0%nat]).
  - cbn. lia.
  - apply exp_pos.
  - cbn [demo_x full entry new_DecoderOnlyModel q_scale]. rewrite Rabs_R1.
    pose proof (exp_ineq1_le 1). lra.
Defined.

(** X27. For [q_levels > 0] and [q_scale > 0], [quantizer] moves an
    element of magnitude at most [q_scale] by at most half a step,
    [q_scale / (2 * q_levels)]. *)
Theorem quantizer_error self x idx :
  (0 < q_levels self)%Z -> 0 < q_scale self ->
  Rabs (entry x idx) <= q_scale self ->
  Rabs (entry (quantizer self x) idx - entry x idx)
  <= q_scale self / (2 * IZR (q_levels self)).
Proof.
  intros Hl Hs Hx. unfold quantizer. cbn [map_entries entry].
  set (l := IZR (q_levels self)). set (s := q_scale self).
  set (v := entry x idx) in *.
  assert (Hl0 : 0 < l) by (apply (IZR_lt 0); exact Hl).
  assert (Hs0 : 0 < s) by exact Hs.
  assert (Hx0 : Rabs v <= s) by exact Hx.
  assert (Hv : - s <= v <= s)
    by (revert Hx0; unfold Rabs; destruct (Rcase_abs v); lra).
  assert (Hq : - 1 <= v / s <= 1).
  { split; apply (Rmult_le_reg_r s); try exact Hs0;
      unfold Rdiv; rewrite Rmult_assoc, Rinv_l by lra; lra. }
  assert (Hy : - l <= v / s * l <= l) by nra.
  rewrite (tclamp_inside (- l) l (v / s * l) Hy).
  set (y := v / s * l) in *.
  pose proof (floor_bound y) as [Hf1 Hf2].
  assert (E : v + ((floor y / l + 1 / (l * 2)) * s - v) - v
              = (floor y + 1 / 2 - y) * (s / l)).
  { unfold y. field. lra. }
  rewrite E. rewrite Rabs_mult.
  assert (Hsl : 0 < s / l) by (apply Rdiv_lt_0_compat; lra).
  rewrite (Rabs_right (s / l)) by lra.
  assert (Hh : Rabs (floor y + 1 / 2 - y) <= 1 / 2)
    by (unfold Rabs; destruct (Rcase_abs (floor y + 1 / 2 - y)); lra).
  replace (s / (2 * l)) with (1 / 2 * (s / l)) by (field; lra).
  apply Rmult_le_compat_r; lra.
Qed.

Lemma quantizer_error_witness :
  Rabs (entry (quantizer new_DecoderOnlyModel demo_x) [0%nat; 0%nat]
        - entry demo_x [0%nat; 0%nat])
  <= q_scale new_DecoderOnlyModel / (2 * IZR (q_levels new_DecoderOnlyModel)).
Proof.
  apply (quantizer_error new_DecoderOnlyModel demo_x [0%nat; 0%nat]).
  - cbn. lia.
  - apply exp_pos.
  - cbn [demo_x full entry new_DecoderOnlyModel q_scale]. rewrite Rabs_R1.
    pose proof (exp_ineq1_le 1). lra.
Defined.

End TrainDecoderFacts.
